(** * Normalisation of retail product labels (SCRIPT-LIBELLE.py)

    A shallow embedding of the class [TraitementLibelles]: the sanitizer
    [supprimer_accents_et_caracteres_speciaux], the brand matcher
    [extraire_marque], the six-rule quantity extractor
    [extraire_grammage_volume] and the pipeline [traiter_libelle].

    Python strings are sequences of Unicode code points; they are modelled as
    lists of [N].  The regular expressions of the script are kept as syntax
    trees and run by a backtracking matcher with the priorities of the [re]
    module (greedy repetition, ordered alternation, leftmost non-overlapping
    scanning). *)

From Stdlib Require Import String Ascii List NArith Bool Arith Lia Sorted.
Import ListNotations.

(** ** Strings *)

Definition cp := N.
Bind Scope N_scope with cp.
Definition ustring := list cp.

(** Code points of an ASCII literal of the script. *)
Definition u (s : string) : ustring := map N_of_ascii (list_ascii_of_string s).
Arguments u s%_string.

Definition ustring_eqb (a b : ustring) : bool :=
  if list_eq_dec N.eq_dec a b then true else false.

Fixpoint is_prefix (p s : ustring) : bool :=
  match p, s with
  | [], _ => true
  | _ :: _, [] => false
  | x :: p', y :: s' => (x =? y)%N && is_prefix p' s'
  end.

(** [needle in hay] on strings. *)
Fixpoint is_infix (needle hay : ustring) : bool :=
  is_prefix needle hay ||
  match hay with
  | [] => false
  | _ :: hay' => is_infix needle hay'
  end.

(** ** Character classes *)

Definition in_range (lo hi c : cp) : bool := ((lo <=? c) && (c <=? hi))%N.
Definition is_ascii (c : cp) : bool := (c <? 128)%N.

Definition ascii_digit (c : cp) : bool := in_range 48 57 c.
Definition ascii_upper_letter (c : cp) : bool := in_range 65 90 c.
Definition ascii_lower_letter (c : cp) : bool := in_range 97 122 c.
Definition ascii_alnum (c : cp) : bool :=
  ascii_digit c || ascii_upper_letter c || ascii_lower_letter c.

Definition ascii_upper (c : cp) : cp :=
  if ascii_lower_letter c then (c - 32)%N else c.
Definition ascii_lower (c : cp) : cp :=
  if ascii_upper_letter c then (c + 32)%N else c.

Definition SPACE : cp := 32%N.

(** Whitespace of [str.isspace], [str.strip] and of [\s] in a [str] pattern. *)
Definition is_space (c : cp) : bool :=
  in_range 9 13 c || in_range 28 32 c || (c =? 133)%N || (c =? 160)%N ||
  (c =? 5760)%N || in_range 8192 8202 c || (c =? 8232)%N || (c =? 8233)%N ||
  (c =? 8239)%N || (c =? 8287)%N || (c =? 12288)%N.

(** The interpreter's Unicode tables beyond ASCII.  The script reaches them
    through [unicodedata.normalize], [unicodedata.category], [str.upper] and
    the classes [\d], [\w] of [re]; the ASCII rows are written out in the
    definitions below, the other rows are a parameter. *)
Record UnicodeData := {
  ucd_nfd : ustring -> ustring;     (* NFD of a string with a non-ASCII character *)
  ucd_Mn : cp -> bool;              (* general category Mn *)
  ucd_decimal : cp -> bool;         (* general category Nd *)
  ucd_alnum : cp -> bool;           (* str.isalnum *)
  ucd_upper : cp -> ustring;        (* full upper-case mapping *)
  ucd_caseless : cp -> cp -> bool   (* equality of a pattern and a text
                                       character under re.IGNORECASE *)
}.

Section Unicode.
Variable db : UnicodeData.

(** [unicodedata.normalize('NFD', s)] *)
Definition normalize_NFD (s : ustring) : ustring :=
  if forallb is_ascii s then s else ucd_nfd db s.

(** [unicodedata.category(c) == 'Mn'] *)
Definition category_Mn (c : cp) : bool :=
  if is_ascii c then false else ucd_Mn db c.

(** [\d] *)
Definition is_digit (c : cp) : bool :=
  if is_ascii c then ascii_digit c else ucd_decimal db c.

(** [\w] *)
Definition is_word (c : cp) : bool :=
  if is_ascii c then ascii_alnum c || (c =? 95)%N else ucd_alnum db c.

(** [s.upper()] *)
Definition upper1 (c : cp) : ustring :=
  if is_ascii c then [ascii_upper c] else ucd_upper db c.
Definition str_upper (s : ustring) : ustring := flat_map upper1 s.

(** a literal [c] of the pattern against [x] of the text, re.IGNORECASE *)
Definition caseless (c x : cp) : bool :=
  if is_ascii c && is_ascii x then (ascii_lower c =? ascii_lower x)%N
  else ucd_caseless db c x.

(** [s.strip()] *)
Fixpoint lstrip (s : ustring) : ustring :=
  match s with
  | c :: t => if is_space c then lstrip t else s
  | [] => []
  end.
Definition rstrip (s : ustring) : ustring := rev (lstrip (rev s)).
Definition strip (s : ustring) : ustring := rstrip (lstrip s).

(** ** Regular expressions *)

Inductive item :=
| IChar (c : cp)            (* a character inside [...] *)
| IRange (lo hi : cp)       (* lo-hi inside [...] *)
| ISpace.                   (* \s inside [...] *)

Inductive cls :=
| Char (c : cp)             (* an (escaped) literal character *)
| CharI (c : cp)            (* the same under re.IGNORECASE *)
| Digit                     (* \d *)
| Space                     (* \s *)
| OneOf (l : list item)     (* [...] *)
| NoneOf (l : list item).   (* [^...] *)

Inductive regex :=
| Eps
| Sym (c : cls)
| Seq (r1 r2 : regex)
| Alt (r1 r2 : regex)       (* r1|r2 *)
| Opt (c : cls)             (* c? *)
| Rep (lo : nat) (c : cls)  (* c* (lo = 0), c+ (lo = 1), c{lo,} *)
| Bnd                       (* \b *)
| Bol                       (* ^ *)
| Grp (n : nat) (r : regex). (* the n-th capturing group *)

Definition item_test (i : item) (x : cp) : bool :=
  match i with
  | IChar c => (x =? c)%N
  | IRange lo hi => in_range lo hi x
  | ISpace => is_space x
  end.

Definition cls_test (k : cls) (x : cp) : bool :=
  match k with
  | Char c => (x =? c)%N
  | CharI c => caseless c x
  | Digit => is_digit x
  | Space => is_space x
  | OneOf l => existsb (fun i => item_test i x) l
  | NoneOf l => negb (existsb (fun i => item_test i x) l)
  end.

(** The matcher state: the text before the cursor (nearest character first),
    the text after it, and the groups closed so far (latest first). *)
Record mstate := MState {
  behind : ustring;
  ahead : ustring;
  caps : list (nat * ustring)
}.

Definition head_is (p : cp -> bool) (s : ustring) : bool :=
  match s with
  | c :: _ => p c
  | [] => false
  end.

Definition at_boundary (st : mstate) : bool :=
  xorb (head_is is_word (behind st)) (head_is is_word (ahead st)).

(** Text read between two states of one matching attempt. *)
Definition consumed (st st' : mstate) : ustring :=
  firstn (length (ahead st) - length (ahead st')) (ahead st).

(** Greedy repetition of a class: as many characters as possible, giving
    them back one at a time while the rest of the pattern fails. *)
Fixpoint rep_cls (p : cp -> bool) (k : mstate -> option mstate) (lo : nat)
    (b a : ustring) (g : list (nat * ustring)) {struct a} : option mstate :=
  let stop := match lo with
              | O => k (MState b a g)
              | S _ => None
              end in
  match a with
  | c :: t =>
      if p c then
        match rep_cls p k (pred lo) (c :: b) t g with
        | Some res => Some res
        | None => stop
        end
      else stop
  | [] => stop
  end.

(** One character of a class. *)
Definition sym (c : cls) (k : mstate -> option mstate) (st : mstate)
    : option mstate :=
  match ahead st with
  | x :: t =>
      if cls_test c x then k (MState (x :: behind st) t (caps st)) else None
  | [] => None
  end.

(** Backtracking matcher in continuation-passing style: [k] is the rest of
    the pattern. *)
Fixpoint rmatch (r : regex) (k : mstate -> option mstate) (st : mstate)
    : option mstate :=
  match r with
  | Eps => k st
  | Sym c => sym c k st
  | Seq r1 r2 => rmatch r1 (rmatch r2 k) st
  | Alt r1 r2 =>
      match rmatch r1 k st with
      | Some res => Some res
      | None => rmatch r2 k st
      end
  | Opt c =>
      match sym c k st with
      | Some res => Some res
      | None => k st
      end
  | Rep lo c => rep_cls (cls_test c) k lo (behind st) (ahead st) (caps st)
  | Bnd => if at_boundary st then k st else None
  | Bol =>
      match behind st with
      | [] => k st
      | _ :: _ => None
      end
  | Grp n r1 =>
      rmatch r1
        (fun st' =>
           k (MState (behind st') (ahead st') ((n, consumed st st') :: caps st')))
        st
  end.

(** A match: its text and its groups. *)
Record hit := Hit {
  hit_text : ustring;
  hit_groups : list (nat * ustring)
}.

Definition hit_len (h : hit) : nat := length (hit_text h).

(** End of the pattern.  [must] is the scanner's flag set after an empty
    match: the next match may not be empty at the same place. *)
Definition accept (must : bool) (n0 : nat) (st : mstate) : option mstate :=
  if must && (length (ahead st) =? n0) then None else Some st.

(** One matching attempt with the cursor between [b] and [a]. *)
Definition attempt (r : regex) (must : bool) (b a : ustring) : option hit :=
  match rmatch r (accept must (length a)) (MState b a []) with
  | Some st' => Some (Hit (firstn (length a - length (ahead st')) a) (caps st'))
  | None => None
  end.

(** [re.search]: the leftmost position where an attempt succeeds. *)
Fixpoint search_from (r : regex) (b a : ustring) : option hit :=
  match attempt r false b a with
  | Some h => Some h
  | None =>
      match a with
      | c :: t => search_from r (c :: b) t
      | [] => None
      end
  end.

Definition re_search (r : regex) (s : ustring) : option hit := search_from r [] s.

(** The scan shared by [re.findall] and [re.sub]: the text cut into the
    characters outside every match and the successive matches.  [skip]
    counts the characters still inside the previous match. *)
Inductive piece :=
| Keep (c : cp)
| Found (h : hit).

Fixpoint pieces (r : regex) (skip : nat) (b a : ustring) {struct a} : list piece :=
  let next n := match a with
                | c :: t => pieces r n (c :: b) t
                | [] => []
                end in
  let pass := match a with
              | c :: t => Keep c :: pieces r 0 (c :: b) t
              | [] => []
              end in
  match skip with
  | S n => next n
  | O =>
      match attempt r false b a with
      | None => pass
      | Some h =>
          Found h ::
          match hit_len h with
          | S n => next n
          | O =>
              match attempt r true b a with
              | Some h' => Found h' :: next (pred (hit_len h'))
              | None => pass
              end
          end
      end
  end.

Definition hits (r : regex) (s : ustring) : list hit :=
  flat_map (fun p => match p with Found h => [h] | Keep _ => [] end) (pieces r 0 [] s).

(** [re.findall] for a pattern without capturing group: the matched texts. *)
Definition re_findall (r : regex) (s : ustring) : list ustring :=
  map hit_text (hits r s).

Definition group (h : hit) (n : nat) : ustring :=
  match find (fun e => fst e =? n) (hit_groups h) with
  | Some e => snd e
  | None => []
  end.

(** [re.findall] for a pattern with [ng >= 2] capturing groups: the tuples of
    the groups 1..ng. *)
Definition re_findall_groups (ng : nat) (r : regex) (s : ustring)
    : list (list ustring) :=
  map (fun h => map (group h) (seq 1 ng)) (hits r s).

(** [re.sub] with a replacement that has no backslash. *)
Definition re_sub (r : regex) (repl : ustring) (s : ustring) : ustring :=
  flat_map (fun p => match p with Found _ => repl | Keep c => [c] end)
           (pieces r 0 [] s).

(** [re.sub] with a replacement template. *)
Inductive titem :=
| TLit (s : ustring)
| TGrp (n : nat).            (* \n *)

Definition expand (tpl : list titem) (h : hit) : ustring :=
  flat_map (fun t => match t with TLit s => s | TGrp n => group h n end) tpl.

Definition re_sub_template (r : regex) (tpl : list titem) (s : ustring) : ustring :=
  flat_map (fun p => match p with Found h => expand tpl h | Keep c => [c] end)
           (pieces r 0 [] s).

End Unicode.

(** ** The patterns of the script *)

Definition ch (a : ascii) : cp := N_of_ascii a.
Arguments ch a%_char.

Definition seqs (l : list regex) : regex := fold_right Seq Eps l.

(** [re.escape(s)], compiled with or without re.IGNORECASE: the characters of
    [s] one after the other. *)
Definition escape (ignorecase : bool) (s : ustring) : regex :=
  seqs (map (fun c => Sym (if ignorecase then CharI c else Char c)) s).

(** [r'\b' + re.escape(tok) + r'\b'] *)
Definition word_pattern (ignorecase : bool) (tok : ustring) : regex :=
  seqs [Bnd; escape ignorecase tok; Bnd].

(** [(?:KG|G|L|ML|CL)] *)
Definition unites : list ustring := [u "KG"; u "G"; u "L"; u "ML"; u "CL"].
Definition unite : regex :=
  Alt (escape false (u "KG"))
    (Alt (escape false (u "G"))
       (Alt (escape false (u "L"))
          (Alt (escape false (u "ML")) (escape false (u "CL"))))).

Definition point_ou_virgule : cls := OneOf [IChar (ch "."); IChar (ch ",")].
Definition un_a_neuf : cls := OneOf [IRange (ch "1") (ch "9")].

(** [[^A-Za-z0-9\s,./X+-]] *)
Definition caractere_interdit : cls :=
  NoneOf [IRange (ch "A") (ch "Z"); IRange (ch "a") (ch "z");
          IRange (ch "0") (ch "9"); ISpace; IChar (ch ","); IChar (ch ".");
          IChar (ch "/"); IChar (ch "X"); IChar (ch "+"); IChar (ch "-")].

(** [\s+] *)
Definition espaces : regex := Rep 1 Space.

(** The end of the patterns 1, 2, 3 and 5: [\s*(?:KG|G|L|ML|CL)\b] *)
Definition fin_unite : list regex := [Rep 0 Space; unite; Bnd].

(** [\b\d+[.,]\d+\s*(?:KG|G|L|ML|CL)\b] *)
Definition tete1 : list regex :=
  [Bnd; Rep 1 Digit; Sym point_ou_virgule; Rep 1 Digit].
Definition pattern1 : regex := seqs (tete1 ++ fin_unite).

(** [\b\d+X\d+[.,]?\d*\s*(?:KG|G|L|ML|CL)\b] *)
Definition tete2 : list regex :=
  [Bnd; Rep 1 Digit; Sym (Char (ch "X")); Rep 1 Digit; Opt point_ou_virgule;
   Rep 0 Digit].
Definition pattern2 : regex := seqs (tete2 ++ fin_unite).

(** [\b(?:[1-9]\d{2,}|[1-9]\d)\s*(?:KG|G|L|ML|CL)\b] *)
Definition tete3 : list regex :=
  [Bnd;
   Alt (seqs [Sym un_a_neuf; Rep 2 Digit]) (seqs [Sym un_a_neuf; Sym Digit])].
Definition pattern3 : regex := seqs (tete3 ++ fin_unite).

(** [(?:^|\s)([1-9])\s*(KG|G|L|ML|CL)\b] *)
Definition pattern4 : regex :=
  seqs [Alt Bol (Sym Space); Grp 1 (Sym un_a_neuf); Rep 0 Space; Grp 2 unite;
        Bnd].

(** [\b\d+/\d+\s*(?:KG|G|L|ML|CL)\b] *)
Definition tete5 : list regex :=
  [Bnd; Rep 1 Digit; Sym (Char (ch "/")); Rep 1 Digit].
Definition pattern5 : regex := seqs (tete5 ++ fin_unite).

(** [\b\d+/\d+\b] *)
Definition pattern6 : regex :=
  seqs [Bnd; Rep 1 Digit; Sym (Char (ch "/")); Rep 1 Digit; Bnd].

(** [(\d+)\.(\d+)] and its replacement [\1,\2] *)
Definition decimale_point : regex :=
  seqs [Grp 1 (Rep 1 Digit); Sym (Char (ch ".")); Grp 2 (Rep 1 Digit)].
Definition decimale_virgule : list titem := [TGrp 1; TLit (u ","); TGrp 2].

(** ** The class TraitementLibelles *)

Record TraitementLibelles := { marques : list ustring }.

(** [__init__] *)
Definition init : TraitementLibelles :=
  {| marques := [u "CRF"; u "CARF"; u "CARREFOUR"; u "PAPERMATE"; u "PM";
                 u "SHARPIE"; u "ROTRING"] |}.

Notation "x <- e ;; k" :=
  (match e with Some x => k | None => None end)
  (at level 61, e at next level, right associativity).

Fixpoint foldM {A B : Type} (f : A -> B -> option A) (l : list B) (a : A)
    : option A :=
  match l with
  | [] => Some a
  | x :: l' => a' <- f a x ;; foldM f l' a'
  end.

(** [sep.join(l)] *)
Fixpoint join (sep : ustring) (l : list ustring) : ustring :=
  match l with
  | [] => []
  | [x] => x
  | x :: l' => x ++ sep ++ join sep l'
  end.

(** [s.replace(a, b)] for one-character [a] and [b] *)
Definition replace_char (a b : cp) (s : ustring) : ustring :=
  map (fun c => if (c =? a)%N then b else c) s.

Section Script.
Variable db : UnicodeData.

(** [re.sub(r'\s+', ' ', s).strip()] *)
Definition normaliser_espaces (s : ustring) : ustring :=
  strip (re_sub db espaces (u " ") s).

Definition supprimer_accents_et_caracteres_speciaux (texte : ustring) : ustring :=
  let normalise := normalize_NFD db texte in
  let sans_accents := filter (fun char => negb (category_Mn db char)) normalise in
  let nettoye := re_sub db (Sym caractere_interdit) (u " ") sans_accents in
  let nettoye := normaliser_espaces nettoye in
  nettoye.

Definition contient_mot (marque texte_majuscule : ustring) : bool :=
  match re_search db (word_pattern false marque) texte_majuscule with
  | Some _ => true
  | None => false
  end.

Definition extraire_marque (self : TraitementLibelles) (texte : ustring)
    : option ustring :=
  let texte_majuscule := str_upper db texte in
  find (fun marque => contient_mot marque texte_majuscule) (marques self).

(** The loops of [extraire_grammage_volume], one per rule. *)

(** rules 1 and 2: the decimal point of every match becomes a comma *)
Definition ajouter_normalises (matches gvs : list ustring) : list ustring :=
  fold_left
    (fun gvs m => gvs ++ [re_sub_template db decimale_point decimale_virgule m])
    matches gvs.

(** rule 3 *)
Definition ajouter (matches gvs : list ustring) : list ustring :=
  fold_left (fun gvs m => gvs ++ [m]) matches gvs.

(** rule 4: [match[0] + match[1]] on the tuples of groups *)
Definition ajouter_groupes (matches : list (list ustring)) (gvs : list ustring)
    : option (list ustring) :=
  foldM (fun gvs m =>
           m0 <- nth_error m 0 ;;
           m1 <- nth_error m 1 ;;
           Some (gvs ++ [m0 ++ m1]))
        matches gvs.

(** rule 6: [if not any(match in gv for gv in grammages_volumes)] *)
Definition ajouter_fractions (matches gvs : list ustring) : list ustring :=
  fold_left
    (fun gvs m => if existsb (fun gv => is_infix m gv) gvs then gvs else gvs ++ [m])
    matches gvs.

(** the final loop: [if gv not in grammages_uniques] *)
Definition dedoublonner (gvs : list ustring) : list ustring :=
  fold_left
    (fun uniques gv =>
       if existsb (ustring_eqb gv) uniques then uniques else uniques ++ [gv])
    gvs [].

(** The running list [grammages_volumes] after rules 1 to 5. *)
Definition regles_1_a_5 (texte_majuscule : ustring) : option (list ustring) :=
  let grammages_volumes := [] in
  let matches1 := re_findall db pattern1 texte_majuscule in
  let grammages_volumes := ajouter_normalises matches1 grammages_volumes in
  let matches2 := re_findall db pattern2 texte_majuscule in
  let grammages_volumes := ajouter_normalises matches2 grammages_volumes in
  let matches3 := re_findall db pattern3 texte_majuscule in
  let grammages_volumes := ajouter matches3 grammages_volumes in
  let matches4 := re_findall_groups db 2 pattern4 texte_majuscule in
  grammages_volumes <- ajouter_groupes matches4 grammages_volumes ;;
  let matches5 := re_findall db pattern5 texte_majuscule in
  let grammages_volumes := grammages_volumes ++ matches5 in
  Some grammages_volumes.

(** The running list before deduplication. *)
Definition grammages_volumes_bruts (texte : ustring) : option (list ustring) :=
  let texte_majuscule := str_upper db texte in
  grammages_volumes <- regles_1_a_5 texte_majuscule ;;
  let matches6 := re_findall db pattern6 texte_majuscule in
  Some (ajouter_fractions matches6 grammages_volumes).

Definition extraire_grammage_volume (texte : ustring) : option (list ustring) :=
  grammages_volumes <- grammages_volumes_bruts texte ;;
  Some (dedoublonner grammages_volumes).

(** [re.sub(r'\b' + re.escape(tok) + r'\b', '', s, flags=re.IGNORECASE)] *)
Definition retirer (tok s : ustring) : ustring :=
  re_sub db (word_pattern true tok) [] s.

(** Step 4 of [traiter_libelle]: the product name. *)
Definition retirer_marque (marque : option ustring) (nom_produit : ustring)
    : ustring :=
  match marque with
  | Some (c :: m) => retirer (c :: m) nom_produit
  | _ => nom_produit
  end.

Definition retirer_grammages (grammages_volumes : list ustring)
    (nom_produit : ustring) : ustring :=
  fold_left
    (fun nom_produit gv =>
       let gv_avec_point := replace_char (ch ",") (ch ".") gv in
       let nom_produit := retirer gv nom_produit in
       retirer gv_avec_point nom_produit)
    grammages_volumes nom_produit.

Definition nom_du_produit (nettoye : ustring) (marque : option ustring)
    (grammages_volumes : list ustring) : ustring :=
  let nom_produit := nettoye in
  let nom_produit := retirer_marque marque nom_produit in
  let nom_produit := retirer_grammages grammages_volumes nom_produit in
  normaliser_espaces nom_produit.

(** Step 5 of [traiter_libelle]: the final label. *)
Definition assembler (marque : option ustring) (nom_produit : ustring)
    (grammages_volumes : list ustring) : ustring :=
  let parties_finales := [] in
  let parties_finales :=
    match marque with
    | Some (c :: m) => parties_finales ++ [c :: m]
    | _ => parties_finales
    end in
  let parties_finales :=
    match nom_produit with
    | _ :: _ => parties_finales ++ [nom_produit]
    | [] => parties_finales
    end in
  let parties_finales := parties_finales ++ grammages_volumes in
  let libelle_final := str_upper db (join (u " ") parties_finales) in
  normaliser_espaces libelle_final.

Definition traiter_libelle (self : TraitementLibelles)
    (libelle_original : ustring) : option ustring :=
  let nettoye := supprimer_accents_et_caracteres_speciaux libelle_original in
  let marque := extraire_marque self nettoye in
  grammages_volumes <- extraire_grammage_volume nettoye ;;
  let nom_produit := nom_du_produit nettoye marque grammages_volumes in
  Some (assembler marque nom_produit grammages_volumes).

End Script.

(** ** Files and batches *)

Definition LF : cp := 10%N.
Definition CR : cp := 13%N.
Definition TAB : cp := 9%N.
Definition GUILLEMET : cp := 34%N.

(** [open(chemin, 'r')] reads with universal newlines: "\r\n" and "\r"
    become "\n".  [pendingcr] says that the character before was "\r". *)
Fixpoint universal_newlines (pendingcr : bool) (s : ustring) : ustring :=
  match s with
  | [] => []
  | c :: t =>
      if (c =? CR)%N then LF :: universal_newlines true t
      else if (c =? LF)%N && pendingcr then universal_newlines false t
      else c :: universal_newlines false t
  end.

(** [for ligne in fichier]: the lines of the text, each with its "\n". *)
Fixpoint lignes (s : ustring) : list ustring :=
  match s with
  | [] => []
  | c :: t =>
      if (c =? LF)%N then [c] :: lignes t
      else
        match lignes t with
        | [] => [[c]]
        | l :: ls => (c :: l) :: ls
        end
  end.

(** The truth value of a string. *)
Definition non_vide (s : ustring) : bool :=
  match s with
  | [] => false
  | _ :: _ => true
  end.

(** [csv.writer(fichier_tsv, delimiter='\t')]: a field is quoted when it
    holds the delimiter, a quote or an end of line, and its quotes are
    doubled; a row of one empty field is written as two quotes. *)
Definition a_citer (c : cp) : bool :=
  (c =? TAB)%N || (c =? GUILLEMET)%N || (c =? CR)%N || (c =? LF)%N.

Definition champ (s : ustring) : ustring :=
  if existsb a_citer s then
    [GUILLEMET] ++
    flat_map (fun c => if (c =? GUILLEMET)%N then [c; c] else [c]) s ++
    [GUILLEMET]
  else s.

Definition writerow (row : list ustring) : ustring :=
  match row with
  | [[]] => [GUILLEMET; GUILLEMET]
  | _ => join [TAB] (map champ row)
  end ++ [CR; LF].

Definition entete : list ustring :=
  [u "Libell" ++ [233%N] ++ u " Original";
   u "Libell" ++ [233%N] ++ u " Corrig" ++ [233%N]].

(** The text [sauvegarder_tsv] writes. *)
Definition contenu_tsv (resultats : list (ustring * ustring)) : ustring :=
  writerow entete ++ flat_map (fun r => writerow [fst r; snd r]) resultats.

Section Fichiers.
(** The file system: [ouvrir chemin] is the decoded text of the file, or
    nothing when opening, reading or decoding raises; [ecrire chemin texte]
    says whether the file could be written. *)
Variable ouvrir : ustring -> option ustring.
Variable ecrire : ustring -> ustring -> bool.

Definition lire_articles_depuis_fichier (chemin_fichier : ustring)
    : list ustring :=
  match ouvrir chemin_fichier with
  | Some contenu =>
      let fichier := lignes (universal_newlines false contenu) in
      map strip (filter (fun ligne => non_vide (strip ligne)) fichier)
  | None => []
  end.

Definition sauvegarder_tsv (resultats : list (ustring * ustring))
    (chemin_sortie : ustring) : bool :=
  ecrire chemin_sortie (contenu_tsv resultats).

End Fichiers.

(** The loop of [traiter_articles] that builds [resultats]. *)
Definition resultats (db : UnicodeData) (articles : list ustring)
    : option (list (ustring * ustring)) :=
  let processeur := init in
  foldM
    (fun resultats article =>
       let article_nettoye := strip article in
       if non_vide article_nettoye then
         article_traite <- traiter_libelle db processeur article_nettoye ;;
         Some (resultats ++ [(article_nettoye, article_traite)])
       else Some resultats)
    articles [].

(** A table for the accented letters of French, enough to run the examples
    of the script: letter, base letter, combining mark. *)
Definition minuscules_accentuees : list (cp * (cp * cp)) :=
  [(224, (97, 768)); (226, (97, 770)); (228, (97, 776)); (231, (99, 807));
   (232, (101, 768)); (233, (101, 769)); (234, (101, 770)); (235, (101, 776));
   (238, (105, 770)); (239, (105, 776)); (244, (111, 770)); (246, (111, 776));
   (249, (117, 768)); (251, (117, 770)); (252, (117, 776))]%N.

Definition decomposition (c : cp) : ustring :=
  match find (fun e => fst e =? c)%N minuscules_accentuees with
  | Some (_, (b, m)) => [b; m]
  | None =>
      match find (fun e => fst e =? c + 32)%N minuscules_accentuees with
      | Some (_, (b, m)) => [b - 32; m]%N
      | None => [c]
      end
  end.

Definition lettre_latin1 (c : cp) : bool :=
  in_range 192 255 c && negb (c =? 215)%N && negb (c =? 247)%N.

Definition latin_ucd : UnicodeData := {|
  ucd_nfd := flat_map decomposition;
  ucd_Mn := in_range 768 879;
  ucd_decimal := fun _ => false;
  ucd_alnum := lettre_latin1;
  ucd_upper := fun c =>
    if in_range 224 254 c && negb (c =? 247)%N then [c - 32]%N else [c];
  ucd_caseless := fun c x =>
    let low y := if in_range 192 222 y && negb (y =? 215)%N then (y + 32)%N
                 else ascii_lower y in
    (low c =? low x)%N
|}.

(** ** Specification vocabulary *)

Fixpoint take_while (p : cp -> bool) (s : ustring) : ustring :=
  match s with
  | c :: t => if p c then c :: take_while p t else []
  | [] => []
  end.

Fixpoint drop_while (p : cp -> bool) (s : ustring) : ustring :=
  match s with
  | c :: t => if p c then drop_while p t else s
  | [] => []
  end.

(** The characters a sanitized text is made of, the space apart. *)
Definition permis (c : cp) : bool :=
  ascii_alnum c || (c =? ch ",")%N || (c =? ch ".")%N || (c =? ch "/")%N ||
  (c =? ch "+")%N || (c =? ch "-")%N.

(** Every whitespace character is a space, and no two of them are adjacent. *)
Fixpoint espaces_simples (s : ustring) : bool :=
  match s with
  | c :: t =>
      (if is_space c then (c =? SPACE)%N && negb (head_is is_space t) else true)
      && espaces_simples t
  | [] => true
  end.

(** SanitizedText: permitted characters and single spaces, none at the ends. *)
Definition sanitized (s : ustring) : bool :=
  forallb (fun c => permis c || (c =? SPACE)%N) s && espaces_simples s &&
  negb (head_is is_space s) && negb (head_is is_space (rev s)).

Section Semantics.
Variable db : UnicodeData.

(** What a pattern may read: [run r st st'] when [r] can take the matcher
    from [st] to [st'], priorities left aside. *)
Inductive run : regex -> mstate -> mstate -> Prop :=
| run_eps st : run Eps st st
| run_sym c x b t g :
    cls_test db c x = true ->
    run (Sym c) (MState b (x :: t) g) (MState (x :: b) t g)
| run_seq r1 r2 st1 st2 st3 :
    run r1 st1 st2 -> run r2 st2 st3 -> run (Seq r1 r2) st1 st3
| run_alt_l r1 r2 st st' : run r1 st st' -> run (Alt r1 r2) st st'
| run_alt_r r1 r2 st st' : run r2 st st' -> run (Alt r1 r2) st st'
| run_opt_some c x b t g :
    cls_test db c x = true ->
    run (Opt c) (MState b (x :: t) g) (MState (x :: b) t g)
| run_opt_none c st : run (Opt c) st st
| run_rep lo c s b t g :
    lo <= length s -> forallb (cls_test db c) s = true ->
    run (Rep lo c) (MState b (s ++ t) g) (MState (rev s ++ b) t g)
| run_bnd st : at_boundary db st = true -> run Bnd st st
| run_bol a g : run Bol (MState [] a g) (MState [] a g)
| run_grp n r st st' :
    run r st st' ->
    run (Grp n r) st
        (MState (behind st') (ahead st') ((n, consumed st st') :: caps st')).

(** The replacement of rules 1 and 2 on one match. *)
Definition normaliser_decimale (m : ustring) : ustring :=
  re_sub_template db decimale_point decimale_virgule m.

End Semantics.

(** Position of the first occurrence of [x] in [l] ([length l] if none). *)
Fixpoint first_index (x : ustring) (l : list ustring) : nat :=
  match l with
  | [] => 0
  | y :: l' => if ustring_eqb x y then 0 else S (first_index x l')
  end.

(** [needle] occurs in [hay] as a run of consecutive characters. *)
Definition Infix (needle hay : ustring) : Prop :=
  exists p q, hay = p ++ needle ++ q.

(** What rule 6 discovers.  [fractions_gardees R ms kept]: going through the
    bare fractions [ms] in the order of the text, with [R] the tokens found
    so far, [kept] lists, in that order, the fractions that no token found
    before them contains; each one kept counts as found for the next ones. *)
Inductive fractions_gardees
    : list ustring -> list ustring -> list ustring -> Prop :=
| fg_fin R : fractions_gardees R [] []
| fg_garde R m ms kept :
    (forall gv, In gv R -> ~ Infix m gv) ->
    fractions_gardees (R ++ [m]) ms kept ->
    fractions_gardees R (m :: ms) (m :: kept)
| fg_saute R m ms kept :
    (exists gv, In gv R /\ Infix m gv) ->
    fractions_gardees R ms kept ->
    fractions_gardees R (m :: ms) kept.

(** A character of a sanitized text. *)
Definition sobre (c : cp) : bool := permis c || (c =? SPACE)%N.

(** [tok] occurs in [s] as a whole word: between two characters that are
    not alphanumeric, or the ends of [s]. *)
Definition occurs_as_word (tok s : ustring) : Prop :=
  exists pre post,
    s = pre ++ tok ++ post /\
    head_is ascii_alnum (rev pre) = false /\ head_is ascii_alnum post = false.

(** The same, letters compared without their case. *)
Definition occurs_as_word_ci (tok s : ustring) : Prop :=
  exists pre w post,
    s = pre ++ w ++ post /\ map ascii_upper w = map ascii_upper tok /\
    head_is ascii_alnum (rev pre) = false /\ head_is ascii_alnum post = false.

(** A brand token: upper-case letters and digits, at least one. *)
Definition marque_valide (m : ustring) : bool :=
  match m with
  | [] => false
  | _ :: _ => forallb (fun c => ascii_digit c || ascii_upper_letter c) m
  end.

(** [tok] is a whole word of [T] made of a first digit accepted by
    [premier], one or more further digits, an optional space and a unit. *)
Definition mot_entier_unite (premier : cp -> bool) (tok T : ustring) : Prop :=
  exists pre post d ds ws un,
    T = pre ++ tok ++ post /\ tok = d :: ds ++ ws ++ un /\
    premier d = true /\ ds <> [] /\ forallb ascii_digit ds = true /\
    (ws = [] \/ ws = [SPACE]) /\ In un unites /\
    head_is ascii_alnum (rev pre) = false /\
    head_is ascii_alnum post = false.

(** A token that begins and ends with an alphanumeric character. *)
Definition bords_alnum (tok : ustring) : bool :=
  head_is ascii_alnum tok && head_is ascii_alnum (rev tok).

(** What the reduction needs of a token: alphanumeric ends, sanitized
    characters. *)
Definition jeton_ok (tok : ustring) : bool :=
  bords_alnum tok && forallb sobre tok.

(** [retire tok b s s']: the text [s], read after [b] (nearest character
    first), becomes [s'] when some whole-word occurrences of [tok], the case
    of the letters left aside, are taken out of it; every other character
    stays, in its place. *)
Inductive retire (tok : ustring) : ustring -> ustring -> ustring -> Prop :=
| retire_nil b : retire tok b [] []
| retire_keep b c s s' :
    retire tok (c :: b) s s' -> retire tok b (c :: s) (c :: s')
| retire_word b w s s' :
    map ascii_lower w = map ascii_lower tok ->
    head_is ascii_alnum b = false -> head_is ascii_alnum s = false ->
    retire tok (rev w ++ b) s s' -> retire tok b (w ++ s) s'.

(** The tokens the reduction of the name goes through, in its order: the
    brand, then each quantity token followed by its spelling with a point. *)
Definition jetons_a_retirer (marque : option ustring) (gvs : list ustring)
    : list ustring :=
  match marque with
  | Some (c :: m) => [c :: m]
  | _ => []
  end ++
  flat_map (fun gv => [gv; replace_char (ch ",") (ch ".") gv]) gvs.

(** One removal after the other, each on the text the previous one left. *)
Inductive retire_tous : list ustring -> ustring -> ustring -> Prop :=
| retire_tous_nil s : retire_tous [] s s
| retire_tous_cons tok toks s s1 s2 :
    retire tok [] s s1 -> retire_tous toks s1 s2 ->
    retire_tous (tok :: toks) s s2.

(** The reduction as the specification words it: the whole-word occurrences
    that the tokens have in the sanitized text itself are taken out, all
    other characters stay. *)
Definition occurrence_ici (tok b a : ustring) : bool :=
  ustring_eqb (map ascii_lower (firstn (length tok) a)) (map ascii_lower tok) &&
  negb (head_is ascii_alnum b) &&
  negb (head_is ascii_alnum (skipn (length tok) a)).

Fixpoint retirer_occurrences (toks : list ustring) (skip : nat)
    (b a : ustring) : ustring :=
  match a with
  | [] => []
  | c :: a' =>
      let n := fold_right
                 (fun tok n =>
                    if occurrence_ici tok b a then Nat.max (length tok) n else n)
                 skip toks in
      match n with
      | O => c :: retirer_occurrences toks 0 (c :: b) a'
      | S n' => retirer_occurrences toks n' (c :: b) a'
      end
  end.

(** A label whose reduction goes beyond the occurrences of its text. *)
Definition chips_crf : ustring := u "6X30, G 6X30,CRF G".

(** A character and what rules 1 and 2 make of it: itself, or a comma for a
    point. *)
Definition point_en_virgule (a c : cp) : Prop :=
  c = a \/ (a = ch "." /\ c = ch ",").

(** The examples of the script. *)
Definition desodorisant : ustring :=
  u "D" ++ [233%N] ++ u "sodorisant 2.5ml 4scent".
Definition desodorisant_nfd : ustring :=
  u "De" ++ [769%N] ++ u "sodorisant 2.5ml 4scent".
Definition barquette : ustring := u "5 BQ ALU 1,5L PROFONDE".

(** What [re.sub] writes for one piece of the scan. *)
Definition subst_piece (repl : ustring) (p : piece) : ustring :=
  match p with
  | Found _ => repl
  | Keep c => [c]
  end.

(** The token rule 4 builds from one match: group 1 followed by group 2. *)
Definition jeton4 (h : hit) : ustring := group h 1 ++ group h 2.

(** ** Vocabulary of the further properties *)

Definition non_espace (c : cp) : bool := negb (is_space c).

(** No lower-case letter. *)
Definition sans_minuscule (s : ustring) : bool :=
  forallb (fun c => negb (ascii_lower_letter c)) s.

(** Single spaces, none at the ends. *)
Definition propre (s : ustring) : bool :=
  espaces_simples s && negb (head_is is_space s) &&
  negb (head_is is_space (rev s)).

(** [s] is what remains of [t] when some of its characters are taken out. *)
Inductive sous_suite : ustring -> ustring -> Prop :=
| ss_nil : sous_suite [] []
| ss_keep c s t : sous_suite s t -> sous_suite (c :: s) (c :: t)
| ss_drop c s t : sous_suite s t -> sous_suite s (c :: t).

(** A state of the matcher, a match and a piece of the scan, their
    characters sent through [f]. *)
Definition map_caps (f : cp -> cp) (g : list (nat * ustring))
    : list (nat * ustring) :=
  map (fun e => (fst e, map f (snd e))) g.

Definition map_state (f : cp -> cp) (st : mstate) : mstate :=
  MState (map f (behind st)) (map f (ahead st)) (map_caps f (caps st)).

Definition map_hit (f : cp -> cp) (h : hit) : hit :=
  Hit (map f (hit_text h)) (map_caps f (hit_groups h)).

Definition map_piece (f : cp -> cp) (p : piece) : piece :=
  match p with
  | Keep c => Keep (f c)
  | Found h => Found (map_hit f h)
  end.

Definition etat_ascii (st : mstate) : bool :=
  forallb is_ascii (behind st) && forallb is_ascii (ahead st).

(** The classes of a pattern do not tell an ASCII character from its image
    by [f]. *)
Definition cls_stable (db : UnicodeData) (f : cp -> cp) (c : cls) : Prop :=
  forall x, is_ascii x = true -> cls_test db c (f x) = cls_test db c x.

Fixpoint regex_stable (db : UnicodeData) (f : cp -> cp) (r : regex) : Prop :=
  match r with
  | Eps | Bnd | Bol => True
  | Sym c | Opt c | Rep _ c => cls_stable db f c
  | Seq r1 r2 | Alt r1 r2 => regex_stable db f r1 /\ regex_stable db f r2
  | Grp _ r1 => regex_stable db f r1
  end.

(** The list [parties_finales] of [traiter_libelle]. *)
Definition parties (marque : option ustring) (nom_produit : ustring)
    (grammages_volumes : list ustring) : list ustring :=
  match marque with
  | Some (c :: m) => [c :: m]
  | _ => []
  end ++
  match nom_produit with
  | _ :: _ => [nom_produit]
  | [] => []
  end ++ grammages_volumes.

(** * Properties *)

(** Decides a boolean combination of comparisons of code points. *)
Ltac chars :=
  intros;
  unfold permis, ascii_alnum, ascii_digit, ascii_upper_letter,
    ascii_lower_letter, is_space, is_ascii, in_range, SPACE, ch in *;
  simpl N_of_ascii in *; cbn [orb andb negb] in *;
  repeat (progress rewrite ?orb_false_r, ?orb_true_iff, ?orb_false_iff,
            ?andb_true_iff, ?andb_false_iff, ?negb_true_iff, ?negb_false_iff,
            ?N.eqb_eq, ?N.eqb_neq, ?N.leb_le, ?N.leb_gt, ?N.ltb_lt, ?N.ltb_ge in *);
  lia.

(** ** The matcher against its semantics *)

Section EngineFacts.
Variable db : UnicodeData.

Lemma rep_cls_sound p k lo b a g res :
  rep_cls p k lo b a g = Some res ->
  exists s t, a = s ++ t /\ forallb p s = true /\ lo <= length s /\
              k (MState (rev s ++ b) t g) = Some res.
Proof.
  revert lo b. induction a as [|c t IH]; intros lo b H; simpl in H.
  - destruct lo; [|discriminate]. exists [], []. auto.
  - assert (Hstop : match lo with O => k (MState b (c :: t) g) | S _ => None end = Some res ->
              exists s t0, c :: t = s ++ t0 /\ forallb p s = true /\ lo <= length s /\
                           k (MState (rev s ++ b) t0 g) = Some res).
    { destruct lo; [|discriminate]. intros. exists [], (c :: t). auto. }
    destruct (p c) eqn:Hp; [|auto].
    destruct (rep_cls p k (pred lo) (c :: b) t g) eqn:Hr; [|auto].
    inversion H; subst. destruct (IH _ _ Hr) as (s & t0 & -> & Hs & Hlo & Hk).
    exists (c :: s), t0. simpl. rewrite Hp, Hs, <- app_assoc. simpl.
    repeat split; auto. lia.
Qed.

Lemma rep_cls_complete p k lo b s t g res :
  forallb p s = true -> lo <= length s ->
  k (MState (rev s ++ b) t g) = Some res ->
  exists res', rep_cls p k lo b (s ++ t) g = Some res'.
Proof.
  revert lo b. induction s as [|c s IH]; intros lo b Hs Hlo Hk; simpl in *.
  - assert (lo = 0) by lia. subst. destruct t as [|c t]; simpl; eauto.
    destruct (p c); eauto.
    destruct (rep_cls p k 0 (c :: b) t g); eauto.
  - apply andb_prop in Hs. destruct Hs as [Hc Hs]. rewrite Hc.
    destruct (IH (pred lo) (c :: b)) as [res' Hr]; auto; [lia| |].
    + rewrite <- app_assoc in Hk. exact Hk.
    + rewrite Hr. eauto.
Qed.

Lemma rmatch_sound r : forall k st res,
  rmatch db r k st = Some res -> exists st', run db r st st' /\ k st' = Some res.
Proof.
  induction r; intros k st res H; simpl in H.
  - eexists; split; [constructor|auto].
  - unfold sym in H. destruct st as [b [|x t] g]; simpl in H; [discriminate|].
    destruct (cls_test db c x) eqn:Hc; [|discriminate].
    eexists; split; [constructor; eauto|auto].
  - apply IHr1 in H. destruct H as (st1 & H1 & H).
    apply IHr2 in H. destruct H as (st2 & H2 & H).
    eexists; split; [econstructor; eauto|auto].
  - destruct (rmatch db r1 k st) eqn:H1.
    + inversion H; subst. apply IHr1 in H1. destruct H1 as (st' & ? & ?).
      eexists; split; [apply run_alt_l; eauto|auto].
    + apply IHr2 in H. destruct H as (st' & ? & ?).
      eexists; split; [apply run_alt_r; eauto|auto].
  - destruct (sym db c k st) eqn:H1.
    + inversion H; subst. unfold sym in H1.
      destruct st as [b [|x t] g]; simpl in H1; [discriminate|].
      destruct (cls_test db c x) eqn:Hc; [|discriminate].
      eexists; split; [apply run_opt_some; eauto|auto].
    + eexists; split; [apply run_opt_none|auto].
  - destruct st as [b a g]; simpl in H. apply rep_cls_sound in H.
    destruct H as (s & t & -> & Hs & Hlo & Hk).
    eexists; split; [apply run_rep; eauto|auto].
  - destruct (at_boundary db st) eqn:Hb; [|discriminate].
    eexists; split; [constructor; auto|auto].
  - destruct st as [[|] a g]; simpl in H; [|discriminate].
    eexists; split; [constructor|auto].
  - apply IHr in H. destruct H as (st' & ? & ?).
    eexists; split; [apply run_grp; eauto|auto].
Qed.

Lemma rmatch_complete r st st' :
  run db r st st' ->
  forall k res, k st' = Some res -> exists res', rmatch db r k st = Some res'.
Proof.
  induction 1; intros k res Hk; simpl.
  - eauto.
  - unfold sym; simpl. rewrite H. eauto.
  - destruct (IHrun2 _ _ Hk) as [res2 H2]. eapply IHrun1; eauto.
  - destruct (IHrun _ _ Hk) as [res1 H1]. rewrite H1. eauto.
  - destruct (rmatch db r1 k st); eauto.
  - unfold sym; simpl. rewrite H, Hk. eauto.
  - destruct (sym db c k st); eauto.
  - eapply rep_cls_complete; eauto.
  - rewrite H. eauto.
  - eauto.
  - eapply IHrun. exact Hk.
Qed.

Lemma run_split r st st' :
  run db r st st' ->
  exists s, ahead st = s ++ ahead st' /\ behind st' = rev s ++ behind st.
Proof.
  induction 1; simpl.
  - exists []. auto.
  - exists [x]. auto.
  - destruct IHrun1 as (s1 & E1 & B1), IHrun2 as (s2 & E2 & B2).
    exists (s1 ++ s2). rewrite E1, E2, B2, B1, rev_app_distr, !app_assoc. auto.
  - auto.
  - auto.
  - exists [x]. auto.
  - exists []. auto.
  - exists s. auto.
  - exists []. auto.
  - exists []. auto.
  - auto.
Qed.

Lemma firstn_length_app (s t : ustring) :
  firstn (length (s ++ t) - length t) (s ++ t) = s.
Proof.
  rewrite length_app, Nat.add_sub. rewrite firstn_app, Nat.sub_diag, firstn_all.
  simpl. apply app_nil_r.
Qed.

Lemma attempt_sound r must b a h :
  attempt db r must b a = Some h ->
  exists st', run db r (MState b a []) st' /\
              a = hit_text h ++ ahead st' /\
              behind st' = rev (hit_text h) ++ b /\
              hit_groups h = caps st' /\
              (must = true -> hit_text h <> []).
Proof.
  unfold attempt. intros H.
  destruct (rmatch db r (accept must (length a)) (MState b a [])) as [st'|] eqn:Hm;
    [|discriminate].
  inversion H; subst; clear H. apply rmatch_sound in Hm.
  destruct Hm as (st1 & Hrun & Hacc). unfold accept in Hacc.
  destruct (must && (length (ahead st1) =? length a)) eqn:Hc; [discriminate|].
  inversion Hacc; subst; clear Hacc.
  destruct (run_split _ _ _ Hrun) as (s & E & B). simpl in E, B. subst a. simpl.
  rewrite firstn_length_app. exists st'. repeat split; auto.
  intros ->. simpl in Hc. apply Nat.eqb_neq in Hc. intros ->. simpl in Hc. lia.
Qed.

Lemma attempt_complete r b a st' :
  run db r (MState b a []) st' -> exists h, attempt db r false b a = Some h.
Proof.
  intros H. unfold attempt.
  destruct (rmatch_complete r _ _ H (accept false (length a)) st' eq_refl) as [res ->].
  eauto.
Qed.

Lemma attempt_prefix r must b a h :
  attempt db r must b a = Some h -> a = hit_text h ++ skipn (hit_len h) a.
Proof.
  intros H. destruct (attempt_sound _ _ _ _ _ H) as (st' & _ & E & _).
  unfold hit_len. rewrite E at 2. rewrite skipn_app, skipn_all, Nat.sub_diag.
  simpl. exact E.
Qed.

(** *** [re.search] *)

Lemma search_from_sound r : forall a b h,
  search_from db r b a = Some h ->
  exists pre rest, a = pre ++ rest /\ attempt db r false (rev pre ++ b) rest = Some h.
Proof.
  induction a as [|c t IH]; intros b h H; simpl in H.
  - destruct (attempt db r false b []) eqn:Ha; [|discriminate].
    inversion H; subst. exists [], []. auto.
  - destruct (attempt db r false b (c :: t)) eqn:Ha.
    + inversion H; subst. exists [], (c :: t). auto.
    + apply IH in H. destruct H as (pre & rest & -> & H).
      exists (c :: pre), rest. simpl. rewrite <- app_assoc. auto.
Qed.

Lemma search_from_complete r : forall pre b rest h,
  attempt db r false (rev pre ++ b) rest = Some h ->
  exists h', search_from db r b (pre ++ rest) = Some h'.
Proof.
  induction pre as [|c pre IH]; intros b rest h H; simpl in *.
  - destruct rest; simpl; rewrite H; eauto.
  - destruct (attempt db r false b (c :: pre ++ rest)); eauto.
    rewrite <- app_assoc in H. eapply IH; eauto.
Qed.

(** *** The scan of [re.findall] and [re.sub] *)

Lemma pieces_found r : forall a skip b h,
  In (Found h) (pieces db r skip b a) ->
  exists pre rest must,
    a = pre ++ rest /\ attempt db r must (rev pre ++ b) rest = Some h.
Proof.
  assert (Hcons : forall c t b h,
            (exists pre rest must, t = pre ++ rest /\
               attempt db r must (rev pre ++ c :: b) rest = Some h) ->
            exists pre rest must, c :: t = pre ++ rest /\
               attempt db r must (rev pre ++ b) rest = Some h).
  { intros c t b h (pre & rest & must & -> & H).
    exists (c :: pre), rest, must. simpl. rewrite <- app_assoc. auto. }
  induction a as [|c t IH]; intros skip b h H.
  - destruct skip; simpl in H; [|contradiction].
    destruct (attempt db r false b []) as [h0|] eqn:Ha; [|contradiction].
    destruct H as [H|H].
    + inversion H; subst. exists [], [], false. auto.
    + destruct (hit_len h0); [|contradiction].
      destruct (attempt db r true b []) as [h1|] eqn:Hb; [|contradiction].
      destruct H as [H|[]]. inversion H; subst. exists [], [], true. auto.
  - destruct skip; simpl in H; [|apply Hcons; eauto].
    destruct (attempt db r false b (c :: t)) as [h0|] eqn:Ha.
    + destruct H as [H|H]; [inversion H; subst; exists [], (c :: t), false; auto|].
      destruct (hit_len h0); [|apply Hcons; eauto].
      destruct (attempt db r true b (c :: t)) as [h1|] eqn:Hb.
      * destruct H as [H|H]; [inversion H; subst; exists [], (c :: t), true; auto|].
        apply Hcons; eauto.
      * destruct H as [H|H]; [discriminate|]. apply Hcons; eauto.
    + destruct H as [H|H]; [discriminate|]. apply Hcons; eauto.
Qed.

Lemma pieces_skip r : forall a n b,
  n <= length a ->
  pieces db r n b a = pieces db r 0 (rev (firstn n a) ++ b) (skipn n a).
Proof.
  induction a as [|c t IH]; intros n b Hn; simpl in Hn.
  - assert (n = 0) by lia. subst. reflexivity.
  - destruct n as [|n]; [reflexivity|].
    change (pieces db r (S n) b (c :: t)) with (pieces db r n (c :: b) t).
    rewrite IH by lia. simpl. rewrite <- app_assoc. reflexivity.
Qed.

Lemma pieces_none r b a :
  attempt db r false b a = None ->
  pieces db r 0 b a =
  match a with
  | c :: t => Keep c :: pieces db r 0 (c :: b) t
  | [] => []
  end.
Proof. intros H. destruct a; simpl; rewrite H; reflexivity. Qed.

Lemma pieces_hit r b a h :
  attempt db r false b a = Some h -> hit_text h <> [] ->
  pieces db r 0 b a =
  Found h :: pieces db r 0 (rev (hit_text h) ++ b) (skipn (hit_len h) a).
Proof.
  intros H Hne. pose proof (attempt_prefix _ _ _ _ _ H) as E.
  assert (Hl : hit_len h <= length a).
  { rewrite E, length_app. unfold hit_len. lia. }
  assert (Hf : firstn (hit_len h) a = hit_text h).
  { rewrite E. unfold hit_len. rewrite firstn_app, Nat.sub_diag, firstn_all.
    simpl. apply app_nil_r. }
  destruct (hit_len h) as [|n] eqn:Hn.
  { unfold hit_len in Hn. destruct (hit_text h); [congruence|discriminate]. }
  rewrite <- Hf. rewrite <- (pieces_skip r a (S n) b) by lia.
  destruct a as [|c t]; [simpl in Hl; lia|].
  simpl. rewrite H, Hn. reflexivity.
Qed.

(** Induction along the scan, for a pattern that never matches the empty
    string. *)
Lemma scan_ind r (P : ustring -> ustring -> list piece -> Prop) :
  (forall b a h, attempt db r false b a = Some h -> hit_text h <> []) ->
  (forall b, attempt db r false b [] = None -> P b [] []) ->
  (forall b c t,
      attempt db r false b (c :: t) = None ->
      P (c :: b) t (pieces db r 0 (c :: b) t) ->
      P b (c :: t) (Keep c :: pieces db r 0 (c :: b) t)) ->
  (forall b a h,
      attempt db r false b a = Some h -> hit_text h <> [] ->
      P (rev (hit_text h) ++ b) (skipn (hit_len h) a)
        (pieces db r 0 (rev (hit_text h) ++ b) (skipn (hit_len h) a)) ->
      P b a (Found h :: pieces db r 0 (rev (hit_text h) ++ b) (skipn (hit_len h) a))) ->
  forall a b, P b a (pieces db r 0 b a).
Proof.
  intros Hne Hnil Hkeep Hhit a.
  remember (length a) as n eqn:Hn. revert a Hn.
  induction n as [n IH] using lt_wf_ind. intros a Hn b.
  destruct (attempt db r false b a) as [h|] eqn:Ha.
  - pose proof (Hne _ _ _ Ha) as Hh.
    rewrite (pieces_hit r b a h Ha Hh). apply Hhit; auto.
    eapply IH; [|reflexivity]. subst n. rewrite length_skipn.
    pose proof (attempt_prefix _ _ _ _ _ Ha) as E.
    assert (0 < hit_len h) by (unfold hit_len; destruct (hit_text h); simpl; [congruence|lia]).
    assert (hit_len h <= length a).
    { rewrite E, length_app. unfold hit_len. lia. }
    lia.
  - rewrite (pieces_none r b a Ha). destruct a as [|c t]; [apply Hnil; exact Ha|].
    apply Hkeep; auto. eapply IH; [|reflexivity]. subst n. simpl. lia.
Qed.

(** A match that no earlier match runs over is found by the scan. *)
Lemma pieces_complete r :
  (forall b a h, attempt db r false b a = Some h -> hit_text h <> []) ->
  forall a b pre rest h,
    a = pre ++ rest ->
    attempt db r false (rev pre ++ b) rest = Some h ->
    (forall p1 p2 h',
        pre = p1 ++ p2 -> p2 <> [] ->
        attempt db r false (rev p1 ++ b) (p2 ++ rest) = Some h' ->
        hit_len h' <= length p2) ->
    In (Found h) (pieces db r 0 b a).
Proof.
  intros Hne.
  apply (scan_ind r
    (fun b a ps =>
       forall pre rest h,
         a = pre ++ rest ->
         attempt db r false (rev pre ++ b) rest = Some h ->
         (forall p1 p2 h',
             pre = p1 ++ p2 -> p2 <> [] ->
             attempt db r false (rev p1 ++ b) (p2 ++ rest) = Some h' ->
             hit_len h' <= length p2) ->
         In (Found h) ps)); [exact Hne| | |].
  - intros b Hn pre rest h E Ha _.
    symmetry in E. apply app_eq_nil in E. destruct E as [-> ->].
    simpl in Ha. congruence.
  - intros b c t Hn IH pre rest h E Ha Hov. destruct pre as [|x pre].
    + simpl in E, Ha. subst rest. congruence.
    + simpl in E. inversion E; subst x t. right.
      apply (IH pre rest h eq_refl).
      * simpl in Ha. rewrite <- app_assoc in Ha. exact Ha.
      * intros p1 p2 h' -> Hp2 Hh'. apply (Hov (c :: p1) p2 h'); auto.
        simpl. rewrite <- app_assoc. exact Hh'.
  - intros b a h0 H0 Hh0 IH pre rest h E Ha Hov. destruct pre as [|x pre].
    + simpl in E, Ha. subst rest. left. congruence.
    + right. pose proof (Hov [] (x :: pre) h0 eq_refl) as Hl.
      change (rev [] ++ b) with b in Hl. rewrite <- E in Hl.
      specialize (Hl ltac:(discriminate) H0).
      pose proof (attempt_prefix _ _ _ _ _ H0) as Ep.
      rewrite E in Ep at 1.
      apply app_eq_app in Ep. destruct Ep as (k & [[E1 E2]|[E1 E2]]).
      * apply (IH k rest h).
        -- exact E2.
        -- rewrite E1, rev_app_distr, <- app_assoc in Ha. exact Ha.
        -- intros p1 p2 h' -> Hp2 Hh'.
           apply (Hov (hit_text h0 ++ p1) p2 h'); auto.
           ++ rewrite E1, app_assoc. reflexivity.
           ++ rewrite rev_app_distr, <- app_assoc. exact Hh'.
      * assert (k = []).
        { apply (f_equal (@length cp)) in E1. rewrite length_app in E1.
          unfold hit_len in Hl. destruct k; [reflexivity|simpl in *; lia]. }
        subst k. rewrite app_nil_r in E1. simpl in E2.
        apply (IH [] rest h).
        -- symmetry. exact E2.
        -- rewrite E1. exact Ha.
        -- intros p1 p2 h' Ep. symmetry in Ep. apply app_eq_nil in Ep.
           destruct Ep as [_ ->]. congruence.
Qed.

End EngineFacts.

(** ** Characters *)

Lemma permis_ascii c : permis c = true -> is_ascii c = true.
Proof. intros H. chars. Qed.

Lemma permis_not_space c : permis c = true -> is_space c = false.
Proof. intros H. chars. Qed.

(** ** The sanitizer *)

Lemma take_drop p s : s = take_while p s ++ drop_while p s.
Proof.
  induction s as [|c t IH]; simpl; [reflexivity|].
  destruct (p c); simpl; [f_equal; exact IH|reflexivity].
Qed.

Lemma drop_while_head p s : head_is p (drop_while p s) = false.
Proof.
  induction s as [|c t IH]; simpl; [reflexivity|].
  destruct (p c) eqn:E; simpl; [exact IH|exact E].
Qed.

Lemma lstrip_drop s : lstrip s = drop_while is_space s.
Proof.
  induction s as [|c t IH]; simpl; [reflexivity|].
  destruct (is_space c); [exact IH|reflexivity].
Qed.

Lemma lstrip_id s : head_is is_space s = false -> lstrip s = s.
Proof. destruct s as [|c t]; simpl; [reflexivity|]. intros ->. reflexivity. Qed.

Lemma lstrip_suffix s : exists w, s = w ++ lstrip s.
Proof. exists (take_while is_space s). rewrite lstrip_drop. apply take_drop. Qed.

Lemma rstrip_prefix s : exists w, s = rstrip s ++ w.
Proof.
  unfold rstrip. destruct (lstrip_suffix (rev s)) as [w E].
  exists (rev w). rewrite <- rev_app_distr, <- E, rev_involutive. reflexivity.
Qed.

Lemma strip_id s :
  head_is is_space s = false -> head_is is_space (rev s) = false -> strip s = s.
Proof.
  intros H1 H2. unfold strip, rstrip. rewrite (lstrip_id s H1), (lstrip_id _ H2).
  apply rev_involutive.
Qed.

Lemma espaces_simples_app s t :
  espaces_simples (s ++ t) = true ->
  espaces_simples s = true /\ espaces_simples t = true.
Proof.
  induction s as [|c s IH]; simpl; [auto|].
  intros H. apply andb_prop in H. destruct H as [H1 H2].
  destruct (IH H2) as [Hs Ht]. split; [|exact Ht].
  rewrite Hs, andb_true_r. destruct (is_space c); [|reflexivity].
  apply andb_prop in H1. destruct H1 as [-> H1]. simpl.
  destruct s; [reflexivity|exact H1].
Qed.

Lemma espaces_simples_in s c :
  espaces_simples s = true -> In c s -> is_space c = true -> c = SPACE.
Proof.
  induction s as [|x s IH]; simpl; [contradiction|].
  intros H [->|Hin] Hc.
  - rewrite Hc in H. apply andb_prop in H. destruct H as [H _].
    apply andb_prop in H. destruct H as [H _]. apply N.eqb_eq. exact H.
  - apply andb_prop in H. destruct H. auto.
Qed.

Lemma head_prefix p (s w : ustring) :
  head_is p (s ++ w) = false -> head_is p s = false.
Proof. destruct s; simpl; auto. Qed.

Lemma strip_ends s :
  head_is is_space (strip s) = false /\ head_is is_space (rev (strip s)) = false.
Proof.
  unfold strip. split.
  - destruct (rstrip_prefix (lstrip s)) as [w E].
    apply head_prefix with (w := w). rewrite <- E, lstrip_drop.
    apply drop_while_head.
  - unfold rstrip. rewrite rev_involutive, lstrip_drop. apply drop_while_head.
Qed.

Lemma strip_infix s : exists w1 w2, s = w1 ++ strip s ++ w2.
Proof.
  unfold strip. destruct (lstrip_suffix s) as [w1 E1].
  destruct (rstrip_prefix (lstrip s)) as [w2 E2].
  exists w1, w2. rewrite <- E2. exact E1.
Qed.

Lemma strip_espaces_simples s :
  espaces_simples s = true -> espaces_simples (strip s) = true.
Proof.
  intros H. destruct (strip_infix s) as (w1 & w2 & E). rewrite E in H.
  apply espaces_simples_app in H. destruct H as [_ H].
  apply espaces_simples_app in H. tauto.
Qed.

Lemma strip_incl s c : In c (strip s) -> In c s.
Proof.
  intros H. destruct (strip_infix s) as (w1 & w2 & E). rewrite E.
  apply in_or_app. right. apply in_or_app. left. exact H.
Qed.

Section SanitizerFacts.
Variable db : UnicodeData.

Lemma accept_false n st : accept false n st = Some st.
Proof. reflexivity. Qed.

(** With nothing after it in the pattern, a repetition takes the longest run. *)
Lemma rep_cls_accept p n0 g : forall a lo b,
  rep_cls p (accept false n0) lo b a g =
  if lo <=? length (take_while p a)
  then Some (MState (rev (take_while p a) ++ b) (drop_while p a) g)
  else None.
Proof.
  induction a as [|c t IH]; intros lo b; simpl.
  - destruct lo; reflexivity.
  - destruct (p c) eqn:Hp.
    + rewrite IH. simpl length.
      destruct lo as [|lo]; simpl pred.
      * simpl. rewrite <- app_assoc. reflexivity.
      * change (S lo <=? S (length (take_while p t)))
          with (lo <=? length (take_while p t)).
        destruct (lo <=? length (take_while p t)); [|reflexivity].
        simpl. rewrite <- app_assoc. reflexivity.
    + destruct lo; reflexivity.
Qed.

Lemma firstn_take_while p (a : ustring) :
  firstn (length a - length (drop_while p a)) a = take_while p a.
Proof.
  rewrite (take_drop p a) at 1 3. apply firstn_length_app.
Qed.

Lemma skipn_take_while p (a : ustring) :
  skipn (length (take_while p a)) a = drop_while p a.
Proof.
  rewrite (take_drop p a) at 2. rewrite skipn_app, skipn_all, Nat.sub_diag.
  reflexivity.
Qed.

Lemma attempt_espaces b a :
  attempt db espaces false b a =
  match take_while is_space a with
  | [] => None
  | w => Some (Hit w [])
  end.
Proof.
  unfold attempt, espaces. simpl rmatch. rewrite rep_cls_accept.
  change (cls_test db Space) with is_space.
  destruct (take_while is_space a) as [|c w] eqn:E; simpl; [reflexivity|].
  rewrite firstn_take_while, E. reflexivity.
Qed.

Lemma attempt_sym c b a :
  attempt db (Sym c) false b a =
  match a with
  | x :: _ => if cls_test db c x then Some (Hit [x] []) else None
  | [] => None
  end.
Proof.
  unfold attempt. cbn [rmatch]. unfold sym.
  destruct a as [|x t]; cbn [ahead behind caps]; [reflexivity|].
  destruct (cls_test db c x); [|reflexivity].
  rewrite accept_false. cbn [ahead caps length].
  replace (S (length t) - length t) with 1 by lia. reflexivity.
Qed.

Lemma re_sub_pieces r repl s :
  re_sub db r repl s = flat_map (subst_piece repl) (pieces db r 0 [] s).
Proof. reflexivity. Qed.

(** Replacing one class of characters is a character-wise map. *)
Lemma re_sub_sym c repl s :
  re_sub db (Sym c) repl s =
  flat_map (fun x => if cls_test db c x then repl else [x]) s.
Proof.
  rewrite re_sub_pieces.
  enough (H : forall b, flat_map (subst_piece repl) (pieces db (Sym c) 0 b s) =
                        flat_map (fun x => if cls_test db c x then repl else [x]) s)
    by apply H.
  induction s as [|x t IH]; intros b.
  - rewrite pieces_none by (rewrite attempt_sym; reflexivity). reflexivity.
  - cbn [flat_map]. destruct (cls_test db c x) eqn:Hx.
    + rewrite (pieces_hit db (Sym c) b (x :: t) (Hit [x] []))
        by (rewrite ?attempt_sym, ?Hx; simpl; congruence).
      cbn [flat_map hit_len hit_text length skipn rev app subst_piece]. rewrite IH. reflexivity.
    + rewrite pieces_none by (rewrite attempt_sym, Hx; reflexivity).
      cbn [flat_map app subst_piece]. rewrite IH. reflexivity.
Qed.

(** Collapsing the runs of whitespace. *)
Lemma collapse_spec : forall a b,
  let out := flat_map (subst_piece (u " ")) (pieces db espaces 0 b a) in
  head_is is_space out = head_is is_space a /\
  espaces_simples out = true /\
  (forall c, In c out -> In c a \/ c = SPACE) /\
  (espaces_simples a = true -> out = a).
Proof.
  apply (scan_ind db espaces
    (fun b a ps =>
       let out := flat_map (subst_piece (u " ")) ps in
       head_is is_space out = head_is is_space a /\
       espaces_simples out = true /\
       (forall c, In c out -> In c a \/ c = SPACE) /\
       (espaces_simples a = true -> out = a))).
  - intros b a h H. rewrite attempt_espaces in H.
    destruct (take_while is_space a); [discriminate|].
    inversion H; subst. simpl. congruence.
  - intros b _. simpl. tauto.
  - intros b c t Hn (IH1 & IH2 & IH3 & IH4). rewrite attempt_espaces in Hn.
    simpl in Hn. destruct (is_space c) eqn:Hc; [discriminate|]. simpl.
    rewrite Hc. repeat split; auto.
    + intros x [->|Hx]; [auto|]. destruct (IH3 x Hx); auto.
    + intros H. f_equal. auto.
  - intros b a h Ha _ (IH1 & IH2 & IH3 & IH4). rewrite attempt_espaces in Ha.
    destruct a as [|c t]; [discriminate|]. simpl in Ha.
    destruct (is_space c) eqn:Hc; [|discriminate].
    inversion Ha; subst h; clear Ha. unfold hit_len in *. simpl hit_text in *.
    change (skipn (length (c :: take_while is_space t)) (c :: t))
      with (skipn (length (take_while is_space t)) t) in *.
    rewrite skipn_take_while in *.
    cbn [flat_map subst_piece]. change (u " ") with [SPACE] in *.
    remember (flat_map (subst_piece [SPACE])
                (pieces db espaces 0 (rev (c :: take_while is_space t) ++ b)
                   (drop_while is_space t))) as out eqn:Eo.
    clear Eo. rewrite drop_while_head in IH1.
    cbn [app head_is espaces_simples]. rewrite Hc, IH1, IH2.
    repeat split; auto.
    + intros x [<-|Hx]; [auto|]. destruct (IH3 x Hx) as [Hin|]; auto.
      left. right. rewrite (take_drop is_space t). apply in_or_app. auto.
    + intros H. apply andb_prop in H. destruct H as [H Ht].
      apply andb_prop in H. destruct H as [Hsp Hh].
      apply N.eqb_eq in Hsp. apply negb_true_iff in Hh. subst c.
      assert (E : drop_while is_space t = t).
      { rewrite <- lstrip_drop. apply lstrip_id. exact Hh. }
      rewrite E in *. f_equal. auto.
Qed.

Lemma normaliser_espaces_spec s :
  let out := normaliser_espaces db s in
  espaces_simples out = true /\
  head_is is_space out = false /\ head_is is_space (rev out) = false /\
  (forall c, In c out -> In c s \/ c = SPACE).
Proof.
  unfold normaliser_espaces. rewrite re_sub_pieces.
  destruct (collapse_spec s []) as (_ & H2 & H3 & _).
  repeat split.
  - apply strip_espaces_simples. exact H2.
  - apply strip_ends.
  - apply strip_ends.
  - intros c Hc. apply strip_incl in Hc. auto.
Qed.

Lemma normaliser_espaces_id s :
  espaces_simples s = true -> head_is is_space s = false ->
  head_is is_space (rev s) = false -> normaliser_espaces db s = s.
Proof.
  intros H1 H2 H3. unfold normaliser_espaces. rewrite re_sub_pieces.
  destruct (collapse_spec s []) as (_ & _ & _ & H4). rewrite (H4 H1).
  apply strip_id; auto.
Qed.

End SanitizerFacts.

Section SanitizerTheorems.
Variable db : UnicodeData.

Lemma interdit_false x :
  cls_test db caractere_interdit x = false ->
  permis x = true \/ is_space x = true.
Proof.
  unfold caractere_interdit. cbn [cls_test existsb item_test]. intros H.
  destruct (is_space x) eqn:Hs; [auto|left]. revert H. clear Hs. chars.
Qed.

Lemma interdit_permis x :
  permis x = true \/ x = SPACE -> cls_test db caractere_interdit x = false.
Proof.
  unfold caractere_interdit. cbn [cls_test existsb item_test].
  intros [H| ->]; [|reflexivity].
  destruct (is_space x) eqn:Hs;
    [rewrite !orb_true_r; reflexivity|]. revert H. clear Hs. chars.
Qed.

Lemma sanitized_chars s c :
  sanitized s = true -> In c s -> permis c = true \/ c = SPACE.
Proof.
  unfold sanitized. intros H Hin. repeat (apply andb_prop in H; destruct H as [H ?]).
  rewrite forallb_forall in H. apply H in Hin. apply orb_prop in Hin.
  destruct Hin as [|Hc]; [auto|]. apply N.eqb_eq in Hc. auto.
Qed.

Lemma sanitized_ascii s : sanitized s = true -> forallb is_ascii s = true.
Proof.
  intros H. apply forallb_forall. intros c Hc.
  destruct (sanitized_chars s c H Hc) as [Hp| ->];
    [apply permis_ascii; exact Hp|reflexivity].
Qed.

Lemma filter_all {A} (p : A -> bool) l :
  (forall x, In x l -> p x = true) -> filter p l = l.
Proof.
  induction l as [|x l IH]; simpl; intros H; [reflexivity|].
  rewrite (H x) by auto. f_equal. auto.
Qed.

Lemma flat_map_keep (p : cp -> bool) repl (l : ustring) :
  (forall x, In x l -> p x = false) ->
  flat_map (fun x => if p x then repl else [x]) l = l.
Proof.
  induction l as [|x l IH]; simpl; intros H; [reflexivity|].
  rewrite (H x) by auto. simpl. f_equal. auto.
Qed.

(** What the sanitizer returns is a SanitizedText. *)
Lemma sanitize_sanitized x :
  sanitized (supprimer_accents_et_caracteres_speciaux db x) = true.
Proof.
  unfold supprimer_accents_et_caracteres_speciaux.
  set (sa := filter _ _). rewrite re_sub_sym.
  set (s1 := flat_map _ sa).
  destruct (normaliser_espaces_spec db s1) as (H1 & H2 & H3 & H4).
  unfold sanitized. rewrite H1, H2, H3. simpl. rewrite !andb_true_r.
  apply forallb_forall. intros c Hc.
  destruct (H4 c Hc) as [Hin| ->]; [|reflexivity].
  unfold s1 in Hin. apply in_flat_map in Hin. destruct Hin as (y & _ & Hy).
  destruct (cls_test db caractere_interdit y) eqn:Ht.
  - destruct Hy as [<-|[]]. reflexivity.
  - destruct Hy as [->|[]]. destruct (interdit_false _ Ht) as [Hp|Hs].
    + rewrite Hp. reflexivity.
    + rewrite (espaces_simples_in _ c H1 Hc Hs). reflexivity.
Qed.

(** A SanitizedText goes through the sanitizer unchanged. *)
Lemma sanitize_fixed y :
  sanitized y = true -> supprimer_accents_et_caracteres_speciaux db y = y.
Proof.
  intros H. unfold supprimer_accents_et_caracteres_speciaux, normalize_NFD.
  pose proof (sanitized_ascii y H) as Ha. rewrite Ha.
  rewrite filter_all.
  2:{ intros c Hc. rewrite forallb_forall in Ha. unfold category_Mn.
      rewrite (Ha c Hc). reflexivity. }
  rewrite re_sub_sym, flat_map_keep.
  2:{ intros c Hc. apply interdit_permis. eapply sanitized_chars; eauto. }
  unfold sanitized in H. repeat (apply andb_prop in H; destruct H as [H ?]).
  apply normaliser_espaces_id; auto; apply negb_true_iff; auto.
Qed.

End SanitizerTheorems.

(** ** The loops of the quantity extractor *)

Section ExtractorLoops.
Variable db : UnicodeData.

Lemma ajouter_normalises_eq ms gvs :
  ajouter_normalises db ms gvs = gvs ++ map (normaliser_decimale db) ms.
Proof.
  unfold ajouter_normalises. revert gvs.
  induction ms as [|m ms IH]; intros gvs; simpl.
  - rewrite app_nil_r. reflexivity.
  - rewrite IH, <- app_assoc. reflexivity.
Qed.

Lemma ajouter_eq ms gvs : ajouter ms gvs = gvs ++ ms.
Proof.
  unfold ajouter. revert gvs. induction ms as [|m ms IH]; intros gvs; simpl.
  - rewrite app_nil_r. reflexivity.
  - rewrite IH, <- app_assoc. reflexivity.
Qed.

Lemma ajouter_groupes_eq r s gvs :
  ajouter_groupes (re_findall_groups db 2 r s) gvs =
  Some (gvs ++ map jeton4 (hits db r s)).
Proof.
  unfold re_findall_groups, ajouter_groupes. revert gvs.
  induction (hits db r s) as [|h hs IH]; intros gvs; simpl.
  - rewrite app_nil_r. reflexivity.
  - rewrite IH, <- app_assoc. reflexivity.
Qed.

Lemma regles_1_a_5_eq T :
  regles_1_a_5 db T =
  Some (map (normaliser_decimale db) (re_findall db pattern1 T) ++
        map (normaliser_decimale db) (re_findall db pattern2 T) ++
        re_findall db pattern3 T ++
        map jeton4 (hits db pattern4 T) ++
        re_findall db pattern5 T).
Proof.
  unfold regles_1_a_5.
  rewrite !ajouter_normalises_eq, ajouter_eq, ajouter_groupes_eq.
  simpl. rewrite <- !app_assoc. reflexivity.
Qed.

Lemma ajouter_fractions_snoc ms m gvs :
  ajouter_fractions (ms ++ [m]) gvs =
  let R := ajouter_fractions ms gvs in
  if existsb (fun gv => is_infix m gv) R then R else R ++ [m].
Proof. unfold ajouter_fractions. rewrite fold_left_app. reflexivity. Qed.

Lemma ajouter_fractions_prefix ms : forall gvs,
  exists kept, ajouter_fractions ms gvs = gvs ++ kept /\ incl kept ms.
Proof.
  induction ms as [|m ms IH]; intros gvs.
  - exists []. rewrite app_nil_r. split; [reflexivity|apply incl_nil_l].
  - unfold ajouter_fractions in *. simpl.
    destruct (existsb (fun gv => is_infix m gv) gvs).
    + destruct (IH gvs) as (kept & E & Hi). exists kept. split; [exact E|].
      apply incl_tl. exact Hi.
    + destruct (IH (gvs ++ [m])) as (kept & E & Hi). exists (m :: kept).
      rewrite E, <- app_assoc. split; [reflexivity|].
      apply incl_cons; [left; reflexivity|apply incl_tl; exact Hi].
Qed.

Lemma dedoublonner_snoc l x :
  dedoublonner (l ++ [x]) =
  if existsb (ustring_eqb x) (dedoublonner l) then dedoublonner l
  else dedoublonner l ++ [x].
Proof. unfold dedoublonner. rewrite fold_left_app. reflexivity. Qed.

End ExtractorLoops.

Lemma ustring_eqb_eq a b : ustring_eqb a b = true <-> a = b.
Proof.
  unfold ustring_eqb. destruct (list_eq_dec N.eq_dec a b); split;
    intros; congruence.
Qed.

Lemma existsb_eqb x l : existsb (ustring_eqb x) l = true <-> In x l.
Proof.
  rewrite existsb_exists. split.
  - intros (y & Hy & E). apply ustring_eqb_eq in E. subst. exact Hy.
  - intros H. exists x. split; [exact H|apply ustring_eqb_eq; reflexivity].
Qed.

Lemma is_prefix_spec p s : is_prefix p s = true <-> exists q, s = p ++ q.
Proof.
  revert s. induction p as [|x p IH]; intros s; simpl.
  - split; [intros _; exists s; reflexivity|reflexivity].
  - destruct s as [|y s].
    + split; [discriminate|intros (q & E); discriminate].
    + rewrite andb_true_iff, N.eqb_eq, IH. split.
      * intros (-> & q & ->). exists q. reflexivity.
      * intros (q & E). inversion E; subst. split; [reflexivity|eauto].
Qed.

(** [needle in hay]: [needle] occurs in [hay] as a run of consecutive
    characters. *)
Lemma is_infix_spec needle hay :
  is_infix needle hay = true <-> exists p q, hay = p ++ needle ++ q.
Proof.
  induction hay as [|y hay IH]; simpl.
  - rewrite orb_false_r, is_prefix_spec. split.
    + intros (q & E). exists [], q. exact E.
    + intros (p & q & E). destruct p; simpl in E; [eauto|discriminate].
  - rewrite orb_true_iff, is_prefix_spec, IH. split.
    + intros [(q & E)|(p & q & E)].
      * exists [], q. exact E.
      * exists (y :: p), q. simpl. rewrite E. reflexivity.
    + intros (p & q & E). destruct p as [|z p]; simpl in E.
      * left. eauto.
      * right. inversion E; subst. eauto.
Qed.

(** ** Deduplication *)

Lemma first_index_in y l l' :
  In y l -> first_index y (l ++ l') = first_index y l /\ first_index y l < length l.
Proof.
  induction l as [|x l IH]; simpl; [contradiction|].
  intros H. destruct (ustring_eqb y x) eqn:E; [split; [reflexivity|lia]|].
  destruct H as [->|H].
  - rewrite (proj2 (ustring_eqb_eq y y) eq_refl) in E. discriminate.
  - destruct (IH H). split; [congruence|lia].
Qed.

Lemma first_index_new x l : ~ In x l -> first_index x (l ++ [x]) = length l.
Proof.
  induction l as [|y l IH]; simpl; intros H.
  - rewrite (proj2 (ustring_eqb_eq x x) eq_refl). reflexivity.
  - destruct (ustring_eqb x y) eqn:E.
    + apply ustring_eqb_eq in E. subst. tauto.
    + rewrite IH by tauto. reflexivity.
Qed.

Lemma NoDup_snoc {A} (l : list A) x : NoDup l -> ~ In x l -> NoDup (l ++ [x]).
Proof.
  induction 1 as [|y l Hy Hl IH]; simpl; intros Hx.
  - constructor; [tauto|constructor].
  - constructor.
    + rewrite in_app_iff. simpl. intros [?|[?|[]]]; subst; tauto.
    + apply IH. tauto.
Qed.

Lemma sorted_snoc l z :
  StronglySorted lt l -> (forall y, In y l -> y < z) ->
  StronglySorted lt (l ++ [z]).
Proof.
  induction 1 as [|y l Hl IH Hy]; simpl; intros Hz.
  - constructor; constructor.
  - constructor; [apply IH; auto|].
    apply Forall_app. split; [exact Hy|]. constructor; [auto|constructor].
Qed.

Lemma dedoublonner_spec l :
  NoDup (dedoublonner l) /\
  (forall x, In x (dedoublonner l) <-> In x l) /\
  StronglySorted lt (map (fun x => first_index x l) (dedoublonner l)).
Proof.
  induction l as [|x l (Hnd & Hin & Hs)] using rev_ind.
  - simpl. repeat split; try tauto; constructor.
  - rewrite dedoublonner_snoc.
    destruct (existsb (ustring_eqb x) (dedoublonner l)) eqn:E.
    + apply existsb_eqb in E. repeat split; auto.
      * intros H. apply in_or_app. left. apply Hin. exact H.
      * rewrite in_app_iff. simpl. intros [H|[<-|[]]]; [apply Hin; exact H|exact E].
      * erewrite map_ext_in; [exact Hs|].
        intros y Hy. apply (first_index_in y l [x]). apply Hin. exact Hy.
    + assert (Hx : ~ In x l).
      { intros H. apply Hin in H. apply existsb_eqb in H. congruence. }
      repeat split.
      * apply NoDup_snoc; [exact Hnd|]. rewrite Hin. exact Hx.
      * rewrite !in_app_iff, Hin. tauto.
      * rewrite !in_app_iff, Hin. tauto.
      * rewrite map_app. simpl. rewrite (first_index_new x l Hx).
        erewrite map_ext_in.
        -- apply sorted_snoc; [exact Hs|].
           intros y Hy. apply in_map_iff in Hy. destruct Hy as (z & <- & Hz).
           apply (first_index_in z l []). apply Hin. exact Hz.
        -- intros y Hy. apply (first_index_in y l [x]). apply Hin. exact Hy.
Qed.

(** The loop of rule 6 keeps the fractions that [fractions_gardees]
    describes, and no others. *)
Lemma ajouter_fractions_gardees ms : forall R,
  exists kept,
    ajouter_fractions ms R = R ++ kept /\ fractions_gardees R ms kept.
Proof.
  induction ms as [|m ms IH]; intros R.
  - exists []. rewrite app_nil_r. split; [reflexivity|constructor].
  - unfold ajouter_fractions in *. cbn [fold_left].
    destruct (existsb (fun gv => is_infix m gv) R) eqn:E.
    + destruct (IH R) as (kept & E' & Hk). exists kept. split; [exact E'|].
      apply fg_saute; [|exact Hk].
      apply existsb_exists in E. destruct E as (gv & Hgv & Hi).
      exists gv. split; [exact Hgv|]. apply is_infix_spec. exact Hi.
    + destruct (IH (R ++ [m])) as (kept & E' & Hk). exists (m :: kept).
      rewrite E', <- app_assoc. split; [reflexivity|].
      apply fg_garde; [|exact Hk].
      intros gv Hgv Hi. apply is_infix_spec in Hi.
      assert (H : existsb (fun gv => is_infix m gv) R = true)
        by (apply existsb_exists; eauto).
      congruence.
Qed.

Lemma fractions_gardees_unique R ms k1 :
  fractions_gardees R ms k1 ->
  forall k2, fractions_gardees R ms k2 -> k2 = k1.
Proof.
  induction 1 as [R|R m ms kept Hn _ IH|R m ms kept Hc _ IH];
    intros k2 H2; inversion H2; subst.
  - reflexivity.
  - f_equal. apply IH. assumption.
  - match goal with
    | H : exists gv, In gv R /\ Infix m gv |- _ =>
        destruct H as (gv & Hgv & Hi); destruct (Hn gv Hgv Hi)
    end.
  - destruct Hc as (gv & Hgv & Hi).
    match goal with
    | H : forall gv, In gv R -> ~ Infix m gv |- _ => destruct (H gv Hgv Hi)
    end.
  - apply IH. assumption.
Qed.

Lemma fractions_gardees_incl R ms kept :
  fractions_gardees R ms kept -> incl kept ms.
Proof.
  induction 1 as [R|R m ms kept _ _ IH|R m ms kept _ _ IH].
  - apply incl_nil_l.
  - apply incl_cons; [left; reflexivity|apply incl_tl; exact IH].
  - apply incl_tl. exact IH.
Qed.

(** The running list and the result of the extractor, rule by rule. *)
Lemma extraction_structure (db : UnicodeData) (texte : ustring) :
  exists r6,
    incl r6 (re_findall db pattern6 (str_upper db texte)) /\
    grammages_volumes_bruts db texte =
      Some (map (normaliser_decimale db) (re_findall db pattern1 (str_upper db texte)) ++
            map (normaliser_decimale db) (re_findall db pattern2 (str_upper db texte)) ++
            re_findall db pattern3 (str_upper db texte) ++
            map jeton4 (hits db pattern4 (str_upper db texte)) ++
            re_findall db pattern5 (str_upper db texte) ++ r6) /\
    extraire_grammage_volume db texte =
      Some (dedoublonner
              (map (normaliser_decimale db) (re_findall db pattern1 (str_upper db texte)) ++
               map (normaliser_decimale db) (re_findall db pattern2 (str_upper db texte)) ++
               re_findall db pattern3 (str_upper db texte) ++
               map jeton4 (hits db pattern4 (str_upper db texte)) ++
               re_findall db pattern5 (str_upper db texte) ++ r6)).
Proof.
  unfold extraire_grammage_volume, grammages_volumes_bruts.
  rewrite regles_1_a_5_eq.
  destruct (ajouter_fractions_prefix (re_findall db pattern6 (str_upper db texte))
              (map (normaliser_decimale db) (re_findall db pattern1 (str_upper db texte)) ++
               map (normaliser_decimale db) (re_findall db pattern2 (str_upper db texte)) ++
               re_findall db pattern3 (str_upper db texte) ++
               map jeton4 (hits db pattern4 (str_upper db texte)) ++
               re_findall db pattern5 (str_upper db texte))) as (r6 & E & Hi).
  exists r6. split; [exact Hi|]. rewrite E, <- !app_assoc. auto.
Qed.

(** ** Reading a pattern backwards: inversion of [run] *)

Section Inversion.
Variable db : UnicodeData.

Lemma run_eps_inv st st' : run db Eps st st' -> st' = st.
Proof. inversion 1; reflexivity. Qed.

Lemma run_sym_inv c st st' :
  run db (Sym c) st st' ->
  exists x t, ahead st = x :: t /\ cls_test db c x = true /\
              st' = MState (x :: behind st) t (caps st).
Proof. inversion 1; subst; simpl; eauto. Qed.

Lemma run_seq_inv r1 r2 st st' :
  run db (Seq r1 r2) st st' -> exists m, run db r1 st m /\ run db r2 m st'.
Proof. inversion 1; subst; eauto. Qed.

Lemma run_alt_inv r1 r2 st st' :
  run db (Alt r1 r2) st st' -> run db r1 st st' \/ run db r2 st st'.
Proof. inversion 1; subst; auto. Qed.

Lemma run_opt_inv c st st' :
  run db (Opt c) st st' ->
  st' = st \/
  exists x t, ahead st = x :: t /\ cls_test db c x = true /\
              st' = MState (x :: behind st) t (caps st).
Proof. inversion 1; subst; simpl; [right; eauto|left; reflexivity]. Qed.

Lemma run_rep_inv lo c st st' :
  run db (Rep lo c) st st' ->
  exists s t, ahead st = s ++ t /\ lo <= length s /\
              forallb (cls_test db c) s = true /\
              st' = MState (rev s ++ behind st) t (caps st).
Proof. inversion 1; subst; simpl. exists s, t. auto. Qed.

Lemma run_bnd_inv st st' :
  run db Bnd st st' -> st' = st /\ at_boundary db st = true.
Proof. inversion 1; subst; auto. Qed.

Lemma run_bol_inv st st' :
  run db Bol st st' -> st' = st /\ behind st = [].
Proof. inversion 1; subst; auto. Qed.

Lemma run_grp_inv n r st st' :
  run db (Grp n r) st st' ->
  exists st1, run db r st st1 /\
              st' = MState (behind st1) (ahead st1) ((n, consumed st st1) :: caps st1).
Proof. inversion 1; subst; eauto. Qed.

End Inversion.

Section Patterns.
Variable db : UnicodeData.

Lemma run_escape_inv s : forall st st',
  run db (escape false s) st st' ->
  exists t, ahead st = s ++ t /\ st' = MState (rev s ++ behind st) t (caps st).
Proof.
  unfold escape, seqs.
  induction s as [|c s IH]; intros [b a g] st' H; cbn [map fold_right] in H.
  - apply run_eps_inv in H. subst st'. exists a. auto.
  - apply run_seq_inv in H. destruct H as (m & H1 & H2).
    apply run_sym_inv in H1. destruct H1 as (x & t & E & Hx & ->).
    apply IH in H2. destruct H2 as (t' & E' & ->).
    cbn [ahead behind caps cls_test] in *. apply N.eqb_eq in Hx. subst.
    exists t'. simpl. rewrite <- app_assoc. auto.
Qed.

Lemma run_escape s : forall b t g,
  run db (escape false s) (MState b (s ++ t) g) (MState (rev s ++ b) t g).
Proof.
  unfold escape, seqs. induction s as [|c s IH]; intros b t g; simpl.
  - constructor.
  - econstructor.
    + constructor. simpl. apply N.eqb_refl.
    + rewrite <- app_assoc. apply IH.
Qed.

Lemma run_escape_ci_inv s : forall st st',
  run db (escape true s) st st' ->
  exists w t, ahead st = w ++ t /\
              st' = MState (rev w ++ behind st) t (caps st) /\
              Forall2 (fun c x => caseless db c x = true) s w.
Proof.
  unfold escape, seqs.
  induction s as [|c s IH]; intros [b a g] st' H; cbn [map fold_right] in H.
  - apply run_eps_inv in H. subst st'. exists [], a. auto.
  - apply run_seq_inv in H. destruct H as (m & H1 & H2).
    apply run_sym_inv in H1. destruct H1 as (x & t & E & Hx & ->).
    apply IH in H2. destruct H2 as (w & t' & E' & -> & HF).
    cbn [ahead behind caps cls_test] in *. subst.
    exists (x :: w), t'. simpl. rewrite <- app_assoc. auto.
Qed.

Lemma run_word_inv ic tok st st' :
  run db (word_pattern ic tok) st st' ->
  run db (escape ic tok) st st' /\
  at_boundary db st = true /\ at_boundary db st' = true.
Proof.
  unfold word_pattern, seqs. cbn [fold_right]. intros H.
  apply run_seq_inv in H. destruct H as (m1 & H1 & H).
  apply run_seq_inv in H. destruct H as (m2 & H2 & H).
  apply run_seq_inv in H. destruct H as (m3 & H3 & H).
  apply run_bnd_inv in H1, H3. apply run_eps_inv in H.
  destruct H1, H3. subst. auto.
Qed.

Lemma run_word ic tok st st1 :
  run db (escape ic tok) st st1 ->
  at_boundary db st = true -> at_boundary db st1 = true ->
  run db (word_pattern ic tok) st st1.
Proof.
  intros H H1 H2. unfold word_pattern, seqs. simpl.
  econstructor; [constructor; exact H1|].
  econstructor; [exact H|].
  econstructor; [constructor; exact H2|constructor].
Qed.

End Patterns.

(** ** Texts made of sanitized characters *)

Lemma sobre_ascii c : sobre c = true -> is_ascii c = true.
Proof. unfold sobre. chars. Qed.

Lemma sobre_upper c : sobre c = true -> sobre (ascii_upper c) = true.
Proof.
  unfold sobre, ascii_upper. destruct (ascii_lower_letter c) eqn:E; [|auto].
  revert E. chars.
Qed.

Lemma alnum_upper c : ascii_alnum (ascii_upper c) = ascii_alnum c.
Proof.
  unfold ascii_upper. destruct (ascii_lower_letter c) eqn:E; [|reflexivity].
  destruct (ascii_alnum c) eqn:F; revert E F; chars.
Qed.

Lemma space_upper c : is_space (ascii_upper c) = is_space c.
Proof.
  unfold ascii_upper. destruct (ascii_lower_letter c) eqn:E; [|reflexivity].
  destruct (is_space c) eqn:F; revert E F; chars.
Qed.

Lemma sanitized_sobre s : sanitized s = true -> forallb sobre s = true.
Proof.
  unfold sanitized. intros H.
  repeat (apply andb_prop in H; destruct H as [H ?]). exact H.
Qed.

Lemma head_is_ext (p q : cp -> bool) s :
  (forall c, In c s -> p c = q c) -> head_is p s = head_is q s.
Proof. destruct s; simpl; auto. Qed.

Lemma head_is_map (p : cp -> bool) f (s : ustring) :
  head_is p (map f s) = head_is (fun c => p (f c)) s.
Proof. destruct s; reflexivity. Qed.

Lemma head_is_rev_all (p : cp -> bool) (m b : ustring) :
  m <> [] -> (forall c, In c m -> p c = true) -> head_is p (rev m ++ b) = true.
Proof.
  intros Hm Hp. destruct (rev m) as [|c l] eqn:E.
  - apply (f_equal (@rev cp)) in E. rewrite rev_involutive in E. contradiction.
  - simpl. apply Hp. apply in_rev. rewrite E. left. reflexivity.
Qed.

Lemma head_is_all (p : cp -> bool) (m b : ustring) :
  m <> [] -> (forall c, In c m -> p c = true) -> head_is p (m ++ b) = true.
Proof. destruct m as [|c m]; [congruence|]. simpl. auto. Qed.

Lemma find_some_iff {A} (f : A -> bool) l m :
  find f l = Some m <->
  exists l1 l2, l = l1 ++ m :: l2 /\ f m = true /\
                forall x, In x l1 -> f x = false.
Proof.
  induction l as [|y l IH]; simpl.
  - split; [discriminate|]. intros (l1 & l2 & E & _). destruct l1; discriminate.
  - destruct (f y) eqn:Hy.
    + split.
      * intros H. inversion H; subst. exists [], l. simpl. tauto.
      * intros (l1 & l2 & E & Hm & Hn). destruct l1 as [|z l1].
        -- inversion E; subst. reflexivity.
        -- inversion E; subst. rewrite (Hn z) in Hy by (left; reflexivity).
           discriminate.
    + rewrite IH. split.
      * intros (l1 & l2 & -> & Hm & Hn). exists (y :: l1), l2.
        repeat split; auto. intros x [<-|Hx]; auto.
      * intros (l1 & l2 & E & Hm & Hn). destruct l1 as [|z l1].
        -- inversion E; subst. congruence.
        -- inversion E; subst. exists l1, l2. repeat split; auto.
           intros x Hx. apply Hn. right. exact Hx.
Qed.

Lemma find_none_iff {A} (f : A -> bool) l :
  find f l = None <-> forall x, In x l -> f x = false.
Proof.
  split; [intros H x; apply find_none; exact H|].
  induction l as [|y l IH]; simpl; intros H; [reflexivity|].
  rewrite (H y) by auto. apply IH. auto.
Qed.

Section BrandFacts.
Variable db : UnicodeData.

Lemma sobre_word c : sobre c = true -> is_word db c = ascii_alnum c.
Proof.
  intros H. unfold is_word. rewrite (sobre_ascii c H).
  destruct (c =? 95)%N eqn:E; [|apply orb_false_r].
  exfalso. apply N.eqb_eq in E. subst. discriminate.
Qed.

Lemma sobre_digit c : sobre c = true -> is_digit db c = ascii_digit c.
Proof. intros H. unfold is_digit. rewrite (sobre_ascii c H). reflexivity. Qed.

Lemma str_upper_ascii t :
  forallb is_ascii t = true -> str_upper db t = map ascii_upper t.
Proof.
  unfold str_upper. induction t as [|c t IH]; simpl; [reflexivity|].
  intros H. apply andb_prop in H. destruct H as [Hc Ht].
  unfold upper1 at 1. rewrite Hc, IH by exact Ht. reflexivity.
Qed.

Lemma sanitized_upper t :
  sanitized t = true ->
  str_upper db t = map ascii_upper t /\
  forallb sobre (map ascii_upper t) = true.
Proof.
  intros H. split; [apply str_upper_ascii, sanitized_ascii; exact H|].
  apply sanitized_sobre in H. rewrite forallb_forall in *.
  intros c Hc. apply in_map_iff in Hc. destruct Hc as (x & <- & Hx).
  apply sobre_upper. auto.
Qed.

(** [re.search] with the pattern of a token: the token stands somewhere
    between two word boundaries. *)
Lemma contient_mot_spec m T :
  contient_mot db m T = true <->
  exists pre post,
    T = pre ++ m ++ post /\
    at_boundary db (MState (rev pre) (m ++ post) []) = true /\
    at_boundary db (MState (rev m ++ rev pre) post []) = true.
Proof.
  unfold contient_mot, re_search. split.
  - destruct (search_from db (word_pattern false m) [] T) as [h|] eqn:E;
      [intros _|discriminate].
    apply search_from_sound in E. destruct E as (pre & rest & -> & Ha).
    apply attempt_sound in Ha. destruct Ha as (st' & Hr & _).
    rewrite app_nil_r in Hr. apply run_word_inv in Hr.
    destruct Hr as (He & B1 & B2). apply run_escape_inv in He.
    destruct He as (t & E & ->). cbn [ahead behind caps] in *. subst rest.
    exists pre, t. auto.
  - intros (pre & post & -> & B1 & B2).
    destruct (attempt_complete db (word_pattern false m) (rev pre) (m ++ post)
                (MState (rev m ++ rev pre) post [])) as [h Hh].
    { apply run_word; auto. apply run_escape. }
    rewrite <- (app_nil_r (rev pre)) in Hh.
    destruct (search_from_complete db _ pre [] (m ++ post) h Hh) as [h' ->].
    reflexivity.
Qed.

Lemma marque_valide_chars m :
  marque_valide m = true ->
  m <> [] /\ map ascii_upper m = m /\
  forall c, In c m -> ascii_alnum c = true /\ sobre c = true.
Proof.
  intros H.
  assert (Hall : forall x, In x m ->
                 (ascii_digit x || ascii_upper_letter x) = true).
  { apply forallb_forall. destruct m; [discriminate|exact H]. }
  assert (Hal : forall x, (ascii_digit x || ascii_upper_letter x) = true ->
                ascii_alnum x = true /\ ascii_upper x = x /\ sobre x = true).
  { clear. intros x Hx. unfold ascii_upper, sobre.
    assert (Hl : ascii_lower_letter x = false) by (revert Hx; chars).
    rewrite Hl. repeat split; revert Hx; chars. }
  split; [destruct m; [discriminate|congruence]|]. split.
  - rewrite <- (map_id m) at 2. apply map_ext_in.
    intros c Hc. apply Hal, Hall, Hc.
  - intros c Hc. split; apply Hal, Hall, Hc.
Qed.

Lemma word_upper s :
  (forall c, In c s -> sobre (ascii_upper c) = true) ->
  head_is (is_word db) (map ascii_upper s) = head_is ascii_alnum s.
Proof.
  intros H. rewrite head_is_map. apply head_is_ext. intros c Hc.
  rewrite sobre_word by auto. apply alnum_upper.
Qed.

(** For a sanitized text and a valid brand, the test of [extraire_marque] is
    the occurrence of the brand as a whole word, case left aside. *)
Lemma contient_mot_occurs m t :
  sanitized t = true -> marque_valide m = true ->
  contient_mot db m (str_upper db t) = true <-> occurs_as_word_ci m t.
Proof.
  intros Ht Hm. destruct (sanitized_upper t Ht) as [-> _].
  apply sanitized_sobre in Ht. rewrite forallb_forall in Ht.
  destruct (marque_valide_chars m Hm) as (Hne & Hup & Hch).
  rewrite contient_mot_spec.
  assert (Hw : forall b, head_is (is_word db) (m ++ b) = true).
  { intros b. apply head_is_all; auto. intros c Hc.
    rewrite sobre_word; apply Hch; exact Hc. }
  assert (Hw' : forall b, head_is (is_word db) (rev m ++ b) = true).
  { intros b. apply head_is_rev_all; auto. intros c Hc.
    rewrite sobre_word; apply Hch; exact Hc. }
  unfold at_boundary, occurs_as_word_ci. cbn [behind ahead].
  assert (HB : forall pre w post, t = pre ++ w ++ post ->
            head_is (is_word db) (rev (map ascii_upper pre)) =
              head_is ascii_alnum (rev pre) /\
            head_is (is_word db) (map ascii_upper post) =
              head_is ascii_alnum post).
  { intros pre w post ->. rewrite <- map_rev. split; apply word_upper.
    - intros c Hc. apply sobre_upper, Ht. rewrite <- in_rev in Hc.
      rewrite !in_app_iff. auto.
    - intros c Hc. apply sobre_upper, Ht. rewrite !in_app_iff. auto. }
  split.
  - intros (pre & post & E & B1 & B2). rewrite Hw in B1. rewrite Hw' in B2.
    rewrite xorb_true_r in B1. rewrite xorb_true_l in B2.
    apply negb_true_iff in B1, B2.
    apply map_eq_app in E. destruct E as (pre' & r' & -> & <- & E).
    apply map_eq_app in E. destruct E as (w & post' & -> & Ew & <-).
    destruct (HB pre' w post' eq_refl) as [E1 E2].
    exists pre', w, post'. split; [reflexivity|]. split; [congruence|].
    split; congruence.
  - intros (pre & w & post & -> & Ew & B1 & B2).
    destruct (HB pre w post eq_refl) as [E1 E2].
    exists (map ascii_upper pre), (map ascii_upper post).
    rewrite !map_app, Ew, Hup. split; [reflexivity|].
    rewrite Hw, Hw', E1, E2, B1, B2. split; reflexivity.
Qed.

End BrandFacts.

(** ** The shapes of the quantity patterns *)

Section Shapes.
Variable db : UnicodeData.

Lemma in_hits r s h : In h (hits db r s) <-> In (Found h) (pieces db r 0 [] s).
Proof.
  unfold hits. rewrite in_flat_map. split.
  - intros ([c|h'] & Hp & Hh); simpl in Hh; [contradiction|].
    destruct Hh as [->|[]]. exact Hp.
  - intros H. exists (Found h). split; [exact H|left; reflexivity].
Qed.

(** A match of [findall] sits somewhere in the text. *)
Lemma hits_attempt r s h :
  In h (hits db r s) ->
  exists pre rest must,
    s = pre ++ rest /\ attempt db r must (rev pre) rest = Some h.
Proof.
  intros H. apply in_hits, pieces_found in H.
  destruct H as (pre & rest & must & E & Ha). rewrite app_nil_r in Ha. eauto.
Qed.

Lemma consumed_app b s t g b' g' :
  consumed (MState b (s ++ t) g) (MState b' t g') = s.
Proof. unfold consumed. cbn [ahead]. apply firstn_length_app. Qed.

Lemma run_unite_inv st st' :
  run db unite st st' ->
  exists un t, In un unites /\ ahead st = un ++ t /\
               st' = MState (rev un ++ behind st) t (caps st).
Proof.
  unfold unite, unites. intros H.
  repeat (apply run_alt_inv in H; destruct H as [H|H]);
    apply run_escape_inv in H; destruct H as (t & E & ->);
    eexists; exists t; (split; [|split; [exact E|reflexivity]]); simpl; auto 6.
Qed.

Lemma unite_word un :
  In un unites ->
  un <> [] /\ forall c, In c un -> ascii_upper_letter c = true.
Proof.
  unfold unites. intros H. simpl in H.
  repeat (destruct H as [<-|H]; [split; [discriminate|];
    intros c Hc; simpl in Hc;
    repeat (destruct Hc as [<-|Hc]; [reflexivity|]); contradiction|]).
  contradiction.
Qed.

Lemma upper_letter_word c : ascii_upper_letter c = true -> is_word db c = true.
Proof.
  intros H. unfold is_word.
  assert (is_ascii c = true) by (revert H; chars).
  assert (ascii_alnum c = true) by (revert H; chars).
  rewrite H0, H1. reflexivity.
Qed.

(** The end of rules 1, 2, 3 and 5: [\s*(?:KG|G|L|ML|CL)\b]. *)
Lemma run_fin_inv st st' :
  run db (seqs fin_unite) st st' ->
  exists ws un t,
    ahead st = ws ++ un ++ t /\ forallb is_space ws = true /\ In un unites /\
    st' = MState (rev un ++ rev ws ++ behind st) t (caps st) /\
    head_is (is_word db) t = false.
Proof.
  unfold seqs, fin_unite. cbn [fold_right]. intros H.
  apply run_seq_inv in H. destruct H as (m1 & H1 & H).
  apply run_seq_inv in H. destruct H as (m2 & H2 & H).
  apply run_seq_inv in H. destruct H as (m3 & H3 & H).
  apply run_eps_inv in H. subst m3.
  apply run_rep_inv in H1. destruct H1 as (ws & t1 & E1 & _ & Hws & ->).
  apply run_unite_inv in H2. destruct H2 as (un & t & Hun & E2 & ->).
  apply run_bnd_inv in H3. destruct H3 as [-> Hb].
  cbn [ahead behind caps] in *. subst t1.
  exists ws, un, t. repeat split; auto.
  unfold at_boundary in Hb. cbn [ahead behind] in Hb.
  destruct (unite_word un Hun) as [Hne Hl].
  rewrite head_is_rev_all in Hb; auto.
  - rewrite xorb_true_l in Hb. apply negb_true_iff. exact Hb.
  - intros c Hc. apply upper_letter_word. auto.
Qed.

Lemma run_fin ws un t b g :
  forallb is_space ws = true -> In un unites ->
  head_is (is_word db) t = false ->
  run db (seqs fin_unite)
      (MState b (ws ++ un ++ t) g) (MState (rev un ++ rev ws ++ b) t g).
Proof.
  intros Hws Hun Ht. unfold seqs, fin_unite. cbn [fold_right].
  apply run_seq with (st2 := MState (rev ws ++ b) (un ++ t) g);
    [apply run_rep; [lia|exact Hws]|].
  apply run_seq with (st2 := MState (rev un ++ rev ws ++ b) t g).
  - unfold unite. unfold unites in Hun. simpl in Hun.
    destruct Hun as [<-|[<-|[<-|[<-|[<-|[]]]]]].
    + apply run_alt_l. apply run_escape.
    + apply run_alt_r, run_alt_l. apply run_escape.
    + apply run_alt_r, run_alt_r, run_alt_l. apply run_escape.
    + apply run_alt_r, run_alt_r, run_alt_r, run_alt_l. apply run_escape.
    + apply run_alt_r, run_alt_r, run_alt_r, run_alt_r. apply run_escape.
  - econstructor; [|constructor]. constructor.
    unfold at_boundary. cbn [ahead behind].
    destruct (unite_word un Hun) as [Hne Hl].
    rewrite head_is_rev_all, Ht; auto.
    intros c Hc. apply upper_letter_word. auto.
Qed.

Lemma run_seqs_app l1 : forall l2 st st',
  run db (seqs (l1 ++ l2)) st st' <->
  exists m, run db (seqs l1) st m /\ run db (seqs l2) m st'.
Proof.
  unfold seqs. induction l1 as [|r l1 IH]; intros l2 st st'; simpl.
  - split.
    + intros H. exists st. split; [constructor|exact H].
    + intros (m & H1 & H2). apply run_eps_inv in H1. subst. exact H2.
  - split.
    + intros H. apply run_seq_inv in H. destruct H as (m1 & H1 & H).
      apply IH in H. destruct H as (m & H2 & H3).
      exists m. split; [econstructor; eauto|exact H3].
    + intros (m & H & H3). apply run_seq_inv in H. destruct H as (m1 & H1 & H2).
      econstructor; [exact H1|]. apply IH. eauto.
Qed.

(** A match of rule 1, 2, 3 or 5: a number read by the head [fr] of the
    pattern, whitespace, a unit, and no word character after it. *)
Lemma quantity_shape fr must b a h :
  attempt db (seqs (fr ++ fin_unite)) must b a = Some h ->
  exists num ws un post g,
    a = num ++ ws ++ un ++ post /\ hit_text h = num ++ ws ++ un /\
    run db (seqs fr) (MState b a []) (MState (rev num ++ b) (ws ++ un ++ post) g) /\
    forallb is_space ws = true /\ In un unites /\
    head_is (is_word db) post = false.
Proof.
  intros H. apply attempt_sound in H.
  destruct H as (st' & Hr & Ea & _ & _ & _).
  apply run_seqs_app in Hr. destruct Hr as (m & H1 & H2).
  destruct (run_split db _ _ _ H1) as (num & E1 & B1).
  apply run_fin_inv in H2. destruct H2 as (ws & un & post & E2 & Hws & Hun & -> & Hp).
  destruct m as [mb ma mg]. cbn [ahead behind caps] in *. subst ma mb.
  exists num, ws, un, post, mg. rewrite E1 in Ea.
  rewrite !app_assoc in Ea. apply app_inv_tail in Ea.
  rewrite <- !app_assoc in Ea. rewrite E1 in *. repeat split; auto.
Qed.

(** A match of rule 4: the start of the text or one whitespace character,
    then a digit 1-9, whitespace, a unit, and no word character after it;
    the two groups are the digit and the unit. *)
Lemma pattern4_shape must b a h :
  attempt db pattern4 must b a = Some h ->
  exists lead d ws un post,
    a = lead ++ [d] ++ ws ++ un ++ post /\
    hit_text h = lead ++ [d] ++ ws ++ un /\
    (lead = [] /\ b = [] \/ exists w, lead = [w] /\ is_space w = true) /\
    in_range (ch "1") (ch "9") d = true /\
    forallb is_space ws = true /\ In un unites /\
    head_is (is_word db) post = false /\
    group h 1 = [d] /\ group h 2 = un.
Proof.
  intros H. apply attempt_sound in H.
  destruct H as (st' & Hr & Ea & _ & Hg & _).
  unfold pattern4, seqs in Hr. cbn [fold_right] in Hr.
  apply run_seq_inv in Hr. destruct Hr as (m1 & H1 & Hr).
  apply run_seq_inv in Hr. destruct Hr as (m2 & H2 & Hr).
  apply run_seq_inv in Hr. destruct Hr as (m3 & H3 & Hr).
  apply run_seq_inv in Hr. destruct Hr as (m4 & H4 & Hr).
  apply run_seq_inv in Hr. destruct Hr as (m5 & H5 & Hr).
  apply run_eps_inv in Hr. subst m5.
  apply run_grp_inv in H2. destruct H2 as (n2 & H2 & ->).
  apply run_sym_inv in H2. destruct H2 as (d & t2 & E2 & Hd & ->).
  apply run_rep_inv in H3. destruct H3 as (ws & t3 & E3 & _ & Hws & ->).
  apply run_grp_inv in H4. destruct H4 as (n4 & H4 & ->).
  apply run_unite_inv in H4. destruct H4 as (un & t4 & Hun & E4 & ->).
  apply run_bnd_inv in H5. destruct H5 as [-> Hb].
  cbn [ahead behind caps] in *. subst t2 t3.
  assert (Hp : head_is (is_word db) t4 = false).
  { unfold at_boundary in Hb. cbn [ahead behind] in Hb.
    destruct (unite_word un Hun) as [Hne Hl].
    rewrite head_is_rev_all in Hb; auto.
    - rewrite xorb_true_l in Hb. apply negb_true_iff. exact Hb.
    - intros c Hc. apply upper_letter_word. auto. }
  assert (Hd' : in_range (ch "1") (ch "9") d = true).
  { unfold un_a_neuf in Hd. cbn [cls_test existsb item_test] in Hd.
    rewrite orb_false_r in Hd. exact Hd. }
  assert (G : group h 1 = [d] /\ group h 2 = un).
  { unfold group. rewrite Hg. cbn [find fst snd Nat.eqb].
    destruct m1 as [b1 a1 g1]. cbn [ahead behind caps] in *. subst a1.
    change (d :: ws ++ un ++ t4) with ([d] ++ ws ++ un ++ t4).
    rewrite !consumed_app. auto. }
  destruct G as [G1 G2].
  apply run_alt_inv in H1. destruct H1 as [H1|H1].
  - apply run_bol_inv in H1. destruct H1 as [-> Hb0].
    cbn [ahead behind] in *. subst b.
    exists [], d, ws, un, t4. cbn [app]. rewrite E2 in Ea.
    change (d :: ws ++ un ++ t4) with ([d] ++ ws ++ un ++ t4) in Ea.
    rewrite !app_assoc in Ea. apply app_inv_tail in Ea.
    rewrite <- !app_assoc in Ea. repeat split; auto.
  - apply run_sym_inv in H1. destruct H1 as (w & t1 & E1 & Hw & ->).
    cbn [ahead behind] in *. subst t1.
    exists [w], d, ws, un, t4. rewrite E1 in Ea.
    change (w :: d :: ws ++ un ++ t4) with ([w; d] ++ ws ++ un ++ t4) in Ea.
    rewrite !app_assoc in Ea. apply app_inv_tail in Ea.
    rewrite <- !app_assoc in Ea. repeat split; eauto.
Qed.

End Shapes.

(** ** The decimal point of rules 1 and 2 *)

Section Decimal.
Variable db : UnicodeData.

Lemma decimale_shape must b a h :
  attempt db decimale_point must b a = Some h ->
  exists g1 g2,
    hit_text h = g1 ++ [ch "."] ++ g2 /\ group h 1 = g1 /\ group h 2 = g2.
Proof.
  intros H. apply attempt_sound in H.
  destruct H as (st' & Hr & Ea & _ & Hg & _).
  unfold decimale_point, seqs in Hr. cbn [fold_right] in Hr.
  apply run_seq_inv in Hr. destruct Hr as (m1 & H1 & Hr).
  apply run_seq_inv in Hr. destruct Hr as (m2 & H2 & Hr).
  apply run_seq_inv in Hr. destruct Hr as (m3 & H3 & Hr).
  apply run_eps_inv in Hr. subst m3.
  apply run_grp_inv in H1. destruct H1 as (n1 & H1 & ->).
  apply run_rep_inv in H1. destruct H1 as (s1 & t1 & E1 & _ & _ & ->).
  apply run_sym_inv in H2. destruct H2 as (x & t2 & E2 & Hx & ->).
  apply run_grp_inv in H3. destruct H3 as (n3 & H3 & ->).
  apply run_rep_inv in H3. destruct H3 as (s2 & t3 & E3 & _ & _ & ->).
  cbn [ahead behind caps cls_test] in *. apply N.eqb_eq in Hx. subst x t1 t2.
  exists s1, s2. unfold group. rewrite Hg. cbn [find fst snd Nat.eqb].
  rewrite E1 in *. rewrite !consumed_app.
  change (s1 ++ ch "." :: s2 ++ t3) with (s1 ++ [ch "."] ++ s2 ++ t3) in Ea.
  rewrite !app_assoc in Ea. apply app_inv_tail in Ea.
  rewrite <- !app_assoc in Ea. auto.
Qed.

Lemma Forall2_same (s : ustring) : Forall2 point_en_virgule s s.
Proof. induction s; constructor; [left; reflexivity|assumption]. Qed.

(** The replacement changes points into commas and nothing else. *)
Lemma normaliser_pointwise m :
  Forall2 point_en_virgule m (normaliser_decimale db m).
Proof.
  unfold normaliser_decimale, re_sub_template.
  apply (scan_ind db decimale_point
    (fun b a ps =>
       Forall2 point_en_virgule a
         (flat_map (fun p => match p with
                             | Found h => expand decimale_virgule h
                             | Keep c => [c]
                             end) ps))).
  - intros b a h H. apply decimale_shape in H. destruct H as (g1 & g2 & -> & _).
    intros E. apply app_eq_nil in E. destruct E as [_ E]. discriminate.
  - intros b _. constructor.
  - intros b c t _ IH. cbn [flat_map app]. constructor; [left; reflexivity|exact IH].
  - intros b a h Ha _ IH. cbn [flat_map].
    rewrite (attempt_prefix db _ _ _ _ _ Ha) at 1.
    apply Forall2_app; [|exact IH].
    apply decimale_shape in Ha. destruct Ha as (g1 & g2 & -> & G1 & G2).
    unfold expand, decimale_virgule. cbn [flat_map]. rewrite G1, G2, app_nil_r.
    apply Forall2_app; [apply Forall2_same|].
    constructor; [right; split; reflexivity|apply Forall2_same].
Qed.

Lemma Forall2_unchanged (s s' : ustring) :
  Forall2 point_en_virgule s s' ->
  (forall c, In c s -> c <> ch ".") -> s' = s.
Proof.
  induction 1 as [|a c s s' [->|[-> _]] _ IH]; intros Hs; [reflexivity| |].
  - f_equal. apply IH. intros x Hx. apply Hs. right. exact Hx.
  - destruct (Hs (ch ".")); [left|]; reflexivity.
Qed.

(** On a number followed by whitespace and a unit, only the number can
    change. *)
Lemma normaliser_keeps_spaces num ws un :
  forallb is_space ws = true -> In un unites ->
  exists num',
    normaliser_decimale db (num ++ ws ++ un) = num' ++ ws ++ un /\
    Forall2 point_en_virgule num num'.
Proof.
  intros Hws Hun. pose proof (normaliser_pointwise (num ++ ws ++ un)) as H.
  apply Forall2_app_inv_l in H. destruct H as (num' & r & Hn & Hr & ->).
  exists num'. split; [|exact Hn]. f_equal.
  apply Forall2_unchanged; [exact Hr|].
  intros c Hc ->. apply in_app_or in Hc. destruct Hc as [Hc|Hc].
  - rewrite forallb_forall in Hws. apply Hws in Hc. discriminate.
  - apply (unite_word un Hun) in Hc. discriminate.
Qed.

End Decimal.

(** ** Rule 3 *)

Lemma run_unique (p : cp -> bool) (s1 s2 r1 r2 : ustring) :
  s1 ++ r1 = s2 ++ r2 ->
  forallb p s1 = true -> forallb p s2 = true ->
  head_is p r1 = false -> head_is p r2 = false ->
  s1 = s2 /\ r1 = r2.
Proof.
  revert s2. induction s1 as [|c s1 IH]; intros s2 E H1 H2 R1 R2.
  - destruct s2 as [|c2 s2]; [auto|]. simpl in *. subst r1. simpl in R1.
    apply andb_prop in H2. destruct H2. congruence.
  - destruct s2 as [|c2 s2].
    + simpl in *. subst r2. simpl in R2. apply andb_prop in H1.
      destruct H1. congruence.
    + simpl in *. inversion E; subst c2.
      apply andb_prop in H1. destruct H1. apply andb_prop in H2. destruct H2.
      destruct (IH s2) as [-> ->]; auto.
Qed.

Lemma unite_unique un1 un2 r1 r2 :
  In un1 unites -> In un2 unites -> un1 ++ r1 = un2 ++ r2 -> un1 = un2.
Proof.
  unfold unites. simpl. intros H1 H2 E.
  repeat (destruct H1 as [<-|H1]);
    repeat (destruct H2 as [<-|H2]);
    try contradiction; try reflexivity; discriminate.
Qed.

Lemma space_not_digit c : is_space c = true -> ascii_digit c = false.
Proof. chars. Qed.

Lemma upper_letter_not_digit c :
  ascii_upper_letter c = true -> ascii_digit c = false /\ is_space c = false.
Proof. intros H. split; revert H; chars. Qed.

Lemma head_after_number ws un post :
  forallb is_space ws = true -> In un unites ->
  head_is ascii_digit (ws ++ un ++ post) = false /\
  head_is is_space (un ++ post) = false.
Proof.
  intros Hws Hun. destruct (unite_word un Hun) as [Hne Hl].
  assert (Hu : forall p, (forall c, ascii_upper_letter c = true -> p c = false) ->
               head_is p (un ++ post) = false).
  { intros p Hp. destruct un as [|c un]; [congruence|]. simpl.
    apply Hp, Hl. left. reflexivity. }
  split; [|apply Hu; intros; apply upper_letter_not_digit; assumption].
  destruct ws as [|w ws].
  - apply Hu. intros; apply upper_letter_not_digit; assumption.
  - simpl in *. apply andb_prop in Hws. destruct Hws as [Hw _].
    apply space_not_digit. exact Hw.
Qed.

Lemma espaces_simples_upper s :
  espaces_simples (map ascii_upper s) = espaces_simples s.
Proof.
  induction s as [|c s IH]; simpl; [reflexivity|].
  rewrite IH, space_upper, head_is_map.
  rewrite (head_is_ext (fun c => is_space (ascii_upper c)) is_space)
    by (intros; apply space_upper).
  destruct (is_space c) eqn:E; [|reflexivity].
  replace (ascii_upper c) with c; [reflexivity|].
  unfold ascii_upper. destruct (ascii_lower_letter c) eqn:F; [|reflexivity].
  exfalso. revert E F. chars.
Qed.

Lemma espaces_simples_run pre ws post :
  espaces_simples (pre ++ ws ++ post) = true ->
  forallb is_space ws = true -> ws = [] \/ ws = [SPACE].
Proof.
  intros H Hws. apply espaces_simples_app in H. destruct H as [_ H].
  apply espaces_simples_app in H. destruct H as [H _].
  destruct ws as [|c ws]; [auto|right]. simpl in *.
  apply andb_prop in Hws. destruct Hws as [Hc Hws]. rewrite Hc in H.
  apply andb_prop in H. destruct H as [H _].
  apply andb_prop in H. destruct H as [Hs Hh]. apply N.eqb_eq in Hs.
  destruct ws as [|c' ws]; [congruence|]. simpl in *.
  apply andb_prop in Hws. destruct Hws as [Hc' _]. rewrite Hc' in Hh.
  discriminate.
Qed.

Lemma un_a_neuf_digit c :
  in_range (ch "1") (ch "9") c = true ->
  ascii_digit c = true /\ ascii_alnum c = true /\ sobre c = true.
Proof. intros H. unfold sobre. repeat split; revert H; chars. Qed.

Lemma digit_alnum c : ascii_digit c = true -> ascii_alnum c = true.
Proof. chars. Qed.

Section Rule3.
Variable db : UnicodeData.

Lemma digit_word c : ascii_digit c = true -> is_word db c = true.
Proof.
  intros H. unfold is_word.
  assert (Ha : is_ascii c = true) by (revert H; chars).
  rewrite Ha, (digit_alnum c H). reflexivity.
Qed.

Lemma digit_ascii c : ascii_digit c = true -> is_digit db c = true.
Proof.
  intros H. unfold is_digit.
  assert (Ha : is_ascii c = true) by (revert H; chars).
  rewrite Ha. exact H.
Qed.

(** The head of pattern 3: a word boundary, a digit 1-9 and at least one
    more digit. *)
Lemma tete3_inv st st1 :
  run db (seqs tete3) st st1 ->
  at_boundary db st = true /\
  exists d ds t,
    ahead st = d :: ds ++ t /\ in_range (ch "1") (ch "9") d = true /\
    ds <> [] /\ forallb (is_digit db) ds = true /\
    st1 = MState (rev (d :: ds) ++ behind st) t (caps st).
Proof.
  unfold tete3, seqs. cbn [fold_right]. intros H.
  apply run_seq_inv in H. destruct H as (m1 & H1 & H).
  apply run_seq_inv in H. destruct H as (m2 & H2 & H).
  apply run_eps_inv in H. subst m2.
  apply run_bnd_inv in H1. destruct H1 as [-> Hb]. split; [exact Hb|].
  apply run_alt_inv in H2. destruct H2 as [H2|H2];
    apply run_seq_inv in H2; destruct H2 as (n1 & H2 & H3);
    apply run_seq_inv in H3; destruct H3 as (n2 & H3 & H4);
    apply run_eps_inv in H4; subst n2;
    apply run_sym_inv in H2; destruct H2 as (d & t1 & E1 & Hd & ->);
    unfold un_a_neuf in Hd; cbn [cls_test existsb item_test] in Hd;
    rewrite orb_false_r in Hd.
  - apply run_rep_inv in H3. destruct H3 as (ds & t & E2 & Hl & Hds & ->).
    cbn [ahead behind caps cls_test] in *. subst t1.
    exists d, ds, t. repeat split; auto.
    + destruct ds; [simpl in Hl; lia|discriminate].
    + simpl. rewrite <- !app_assoc. reflexivity.
  - apply run_sym_inv in H3. destruct H3 as (c & t & E2 & Hc & ->).
    cbn [ahead behind caps cls_test] in *. subst t1.
    exists d, [c], t. repeat split; auto.
    + discriminate.
    + simpl. rewrite Hc. reflexivity.
Qed.

Lemma tete3_run b d ds t g :
  at_boundary db (MState b (d :: ds ++ t) g) = true ->
  in_range (ch "1") (ch "9") d = true -> ds <> [] ->
  forallb (is_digit db) ds = true ->
  run db (seqs tete3) (MState b (d :: ds ++ t) g)
      (MState (rev (d :: ds) ++ b) t g).
Proof.
  intros Hb Hd Hne Hds. unfold tete3, seqs. cbn [fold_right].
  econstructor; [constructor; exact Hb|]. econstructor; [|constructor].
  assert (Hd' : cls_test db un_a_neuf d = true).
  { unfold un_a_neuf. cbn [cls_test existsb item_test]. rewrite Hd. reflexivity. }
  destruct ds as [|c1 [|c2 ds]]; [congruence| |].
  - apply run_alt_r. econstructor; [constructor; exact Hd'|].
    econstructor; [|constructor]. simpl in Hds. rewrite andb_true_r in Hds.
    simpl. constructor. exact Hds.
  - apply run_alt_l. econstructor; [constructor; exact Hd'|].
    econstructor; [|constructor].
    replace (rev (d :: c1 :: c2 :: ds) ++ b)
      with (rev (c1 :: c2 :: ds) ++ d :: b)
      by (simpl; rewrite <- !app_assoc; reflexivity).
    apply run_rep; [simpl; lia|exact Hds].
Qed.

End Rule3.

Section Rule3Matches.
Variable db : UnicodeData.

Lemma sobre_head (s : ustring) :
  (forall c, In c s -> sobre c = true) ->
  head_is (is_word db) s = head_is ascii_alnum s.
Proof. intros H. apply head_is_ext. intros c Hc. apply sobre_word; auto. Qed.

Lemma rule3_shape must pre rest h :
  forallb sobre (pre ++ rest) = true ->
  attempt db pattern3 must (rev pre) rest = Some h ->
  exists d ds ws un post,
    rest = d :: ds ++ ws ++ un ++ post /\ hit_text h = d :: ds ++ ws ++ un /\
    in_range (ch "1") (ch "9") d = true /\ ds <> [] /\
    forallb ascii_digit ds = true /\ forallb is_space ws = true /\
    In un unites /\
    head_is ascii_alnum (rev pre) = false /\ head_is ascii_alnum post = false.
Proof.
  intros HS Ha. rewrite forallb_forall in HS.
  apply quantity_shape in Ha.
  destruct Ha as (num & ws & un & post & g & Er & Eh & Hr & Hws & Hun & Hp).
  apply tete3_inv in Hr. destruct Hr as (Hb & d & ds & t & E & Hd & Hne & Hds & Est).
  cbn [ahead behind caps] in *. inversion Est as [[E1 E2 E3]]; clear Est.
  apply app_inv_tail in E1. change (rev ds ++ [d]) with (rev (d :: ds)) in E1.
  apply (f_equal (@rev cp)) in E1.
  rewrite !rev_involutive in E1. subst num t g.
  exists d, ds, ws, un, post.
  assert (Hin : forall c, In c rest -> sobre c = true)
    by (intros c Hc; apply HS, in_or_app; auto).
  split; [exact E|]. split; [exact Eh|]. split; [exact Hd|].
  split; [exact Hne|]. split; [|split; [exact Hws|split; [exact Hun|split]]].
  - apply forallb_forall. intros c Hc. rewrite <- sobre_digit with (db := db).
    + rewrite forallb_forall in Hds. apply Hds. exact Hc.
    + apply Hin. rewrite Er. right. apply in_or_app. auto.
  - rewrite <- sobre_head.
    + unfold at_boundary in Hb. cbn [ahead behind] in Hb. rewrite E in Hb.
      cbn [head_is] in Hb. rewrite (digit_word db d) in Hb
        by (apply un_a_neuf_digit; exact Hd).
      rewrite xorb_true_r in Hb. apply negb_true_iff. exact Hb.
    + intros c Hc. apply HS, in_or_app. left. apply in_rev. exact Hc.
  - rewrite <- sobre_head; [exact Hp|].
    intros c Hc. apply Hin. rewrite Er. simpl. right.
    rewrite !in_app_iff. auto.
Qed.

Lemma rule3_found pre post d ds ws un :
  forallb sobre (pre ++ (d :: ds ++ ws ++ un) ++ post) = true ->
  in_range (ch "1") (ch "9") d = true -> ds <> [] ->
  forallb ascii_digit ds = true -> forallb is_space ws = true ->
  In un unites ->
  head_is ascii_alnum (rev pre) = false -> head_is ascii_alnum post = false ->
  exists h,
    attempt db pattern3 false (rev pre) ((d :: ds ++ ws ++ un) ++ post) = Some h /\
    hit_text h = d :: ds ++ ws ++ un.
Proof.
  intros HS Hd Hne Hds Hws Hun Hpre Hpost.
  assert (HS' := HS). rewrite forallb_forall in HS'.
  assert (E : (d :: ds ++ ws ++ un) ++ post = d :: ds ++ ws ++ un ++ post)
    by (simpl; rewrite <- !app_assoc; reflexivity).
  destruct (attempt_complete db pattern3 (rev pre) ((d :: ds ++ ws ++ un) ++ post)
              (MState (rev un ++ rev ws ++ rev (d :: ds) ++ rev pre) post []))
    as [h Hh].
  { unfold pattern3. apply run_seqs_app.
    exists (MState (rev (d :: ds) ++ rev pre) (ws ++ un ++ post) []).
    rewrite E. split.
    - apply tete3_run; auto.
      + unfold at_boundary. cbn [ahead behind head_is].
        rewrite (digit_word db d) by (apply un_a_neuf_digit; exact Hd).
        rewrite sobre_head, Hpre; [reflexivity|].
        intros c Hc. apply HS', in_or_app. left. apply in_rev. exact Hc.
      + rewrite forallb_forall in *. intros c Hc. apply digit_ascii. auto.
    - apply run_fin; auto. rewrite sobre_head; [exact Hpost|].
      intros c Hc. apply HS'. rewrite !in_app_iff. auto. }
  exists h. split; [exact Hh|].
  destruct (rule3_shape false pre _ h HS Hh)
    as (d' & ds' & ws' & un' & post' & Er & Eh & Hd' & _ & Hds' & Hws' & Hun' & _).
  rewrite Eh. rewrite E in Er.
  destruct (head_after_number ws un post Hws Hun) as [N1 N2].
  destruct (head_after_number ws' un' post' Hws' Hun') as [N1' N2'].
  destruct (run_unique ascii_digit (d :: ds) (d' :: ds')
              (ws ++ un ++ post) (ws' ++ un' ++ post')) as [E1 E2]; auto.
  - simpl. rewrite Hds. rewrite (proj1 (un_a_neuf_digit d Hd)). reflexivity.
  - simpl. rewrite Hds'. rewrite (proj1 (un_a_neuf_digit d' Hd')). reflexivity.
  - destruct (run_unique is_space ws ws' (un ++ post) (un' ++ post'))
      as [E3 E4]; auto.
    rewrite (unite_unique un un' post post' Hun Hun' E4).
    inversion E1; subst. reflexivity.
Qed.

Lemma rule3_no_overlap p1 p2 rest h' h :
  forallb sobre ((p1 ++ p2) ++ rest) = true -> p2 <> [] ->
  attempt db pattern3 false (rev p1) (p2 ++ rest) = Some h' ->
  attempt db pattern3 false (rev (p1 ++ p2)) rest = Some h ->
  hit_len h' <= length p2.
Proof.
  intros HS Hp2 Ha' Ha.
  apply rule3_shape in Ha; [|exact HS].
  destruct Ha as (d & ds & ws & un & post & Er & _ & Hd & _ & _ & _ & _ & Hpre & _).
  apply rule3_shape in Ha'; [|rewrite app_assoc; exact HS].
  destruct Ha' as (d' & ds' & ws' & un' & post' & Er' & Eh' & Hd' & _ & Hds' & Hws' & Hun' & _).
  unfold hit_len. rewrite Eh'.
  change (d' :: ds' ++ ws' ++ un' ++ post')
    with ((d' :: ds') ++ ws' ++ un' ++ post') in Er'.
  change (d' :: ds' ++ ws' ++ un') with ((d' :: ds') ++ ws' ++ un').
  replace ((d' :: ds') ++ ws' ++ un' ++ post')
    with (((d' :: ds') ++ ws' ++ un') ++ post') in Er'
    by (rewrite <- !app_assoc; reflexivity).
  apply app_eq_app in Er'. destruct Er' as (k & [[E1 E2]|[E1 E2]]).
  - rewrite E1. rewrite (length_app _ k). lia.
  - destruct k as [|c k]; [rewrite E1, app_nil_r; lia|exfalso].
    rewrite Er in E2. inversion E2; subst c.
    apply app_eq_app in E1. destruct E1 as (j & [[E3 E4]|[E3 E4]]).
    + (* the character before the digit would be a digit *)
      rewrite rev_app_distr in Hpre.
      rewrite head_is_rev_all in Hpre; [discriminate|exact Hp2|].
      intros c Hc. apply digit_alnum.
      assert (Hall : forallb ascii_digit (d' :: ds') = true)
        by (simpl; rewrite Hds', (proj1 (un_a_neuf_digit d' Hd')); reflexivity).
      rewrite forallb_forall in Hall. apply Hall. rewrite E3.
      apply in_or_app. auto.
    + (* the digit would stand among the spaces and the unit *)
      assert (Hin : In d (ws' ++ un'))
        by (rewrite E4; apply in_or_app; right; left; reflexivity).
      destruct (un_a_neuf_digit d Hd) as (Hdig & _).
      apply in_app_or in Hin. destruct Hin as [Hin|Hin].
      * rewrite forallb_forall in Hws'. apply Hws', space_not_digit in Hin.
        congruence.
      * apply (unite_word un' Hun'), upper_letter_not_digit in Hin.
        destruct Hin. congruence.
Qed.

(** On a text of sanitized characters with single spaces, the matches of
    rule 3 are the whole words made of a number from 10 up and a unit. *)
Lemma rule3_exact T tok :
  forallb sobre T = true -> espaces_simples T = true ->
  In tok (re_findall db pattern3 T) <->
  mot_entier_unite (in_range (ch "1") (ch "9")) tok T.
Proof.
  intros HS HE. split.
  - intros H. unfold re_findall in H. apply in_map_iff in H.
    destruct H as (h & <- & Hh). apply hits_attempt in Hh.
    destruct Hh as (pre & rest & must & -> & Ha).
    apply rule3_shape in Ha; [|exact HS].
    destruct Ha as (d & ds & ws & un & post & Er & Eh & Hd & Hne & Hds & Hws & Hun & Hpre & Hpost).
    exists pre, post, d, ds, ws, un. rewrite Eh, Er.
    repeat split; auto.
    + simpl. rewrite <- !app_assoc. reflexivity.
    + apply (espaces_simples_run (pre ++ d :: ds) ws (un ++ post)); [|exact Hws].
      rewrite Er in HE. rewrite <- app_assoc. exact HE.
  - intros (pre & post & d & ds & ws & un & -> & -> & Hd & Hne & Hds & Hws & Hun & Hpre & Hpost).
    assert (Hws' : forallb is_space ws = true)
      by (destruct Hws as [->| ->]; reflexivity).
    destruct (rule3_found pre post d ds ws un HS Hd Hne Hds Hws' Hun Hpre Hpost)
      as (h & Ha & Eh).
    unfold re_findall. apply in_map_iff. exists h. split; [exact Eh|].
    apply in_hits. apply pieces_complete with (pre := pre) (rest := (d :: ds ++ ws ++ un) ++ post).
    + intros b a h0 H0 E0. apply quantity_shape in H0.
      destruct H0 as (num & ws0 & un0 & post0 & g & _ & Eh0 & _ & _ & Hun0 & _).
      rewrite Eh0 in E0. apply app_eq_nil in E0. destruct E0 as [_ E0].
      apply app_eq_nil in E0. destruct E0 as [_ ->].
      destruct (unite_word [] Hun0). congruence.
    + reflexivity.
    + rewrite app_nil_r. exact Ha.
    + intros p1 p2 h' -> Hp2 Hh'. rewrite app_nil_r in Hh'.
      eapply rule3_no_overlap; eauto.
Qed.

End Rule3Matches.

(** ** Taking a token out of the name *)

Lemma alnum_lower c : ascii_alnum (ascii_lower c) = ascii_alnum c.
Proof.
  unfold ascii_lower. destruct (ascii_upper_letter c) eqn:E; [|reflexivity].
  destruct (ascii_alnum c) eqn:F; revert E F; chars.
Qed.

Lemma head_alnum_lower (s1 s2 : ustring) :
  map ascii_lower s1 = map ascii_lower s2 ->
  head_is ascii_alnum s1 = head_is ascii_alnum s2.
Proof.
  destruct s1 as [|x s1], s2 as [|c s2]; simpl; try discriminate; [reflexivity|].
  intros E. inversion E as [[E1 E2]].
  rewrite <- (alnum_lower x), <- (alnum_lower c), E1. reflexivity.
Qed.

Lemma head_is_app_true (p : cp -> bool) (s r : ustring) :
  head_is p s = true -> head_is p (s ++ r) = true.
Proof. destruct s; simpl; [discriminate|auto]. Qed.

Lemma retire_incl tok b s s' :
  retire tok b s s' -> forall c, In c s' -> In c s.
Proof.
  induction 1; intros x Hx.
  - exact Hx.
  - destruct Hx as [->|Hx]; [left; reflexivity|right; auto].
  - apply in_or_app. right. auto.
Qed.

Section Removal.
Variable db : UnicodeData.

Lemma caseless_lower tok w :
  forallb is_ascii tok = true -> forallb is_ascii w = true ->
  Forall2 (fun c x => caseless db c x = true) tok w ->
  map ascii_lower w = map ascii_lower tok.
Proof.
  intros Ht Hw HF. induction HF as [|c x tok w Hc _ IH]; [reflexivity|].
  simpl in *. apply andb_prop in Ht. destruct Ht as [Hc1 Ht].
  apply andb_prop in Hw. destruct Hw as [Hx1 Hw].
  unfold caseless in Hc. rewrite Hc1, Hx1 in Hc. simpl in Hc.
  apply N.eqb_eq in Hc. rewrite Hc, IH; auto.
Qed.

Lemma word_hit tok must b a h :
  attempt db (word_pattern true tok) must b a = Some h ->
  Forall2 (fun c x => caseless db c x = true) tok (hit_text h) /\
  at_boundary db (MState b a []) = true /\
  at_boundary db (MState (rev (hit_text h) ++ b) (skipn (hit_len h) a) []) = true.
Proof.
  intros H. pose proof (attempt_prefix _ _ _ _ _ _ H) as Ep.
  apply attempt_sound in H. destruct H as (st' & Hr & Ea & _ & _ & _).
  apply run_word_inv in Hr. destruct Hr as (He & B1 & B2).
  apply run_escape_ci_inv in He. destruct He as (w & t & E & -> & HF).
  cbn [ahead behind caps] in *.
  assert (Ew : hit_text h = w).
  { rewrite E in Ea. apply app_inv_tail in Ea. auto. }
  assert (Et : skipn (hit_len h) a = t).
  { rewrite Ew in Ep. rewrite E in Ep at 1. apply app_inv_head in Ep. auto. }
  rewrite Ew, Et. auto.
Qed.

(** One [re.sub] of the reduction takes out whole-word occurrences of the
    token and nothing else. *)
Lemma retirer_retire tok s :
  bords_alnum tok = true -> forallb is_ascii tok = true ->
  forallb sobre s = true ->
  retire tok [] s (retirer db tok s).
Proof.
  intros Hb Ht Hs. unfold bords_alnum in Hb. apply andb_prop in Hb.
  destruct Hb as [Hb1 Hb2]. unfold retirer. rewrite re_sub_pieces.
  rewrite forallb_forall in Hs.
  enough (H : forall a b,
             (forall c, In c a -> sobre c = true) ->
             (forall c, In c b -> sobre c = true) ->
             retire tok b a
               (flat_map (subst_piece []) (pieces db (word_pattern true tok) 0 b a))).
  { apply H; [exact Hs|intros c []]. }
  assert (Hne : forall b a h,
            attempt db (word_pattern true tok) false b a = Some h ->
            hit_text h <> []).
  { intros b a h H. apply word_hit in H. destruct H as (HF & _).
    intros E. rewrite E in HF. inversion HF; subst. discriminate. }
  apply (scan_ind db (word_pattern true tok)
    (fun b a ps =>
       (forall c, In c a -> sobre c = true) ->
       (forall c, In c b -> sobre c = true) ->
       retire tok b a (flat_map (subst_piece []) ps))); [exact Hne| | |].
  - intros b _ _ _. constructor.
  - intros b c t _ IH Ha Hbs. cbn [flat_map subst_piece app].
    constructor. apply IH.
    + intros x Hx. apply Ha. right. exact Hx.
    + intros x [<-|Hx]; [apply Ha; left; reflexivity|auto].
  - intros b a h H0 _ IH Ha Hbs. cbn [flat_map subst_piece app].
    pose proof (attempt_prefix _ _ _ _ _ _ H0) as Ep.
    apply word_hit in H0. destruct H0 as (HF & B1 & B2).
    set (w := hit_text h) in *. set (t := skipn (hit_len h) a) in *.
    assert (Hw : forall c, In c w -> sobre c = true)
      by (intros c Hc; apply Ha; rewrite Ep; apply in_or_app; auto).
    assert (Htl : forall c, In c t -> sobre c = true)
      by (intros c Hc; apply Ha; rewrite Ep; apply in_or_app; auto).
    assert (Ew : map ascii_lower w = map ascii_lower tok).
    { apply caseless_lower; [exact Ht| |exact HF].
      apply forallb_forall. intros c Hc. apply sobre_ascii. auto. }
    assert (A1 : head_is ascii_alnum w = true)
      by (rewrite (head_alnum_lower w tok Ew); exact Hb1).
    assert (A2 : head_is ascii_alnum (rev w) = true).
    { rewrite (head_alnum_lower (rev w) (rev tok)); [exact Hb2|].
      rewrite !map_rev, Ew. reflexivity. }
    assert (Hrw : forall c, In c (rev w) -> sobre c = true)
      by (intros c Hc; apply Hw; apply in_rev; exact Hc).
    rewrite Ep. apply retire_word; [exact Ew| | |].
    + unfold at_boundary in B1. cbn [ahead behind] in B1. rewrite Ep in B1.
      rewrite (sobre_head db b Hbs) in B1.
      rewrite (sobre_head db (w ++ t)) in B1
        by (intros c Hc; apply in_app_or in Hc; destruct Hc; auto).
      rewrite (head_is_app_true _ w t A1), xorb_true_r in B1.
      apply negb_true_iff. exact B1.
    + unfold at_boundary in B2. cbn [ahead behind] in B2.
      rewrite (sobre_head db t Htl) in B2.
      rewrite (sobre_head db (rev w ++ b)) in B2
        by (intros c Hc; apply in_app_or in Hc; destruct Hc; auto).
      rewrite (head_is_app_true _ (rev w) b A2), xorb_true_l in B2.
      apply negb_true_iff. exact B2.
    + apply IH; [exact Htl|].
      intros c Hc. apply in_app_or in Hc. destruct Hc; auto.
Qed.

End Removal.

(** ** The tokens of the quantity list *)

Lemma jeton_ok_intro tok :
  head_is ascii_alnum tok = true -> head_is ascii_alnum (rev tok) = true ->
  (forall c, In c tok -> sobre c = true) -> jeton_ok tok = true.
Proof.
  intros H1 H2 H3. unfold jeton_ok, bords_alnum. rewrite H1, H2. simpl.
  apply forallb_forall. exact H3.
Qed.

Lemma jeton_ok_replace tok :
  jeton_ok tok = true -> jeton_ok (replace_char (ch ",") (ch ".") tok) = true.
Proof.
  unfold jeton_ok, bords_alnum, replace_char. intros H.
  apply andb_prop in H. destruct H as [H H3].
  apply andb_prop in H. destruct H as [H1 H2].
  assert (Hf : forall c, ascii_alnum (if (c =? ch ",")%N then ch "." else c) =
                         ascii_alnum c).
  { intros c. destruct (c =? ch ",")%N eqn:E; [|reflexivity].
    apply N.eqb_eq in E. subst. reflexivity. }
  rewrite <- map_rev, !head_is_map.
  rewrite (head_is_ext _ ascii_alnum tok) by (intros; apply Hf).
  rewrite (head_is_ext _ ascii_alnum (rev tok)) by (intros; apply Hf).
  rewrite H1, H2. simpl. rewrite forallb_forall in *.
  intros c Hc. apply in_map_iff in Hc. destruct Hc as (x & <- & Hx).
  destruct (x =? 44)%N; [reflexivity|auto].
Qed.

Lemma unite_alnum un :
  In un unites ->
  un <> [] /\ forall c, In c un -> ascii_alnum c = true.
Proof.
  intros H. destruct (unite_word un H) as [Hne Hl]. split; [exact Hne|].
  intros c Hc. apply Hl in Hc. revert Hc. chars.
Qed.

Lemma rev_number_unit (num ws un : ustring) :
  rev (num ++ ws ++ un) = rev un ++ rev ws ++ rev num.
Proof. rewrite !rev_app_distr, <- app_assoc. reflexivity. Qed.

Section Tokens.
Variable db : UnicodeData.

Lemma hit_infix r T h :
  In h (hits db r T) -> exists pre post, T = pre ++ hit_text h ++ post.
Proof.
  intros H. apply hits_attempt in H. destruct H as (pre & rest & must & -> & Ha).
  exists pre, (skipn (hit_len h) rest). f_equal.
  exact (attempt_prefix _ _ _ _ _ _ Ha).
Qed.

(** The heads of patterns 1, 2, 5 and 6 begin with a digit. *)
Lemma tete_digit fr b a g num r g' :
  run db (seqs (Bnd :: Rep 1 Digit :: fr)) (MState b a g)
      (MState (rev num ++ b) r g') ->
  a = num ++ r -> head_is (is_digit db) num = true.
Proof.
  unfold seqs. cbn [fold_right]. intros H Ea.
  apply run_seq_inv in H. destruct H as (m1 & H1 & H).
  apply run_seq_inv in H. destruct H as (m2 & H2 & H).
  apply run_bnd_inv in H1. destruct H1 as [-> _].
  apply run_rep_inv in H2. destruct H2 as (ds & t1 & E1 & Hl & Hds & ->).
  destruct (run_split db _ _ _ H) as (s2 & E2 & _).
  cbn [ahead behind caps] in *. subst t1. rewrite Ea in E1.
  rewrite app_assoc in E1. apply app_inv_tail in E1. subst num.
  destruct ds as [|c ds]; [simpl in Hl; lia|]. simpl in *.
  apply andb_prop in Hds. tauto.
Qed.

Lemma tete3_digit b a g num r g' :
  run db (seqs tete3) (MState b a g) (MState (rev num ++ b) r g') ->
  a = num ++ r -> head_is (is_digit db) num = true.
Proof.
  intros H Ea. apply tete3_inv in H.
  destruct H as (_ & d & ds & t & E & Hd & _ & _ & Est).
  cbn [ahead behind caps] in *. inversion Est as [[E1 E2 E3]]; clear Est.
  subst t. rewrite Ea in E.
  change (d :: ds ++ r) with ((d :: ds) ++ r) in E.
  apply app_inv_tail in E. subst num. simpl.
  apply digit_ascii. apply un_a_neuf_digit. exact Hd.
Qed.

Lemma pev_sobre m tok :
  Forall2 point_en_virgule m tok ->
  (forall c, In c m -> sobre c = true) -> forall c, In c tok -> sobre c = true.
Proof.
  induction 1 as [|a c m tok Hp _ IH]; intros Hm x Hx; [destruct Hx|].
  destruct Hx as [<-|Hx].
  - destruct Hp as [->|[_ ->]]; [apply Hm; left; reflexivity|reflexivity].
  - apply IH; [|exact Hx]. intros y Hy. apply Hm. right. exact Hy.
Qed.

(** The tokens of rules 1, 2, 3 and 5, and what rules 1 and 2 make of them. *)
Lemma quantity_token_ok fr T m :
  forallb sobre T = true ->
  (forall b a g num r g',
      run db (seqs fr) (MState b a g) (MState (rev num ++ b) r g') ->
      a = num ++ r -> head_is (is_digit db) num = true) ->
  In m (re_findall db (seqs (fr ++ fin_unite)) T) ->
  jeton_ok m = true /\ jeton_ok (normaliser_decimale db m) = true.
Proof.
  intros HS Hfr Hm. rewrite forallb_forall in HS.
  unfold re_findall in Hm. apply in_map_iff in Hm.
  destruct Hm as (h & <- & Hh).
  destruct (hit_infix _ _ _ Hh) as (p0 & q0 & ET).
  assert (Hin : forall c, In c (hit_text h) -> sobre c = true).
  { intros c Hc. apply HS. rewrite ET, !in_app_iff. auto. }
  apply hits_attempt in Hh. destruct Hh as (pre & rest & must & _ & Ha).
  apply quantity_shape in Ha.
  destruct Ha as (num & ws & un & post & g & Er & Eh & Hr & Hws & Hun & _).
  pose proof (Hfr _ _ _ _ _ _ Hr Er) as Hd.
  destruct (unite_alnum un Hun) as [Hne Hal].
  rewrite Eh in *.
  destruct num as [|c num]; [discriminate|]. simpl in Hd.
  assert (Hc : ascii_digit c = true).
  { rewrite <- (sobre_digit db); [exact Hd|]. apply Hin. left. reflexivity. }
  split.
  - apply jeton_ok_intro; [apply digit_alnum; exact Hc| |exact Hin].
    rewrite rev_number_unit. apply head_is_rev_all; auto.
  - destruct (normaliser_keeps_spaces db (c :: num) ws un Hws Hun)
      as (num' & -> & HF).
    pose proof (normaliser_pointwise db ((c :: num) ++ ws ++ un)) as HP.
    inversion HF as [|? c' ? n1 Hcc HF']; subst.
    assert (c' = c).
    { destruct Hcc as [?|[E _]]; [assumption|]. subst c. discriminate. }
    subst c'. apply jeton_ok_intro.
    + simpl. apply digit_alnum. exact Hc.
    + rewrite rev_number_unit. apply head_is_rev_all; auto.
    + intros x Hx. apply in_app_or in Hx. destruct Hx as [Hx|Hx].
      * apply (pev_sobre (c :: num) (c :: n1) HF); [|exact Hx].
        intros y Hy. apply Hin. apply in_or_app. auto.
      * apply Hin. apply in_or_app. auto.
Qed.

Lemma jeton4_ok T h :
  forallb sobre T = true -> In h (hits db pattern4 T) ->
  jeton_ok (jeton4 h) = true.
Proof.
  intros HS Hh. rewrite forallb_forall in HS.
  destruct (hit_infix _ _ _ Hh) as (p0 & q0 & ET).
  apply hits_attempt in Hh. destruct Hh as (pre & rest & must & _ & Ha).
  apply pattern4_shape in Ha.
  destruct Ha as (lead & d & ws & un & post & _ & Eh & _ & Hd & _ & Hun & _ & G1 & G2).
  unfold jeton4. rewrite G1, G2. destruct (unite_alnum un Hun) as [Hne Hal].
  apply jeton_ok_intro.
  - simpl. apply un_a_neuf_digit. exact Hd.
  - change (rev ([d] ++ un)) with (rev un ++ [d]).
    apply head_is_rev_all; auto.
  - intros c Hc. apply HS. rewrite ET, Eh, !in_app_iff.
    apply in_app_or in Hc. tauto.
Qed.

Lemma fraction_ok T m :
  forallb sobre T = true -> In m (re_findall db pattern6 T) ->
  jeton_ok m = true.
Proof.
  intros HS Hm. rewrite forallb_forall in HS.
  unfold re_findall in Hm. apply in_map_iff in Hm.
  destruct Hm as (h & <- & Hh).
  destruct (hit_infix _ _ _ Hh) as (p0 & q0 & ET).
  assert (Hin : forall c, In c (hit_text h) -> sobre c = true).
  { intros c Hc. apply HS. rewrite ET, !in_app_iff. auto. }
  apply hits_attempt in Hh. destruct Hh as (pre & rest & must & _ & Ha).
  apply attempt_sound in Ha. destruct Ha as (st' & Hr & Ea & _ & _ & _).
  unfold pattern6, seqs in Hr. cbn [fold_right] in Hr.
  apply run_seq_inv in Hr. destruct Hr as (m1 & H1 & Hr).
  apply run_seq_inv in Hr. destruct Hr as (m2 & H2 & Hr).
  apply run_seq_inv in Hr. destruct Hr as (m3 & H3 & Hr).
  apply run_seq_inv in Hr. destruct Hr as (m4 & H4 & Hr).
  apply run_seq_inv in Hr. destruct Hr as (m5 & H5 & Hr).
  apply run_eps_inv in Hr. subst m5.
  apply run_bnd_inv in H1. destruct H1 as [-> _].
  apply run_rep_inv in H2. destruct H2 as (s1 & t1 & E1 & L1 & D1 & ->).
  apply run_sym_inv in H3. destruct H3 as (x & t2 & E2 & Hx & ->).
  apply run_rep_inv in H4. destruct H4 as (s2 & t3 & E3 & L2 & D2 & ->).
  apply run_bnd_inv in H5. destruct H5 as [-> _].
  cbn [ahead behind caps] in *. subst t1 t2.
  assert (Eh : hit_text h = s1 ++ [x] ++ s2).
  { rewrite E1 in Ea.
    change (s1 ++ x :: s2 ++ t3) with (s1 ++ [x] ++ s2 ++ t3) in Ea.
    rewrite !app_assoc in Ea. apply app_inv_tail in Ea.
    rewrite <- !app_assoc in Ea. auto. }
  rewrite Eh in *.
  assert (Hdig : forall s, (forall c, In c s -> In c (s1 ++ [x] ++ s2)) ->
                 forallb (cls_test db Digit) s = true ->
                 forall c, In c s -> ascii_alnum c = true).
  { intros s Hsub Hs c Hc. rewrite forallb_forall in Hs.
    apply digit_alnum. rewrite <- (sobre_digit db); [apply Hs; exact Hc|].
    apply Hin, Hsub, Hc. }
  apply jeton_ok_intro; [| |exact Hin].
  - apply head_is_all; [destruct s1; [simpl in L1; lia|discriminate]|].
    apply Hdig; [|exact D1]. intros c Hc. apply in_or_app. auto.
  - rewrite rev_number_unit. apply head_is_rev_all.
    + destruct s2; [simpl in L2; lia|discriminate].
    + apply Hdig; [|exact D2]. intros c Hc. rewrite !in_app_iff. auto.
Qed.

(** Every token of the quantity list of a sanitized text has alphanumeric
    ends and sanitized characters. *)
Lemma quantites_ok t gvs :
  sanitized t = true -> extraire_grammage_volume db t = Some gvs ->
  forall gv, In gv gvs -> jeton_ok gv = true.
Proof.
  intros Ht E gv Hgv.
  destruct (extraction_structure db t) as (r6 & Hi & _ & E').
  rewrite E in E'. inversion E'; subst gvs. clear E E'.
  apply (proj1 (proj1 (proj2 (dedoublonner_spec _)) gv)) in Hgv.
  destruct (sanitized_upper db t Ht) as [EU HS]. rewrite EU in *.
  set (T := map ascii_upper t) in *.
  repeat (apply in_app_or in Hgv; destruct Hgv as [Hgv|Hgv]).
  - apply in_map_iff in Hgv. destruct Hgv as (m & <- & Hm).
    apply (quantity_token_ok tete1 T m HS); [|exact Hm].
    intros. eapply tete_digit; eauto.
  - apply in_map_iff in Hgv. destruct Hgv as (m & <- & Hm).
    apply (quantity_token_ok tete2 T m HS); [|exact Hm].
    intros. eapply tete_digit; eauto.
  - apply (quantity_token_ok tete3 T gv HS); [|exact Hgv].
    intros. eapply tete3_digit; eauto.
  - apply in_map_iff in Hgv. destruct Hgv as (h & <- & Hh).
    apply (jeton4_ok T h HS Hh).
  - apply (quantity_token_ok tete5 T gv HS); [|exact Hgv].
    intros. eapply tete_digit; eauto.
  - apply (fraction_ok T gv HS). apply Hi. exact Hgv.
Qed.

Lemma jeton_ok_retire tok s :
  jeton_ok tok = true -> forallb sobre s = true ->
  retire tok [] s (retirer db tok s) /\ forallb sobre (retirer db tok s) = true.
Proof.
  intros Hk Hs. unfold jeton_ok in Hk. apply andb_prop in Hk.
  destruct Hk as [Hb Hc].
  assert (Hr : retire tok [] s (retirer db tok s)).
  { apply retirer_retire; auto. rewrite forallb_forall in *.
    intros c Hx. apply sobre_ascii. auto. }
  split; [exact Hr|]. rewrite forallb_forall in *.
  intros c Hx. apply Hs. eapply retire_incl; eauto.
Qed.

Lemma retirer_grammages_chain gvs : forall s,
  forallb sobre s = true -> (forall gv, In gv gvs -> jeton_ok gv = true) ->
  retire_tous
    (flat_map (fun gv => [gv; replace_char (ch ",") (ch ".") gv]) gvs)
    s (retirer_grammages db gvs s).
Proof.
  unfold retirer_grammages.
  induction gvs as [|gv gvs IH]; intros s Hs Hok; cbn [flat_map fold_left app].
  - constructor.
  - assert (Hgv : jeton_ok gv = true) by (apply Hok; left; reflexivity).
    destruct (jeton_ok_retire gv s Hgv Hs) as [R1 S1].
    destruct (jeton_ok_retire _ _ (jeton_ok_replace gv Hgv) S1) as [R2 S2].
    econstructor; [exact R1|]. econstructor; [exact R2|].
    apply IH; [exact S2|]. intros x Hx. apply Hok. right. exact Hx.
Qed.

End Tokens.

Lemma marque_jeton_ok m : marque_valide m = true -> jeton_ok m = true.
Proof.
  intros H. destruct (marque_valide_chars m H) as (Hne & _ & Hch).
  apply jeton_ok_intro.
  - rewrite <- (app_nil_r m). apply head_is_all; [exact Hne|].
    intros c Hc. apply Hch. exact Hc.
  - rewrite <- (app_nil_r (rev m)). apply head_is_rev_all; [exact Hne|].
    intros c Hc. apply Hch. exact Hc.
  - intros c Hc. apply Hch. exact Hc.
Qed.

(** * The properties of the specification *)

(** C7. Sanitization is idempotent: sanitizing the result of the sanitizer
    gives that result again, for every string and whatever the Unicode tables
    say beyond ASCII. *)
Theorem sanitize_idempotent (db : UnicodeData) (x : ustring) :
  supprimer_accents_et_caracteres_speciaux db
    (supprimer_accents_et_caracteres_speciaux db x) =
  supprimer_accents_et_caracteres_speciaux db x.
Proof. apply sanitize_fixed. apply sanitize_sanitized. Qed.

(** C5. For every label the extractor returns a list without duplicates, in
    the order of first discovery across the six rules.  The discoveries are,
    in this order: the matches of rules 1 and 2 in the order of the text,
    their decimal point made a comma; the matches of rule 3; the tokens of
    rule 4; the matches of rule 5; and of the bare fractions of rule 6, in
    the order of the text, exactly those that no token discovered before
    contains.  The list returned has the elements of this sequence, each
    once, at the rank of its first occurrence there. *)
Theorem quantities_unique_first_seen (db : UnicodeData) (texte : ustring) :
  let T := str_upper db texte in
  let r15 :=
    map (normaliser_decimale db) (re_findall db pattern1 T) ++
    map (normaliser_decimale db) (re_findall db pattern2 T) ++
    re_findall db pattern3 T ++
    map jeton4 (hits db pattern4 T) ++
    re_findall db pattern5 T in
  exists r6 gvs,
    fractions_gardees r15 (re_findall db pattern6 T) r6 /\
    (forall r6', fractions_gardees r15 (re_findall db pattern6 T) r6' ->
                 r6' = r6) /\
    incl r6 (re_findall db pattern6 T) /\
    let bruts :=
      map (normaliser_decimale db) (re_findall db pattern1 T) ++
      map (normaliser_decimale db) (re_findall db pattern2 T) ++
      re_findall db pattern3 T ++
      map jeton4 (hits db pattern4 T) ++
      re_findall db pattern5 T ++ r6 in
    grammages_volumes_bruts db texte = Some bruts /\
    extraire_grammage_volume db texte = Some gvs /\
    NoDup gvs /\
    (forall x, In x gvs <-> In x bruts) /\
    StronglySorted lt (map (fun x => first_index x bruts) gvs).
Proof.
  intros T r15.
  destruct (ajouter_fractions_gardees (re_findall db pattern6 T) r15)
    as (r6 & E & Hfg).
  assert (Eb : grammages_volumes_bruts db texte =
               Some (map (normaliser_decimale db) (re_findall db pattern1 T) ++
                     map (normaliser_decimale db) (re_findall db pattern2 T) ++
                     re_findall db pattern3 T ++
                     map jeton4 (hits db pattern4 T) ++
                     re_findall db pattern5 T ++ r6)).
  { unfold grammages_volumes_bruts. fold T. rewrite regles_1_a_5_eq.
    fold r15. rewrite E. unfold r15. rewrite <- !app_assoc. reflexivity. }
  exists r6. eexists. split; [exact Hfg|].
  split; [apply fractions_gardees_unique; exact Hfg|].
  split; [eapply fractions_gardees_incl; exact Hfg|]. cbv zeta.
  split; [exact Eb|].
  split; [unfold extraire_grammage_volume; rewrite Eb; reflexivity|].
  apply dedoublonner_spec.
Qed.

(** C6. A bare fraction found by rule 6 is appended to the running list
    exactly when no token already in that list (tokens of rules 1 to 5, then
    the fractions kept so far) contains it as a substring; otherwise the list
    is left as it is. *)
Theorem bare_fraction_kept_unless_contained (db : UnicodeData) (texte : ustring) :
  let T := str_upper db texte in
  exists r15,
    regles_1_a_5 db T = Some r15 /\
    grammages_volumes_bruts db texte =
      Some (ajouter_fractions (re_findall db pattern6 T) r15) /\
    forall ms1 m ms2,
      re_findall db pattern6 T = ms1 ++ m :: ms2 ->
      let R := ajouter_fractions ms1 r15 in
      (exists kept, R = r15 ++ kept /\ incl kept ms1) /\
      ((forall gv, In gv R -> ~ Infix m gv) ->
       ajouter_fractions (ms1 ++ [m]) r15 = R ++ [m]) /\
      ((exists gv, In gv R /\ Infix m gv) ->
       ajouter_fractions (ms1 ++ [m]) r15 = R).
Proof.
  intros T. unfold grammages_volumes_bruts. fold T. rewrite regles_1_a_5_eq.
  eexists. split; [reflexivity|]. split; [reflexivity|].
  intros ms1 m ms2 _. split; [apply ajouter_fractions_prefix|].
  rewrite ajouter_fractions_snoc. cbv zeta.
  set (R := ajouter_fractions ms1 _).
  destruct (existsb (fun gv => is_infix m gv) R) eqn:E; split; auto.
  - intros H. apply existsb_exists in E. destruct E as (gv & Hgv & Hi).
    apply is_infix_spec in Hi. destruct (H gv Hgv Hi).
  - intros (gv & Hgv & Hi). apply is_infix_spec in Hi.
    assert (existsb (fun gv => is_infix m gv) R = true)
      by (apply existsb_exists; eauto).
    congruence.
Qed.

(** The order of the list decides, not the place in the text: CARREFOUR
    comes first in "CARREFOUR CRF", CRF comes first in the list. *)
Lemma marque_par_ordre_de_liste (db : UnicodeData) :
  extraire_marque db init (u "CARREFOUR CRF") = Some (u "CRF").
Proof. vm_compute. reflexivity. Qed.

(** C3. On a sanitized text, [extraire_marque] returns the first brand of
    the configured list, in list order, that occurs in the text as a whole
    word (case left aside), whatever the places of the brands in the text;
    it returns nothing exactly when no configured brand occurs so. *)
Theorem brand_first_in_list_order (db : UnicodeData) (self : TraitementLibelles)
    (t : ustring) :
  sanitized t = true ->
  forallb marque_valide (marques self) = true ->
  (forall m,
      extraire_marque db self t = Some m <->
      exists l1 l2,
        marques self = l1 ++ m :: l2 /\ occurs_as_word_ci m t /\
        forall m', In m' l1 -> ~ occurs_as_word_ci m' t) /\
  (extraire_marque db self t = None <->
   forall m, In m (marques self) -> ~ occurs_as_word_ci m t).
Proof.
  intros Ht Hm. rewrite forallb_forall in Hm. unfold extraire_marque.
  assert (Hf : forall m, In m (marques self) ->
            contient_mot db m (str_upper db t) = false <->
            ~ occurs_as_word_ci m t).
  { intros m Hin. rewrite <- (contient_mot_occurs db m t Ht (Hm m Hin)).
    destruct (contient_mot db m (str_upper db t)); split; congruence. }
  split.
  - intros m. rewrite find_some_iff. split.
    + intros (l1 & l2 & E & Hc & Hn). exists l1, l2. split; [exact E|].
      assert (Hin : In m (marques self))
        by (rewrite E; apply in_or_app; right; left; reflexivity).
      split; [apply (contient_mot_occurs db m t Ht (Hm m Hin)); exact Hc|].
      intros m' Hm'. apply Hf; [rewrite E; apply in_or_app; auto|auto].
    + intros (l1 & l2 & E & Hc & Hn). exists l1, l2. split; [exact E|].
      assert (Hin : In m (marques self))
        by (rewrite E; apply in_or_app; right; left; reflexivity).
      split; [apply (contient_mot_occurs db m t Ht (Hm m Hin)); exact Hc|].
      intros m' Hm'. apply Hf; [rewrite E; apply in_or_app; auto|auto].
  - rewrite find_none_iff. split; intros H m Hin; apply (Hf m Hin); auto.
Qed.

Lemma brand_first_in_list_order_witness :
  extraire_marque latin_ucd init (u "CARREFOUR CRF") = Some (u "CRF") <->
  exists l1 l2,
    marques init = l1 ++ u "CRF" :: l2 /\
    occurs_as_word_ci (u "CRF") (u "CARREFOUR CRF") /\
    forall m', In m' l1 -> ~ occurs_as_word_ci m' (u "CARREFOUR CRF").
Proof.
  apply (brand_first_in_list_order latin_ucd init (u "CARREFOUR CRF"));
    vm_compute; reflexivity.
Defined.

(** C1. The label "Désodorisant 2.5ml 4scent" is sanitized to
    "Desodorisant 2.5ml 4scent"; its quantity list is ["2,5ML"]; no brand is
    found; the product name keeps the digit 4; the final label is
    "DESODORISANT 4SCENT 2,5ML".  The two facts of Unicode used are that the
    canonical decomposition of U+00E9 is e followed by U+0301, and that
    U+0301 is a non-spacing mark. *)
Theorem desodorisant_label (db : UnicodeData) :
  ucd_nfd db desodorisant = desodorisant_nfd ->
  ucd_Mn db 769 = true ->
  let nettoye := supprimer_accents_et_caracteres_speciaux db desodorisant in
  nettoye = u "Desodorisant 2.5ml 4scent" /\
  extraire_grammage_volume db nettoye = Some [u "2,5ML"] /\
  extraire_marque db init nettoye = None /\
  nom_du_produit db nettoye None [u "2,5ML"] = u "Desodorisant 4scent" /\
  traiter_libelle db init desodorisant = Some (u "DESODORISANT 4SCENT 2,5ML").
Proof.
  intros Hnfd HMn.
  assert (E : supprimer_accents_et_caracteres_speciaux db desodorisant =
              u "Desodorisant 2.5ml 4scent").
  { unfold supprimer_accents_et_caracteres_speciaux, normalize_NFD.
    change (forallb is_ascii desodorisant) with false. cbv iota. rewrite Hnfd.
    assert (F : filter (fun char => negb (category_Mn db char)) desodorisant_nfd =
                u "Desodorisant 2.5ml 4scent").
    { cbv -[ucd_Mn]. rewrite HMn. reflexivity. }
    rewrite F. vm_compute. reflexivity. }
  unfold traiter_libelle. cbv zeta. rewrite E.
  repeat split; vm_compute; reflexivity.
Qed.

Lemma desodorisant_label_witness :
  traiter_libelle latin_ucd init desodorisant =
  Some (u "DESODORISANT 4SCENT 2,5ML").
Proof.
  apply (desodorisant_label latin_ucd); vm_compute; reflexivity.
Defined.

(** C4. Rule 4 takes a digit 1-9 (then whitespace, then a unit) only where
    the digit stands at the start of the text or after a whitespace
    character.  On "5 BQ ALU 1,5L PROFONDE" rule 4 finds nothing, the
    quantity list is ["1,5L"] and the final label is
    "5 BQ ALU PROFONDE 1,5L". *)
Theorem rule4_context_guard (db : UnicodeData) (t : ustring) :
  let T := str_upper db t in
  (forall tup,
      In tup (re_findall_groups db 2 pattern4 T) ->
      exists pre d ws un post,
        T = pre ++ [d] ++ ws ++ un ++ post /\ tup = [[d]; un] /\
        (pre = [] \/ head_is is_space (rev pre) = true) /\
        in_range (ch "1") (ch "9") d = true /\
        forallb is_space ws = true /\ In un unites /\
        head_is (is_word db) post = false) /\
  re_findall_groups db 2 pattern4 (str_upper db barquette) = [] /\
  extraire_grammage_volume db barquette = Some [u "1,5L"] /\
  traiter_libelle db init barquette = Some (u "5 BQ ALU PROFONDE 1,5L").
Proof.
  intros T. split; [|repeat split; vm_compute; reflexivity].
  intros tup Hin. unfold re_findall_groups in Hin. apply in_map_iff in Hin.
  destruct Hin as (h & <- & Hh). apply hits_attempt in Hh.
  destruct Hh as (pre0 & rest & must & ET & Ha). apply pattern4_shape in Ha.
  destruct Ha as (lead & d & ws & un & post & Er & _ & Hl & Hd & Hws & Hun & Hp & G1 & G2).
  exists (pre0 ++ lead), d, ws, un, post. cbn [map seq]. rewrite G1, G2.
  split; [rewrite ET, Er, <- app_assoc; reflexivity|].
  split; [reflexivity|]. split; [|auto].
  destruct Hl as [[-> Hb]|(w & -> & Hw)].
  - left. rewrite app_nil_r. apply (f_equal (@rev cp)) in Hb.
    rewrite rev_involutive in Hb. exact Hb.
  - right. rewrite rev_app_distr. exact Hw.
Qed.

(** C10. The token of rule 4 is the digit followed at once by the unit: the
    whitespace matched between them is not in it ("4 G" gives "4G").  The
    tokens of rules 1, 2, 3 and 5 keep the whitespace matched between the
    number and the unit ("250 G" stays "250 G"); rules 1 and 2 change
    nothing but points of the number into commas. *)
Theorem rule4_drops_whitespace_others_keep (db : UnicodeData) (t : ustring) :
  let T := str_upper db t in
  regles_1_a_5 db T =
    Some (map (normaliser_decimale db) (re_findall db pattern1 T) ++
          map (normaliser_decimale db) (re_findall db pattern2 T) ++
          re_findall db pattern3 T ++
          map jeton4 (hits db pattern4 T) ++
          re_findall db pattern5 T) /\
  (forall h,
      In h (hits db pattern4 T) ->
      exists lead d ws un,
        hit_text h = lead ++ [d] ++ ws ++ un /\
        forallb is_space lead = true /\ forallb is_space ws = true /\
        In un unites /\ jeton4 h = [d] ++ un) /\
  (forall tete m,
      tete = tete1 /\ In m (re_findall db pattern1 T) \/
      tete = tete2 /\ In m (re_findall db pattern2 T) ->
      exists num ws un post b g num',
        m = num ++ ws ++ un /\
        run db (seqs tete) (MState b (m ++ post) [])
               (MState (rev num ++ b) (ws ++ un ++ post) g) /\
        forallb is_space ws = true /\ In un unites /\
        normaliser_decimale db m = num' ++ ws ++ un /\
        Forall2 point_en_virgule num num') /\
  (forall tete m,
      tete = tete3 /\ In m (re_findall db pattern3 T) \/
      tete = tete5 /\ In m (re_findall db pattern5 T) ->
      exists num ws un post b g,
        m = num ++ ws ++ un /\
        run db (seqs tete) (MState b (m ++ post) [])
               (MState (rev num ++ b) (ws ++ un ++ post) g) /\
        forallb is_space ws = true /\ In un unites) /\
  extraire_grammage_volume db (u "SUCRE 4 G") = Some [u "4G"] /\
  extraire_grammage_volume db (u "LAIT 2.5 L") = Some [u "2,5 L"] /\
  extraire_grammage_volume db (u "CHIPS 6X30 G") = Some [u "6X30 G"] /\
  extraire_grammage_volume db (u "FARINE 250 G") = Some [u "250 G"] /\
  extraire_grammage_volume db (u "BEURRE 1/2 KG") = Some [u "1/2 KG"].
Proof.
  intros T. split; [apply regles_1_a_5_eq|].
  assert (Hshape : forall tete m,
            In m (re_findall db (seqs (tete ++ fin_unite)) T) ->
            exists num ws un post b g,
              m = num ++ ws ++ un /\
              run db (seqs tete) (MState b (m ++ post) [])
                     (MState (rev num ++ b) (ws ++ un ++ post) g) /\
              forallb is_space ws = true /\ In un unites).
  { intros tete m Hm. unfold re_findall in Hm. apply in_map_iff in Hm.
    destruct Hm as (h & <- & Hh). apply hits_attempt in Hh.
    destruct Hh as (pre & rest & must & _ & Ha). apply quantity_shape in Ha.
    destruct Ha as (num & ws & un & post & g & Er & Eh & Hr & Hws & Hun & _).
    exists num, ws, un, post, (rev pre), g. rewrite Eh, <- !app_assoc, <- Er.
    auto. }
  split; [|split; [|split; [|repeat split; vm_compute; reflexivity]]].
  - intros h Hh. apply hits_attempt in Hh.
    destruct Hh as (pre & rest & must & _ & Ha). apply pattern4_shape in Ha.
    destruct Ha as (lead & d & ws & un & post & _ & Eh & Hl & _ & Hws & Hun & _ & G1 & G2).
    exists lead, d, ws, un. unfold jeton4. rewrite G1, G2.
    repeat split; auto.
    destruct Hl as [[-> _]|(w & -> & Hw)]; [reflexivity|].
    simpl. rewrite Hw. reflexivity.
  - intros tete m H.
    assert (Hm : In m (re_findall db (seqs (tete ++ fin_unite)) T))
      by (destruct H as [[-> H]|[-> H]]; exact H).
    destruct (Hshape tete m Hm) as (num & ws & un & post & b & g & -> & Hr & Hws & Hun).
    destruct (normaliser_keeps_spaces db num ws un Hws Hun) as (num' & En & HF).
    exists num, ws, un, post, b, g, num'. auto 10.
  - intros tete m H. apply Hshape. destruct H as [[-> H]|[-> H]]; exact H.
Qed.

(** C9. The core operations are total.  The only partial steps of the
    script are the two indexings [match[0]] and [match[1]] of rule 4, and
    they always find their element: the extractor and the pipeline return a
    value for every string.  The sanitizer, the brand lookup, the reduction
    of the name and the assembly are total functions.  Without a match the
    result is empty: no brand, no quantity; and on the empty string every
    stage returns its empty value. *)
Theorem core_operations_total (db : UnicodeData) (self : TraitementLibelles)
    (x : ustring) :
  (forall tup,
      In tup (re_findall_groups db 2 pattern4 (str_upper db x)) ->
      exists m0 m1, nth_error tup 0 = Some m0 /\ nth_error tup 1 = Some m1) /\
  (exists gvs, extraire_grammage_volume db x = Some gvs) /\
  (exists nettoye marque gvs nom final,
      supprimer_accents_et_caracteres_speciaux db x = nettoye /\
      extraire_marque db self nettoye = marque /\
      extraire_grammage_volume db nettoye = Some gvs /\
      nom_du_produit db nettoye marque gvs = nom /\
      assembler db marque nom gvs = final /\
      traiter_libelle db self x = Some final) /\
  ((forall m, In m (marques self) ->
              contient_mot db m (str_upper db x) = false) ->
   extraire_marque db self x = None) /\
  ((forall p, In p [pattern1; pattern2; pattern3; pattern4; pattern5; pattern6] ->
              hits db p (str_upper db x) = []) ->
   extraire_grammage_volume db x = Some []) /\
  supprimer_accents_et_caracteres_speciaux db [] = [] /\
  extraire_marque db self [] = None /\
  extraire_grammage_volume db [] = Some [] /\
  nom_du_produit db [] None [] = [] /\
  assembler db None [] [] = [] /\
  traiter_libelle db self [] = Some [].
Proof.
  assert (Hgv : forall y, exists gvs, extraire_grammage_volume db y = Some gvs).
  { intros y. unfold extraire_grammage_volume, grammages_volumes_bruts.
    rewrite regles_1_a_5_eq. eauto. }
  assert (Hvide : extraire_marque db self [] = None).
  { unfold extraire_marque. apply find_none_iff. intros m _. reflexivity. }
  split; [|split; [apply Hgv|split; [|split; [|split]]]].
  - intros tup Hin. unfold re_findall_groups in Hin. apply in_map_iff in Hin.
    destruct Hin as (h & <- & _). simpl. eauto.
  - destruct (Hgv (supprimer_accents_et_caracteres_speciaux db x)) as [gvs E].
    unfold traiter_libelle. rewrite E. do 5 eexists.
    repeat split; try reflexivity. exact E.
  - intros H. unfold extraire_marque. apply find_none_iff. exact H.
  - intros H. unfold extraire_grammage_volume, grammages_volumes_bruts.
    rewrite regles_1_a_5_eq. unfold re_findall.
    rewrite !H by (simpl; auto 10). reflexivity.
  - unfold traiter_libelle.
    change (supprimer_accents_et_caracteres_speciaux db []) with (@nil cp).
    rewrite Hvide. repeat split; reflexivity.
Qed.

(** C2, as the code has it.  On a sanitized text, rule 3 captures exactly
    the whole words made of a number written with two or more digits, the
    first of them 1-9 (a number from 10 up, without a leading zero), an
    optional space and a unit of KG, G, L, ML, CL. *)
Theorem rule3_integers_from_ten (db : UnicodeData) (t : ustring) :
  sanitized t = true ->
  forall tok,
    In tok (re_findall db pattern3 (str_upper db t)) <->
    mot_entier_unite (in_range (ch "1") (ch "9")) tok (str_upper db t).
Proof.
  intros Ht tok. destruct (sanitized_upper db t Ht) as [-> HS].
  apply rule3_exact; [exact HS|]. rewrite espaces_simples_upper.
  unfold sanitized in Ht. repeat (apply andb_prop in Ht; destruct Ht as [Ht ?]).
  assumption.
Qed.

Lemma rule3_integers_from_ten_witness :
  In (u "250 G")
     (re_findall latin_ucd pattern3 (str_upper latin_ucd (u "Farine 250 g"))) <->
  mot_entier_unite (in_range (ch "1") (ch "9")) (u "250 G")
                   (str_upper latin_ucd (u "Farine 250 g")).
Proof.
  apply (rule3_integers_from_ten latin_ucd (u "Farine 250 g")).
  vm_compute. reflexivity.
Defined.

(** C2, as the specification states it, fails on a leading zero: in the sanitized
    text "05G" the token "05G" is a whole word made of an integer of two
    digits and a unit, and rule 3 captures nothing. *)
Lemma rule3_leading_zero_counterexample :
  sanitized (u "05G") = true /\
  mot_entier_unite ascii_digit (u "05G") (str_upper latin_ucd (u "05G")) /\
  ~ In (u "05G")
       (re_findall latin_ucd pattern3 (str_upper latin_ucd (u "05G"))).
Proof.
  split; [reflexivity|]. split.
  - exists [], [], (ch "0"), [ch "5"], [], (u "G").
    repeat split; try reflexivity; try discriminate; auto.
    right. left. reflexivity.
  - vm_compute. tauto.
Qed.

(** C8, as the code has it.  The reduction of the name works token by
    token: the brand first, then each quantity token in its comma spelling
    and in its point spelling.  Every token begins and ends with an
    alphanumeric character, and each step takes out of the text the previous
    step left only occurrences of its token that stand between
    non-alphanumeric characters or the ends of that text; every other
    character stays in its place; the product name is what remains, its
    whitespace collapsed. *)
Theorem name_reduction_stepwise (db : UnicodeData) (self : TraitementLibelles)
    (t : ustring) :
  sanitized t = true ->
  forallb marque_valide (marques self) = true ->
  exists gvs s',
    extraire_grammage_volume db t = Some gvs /\
    (forall tok,
        In tok (jetons_a_retirer (extraire_marque db self t) gvs) ->
        bords_alnum tok = true) /\
    retire_tous (jetons_a_retirer (extraire_marque db self t) gvs) t s' /\
    nom_du_produit db t (extraire_marque db self t) gvs =
      normaliser_espaces db s'.
Proof.
  intros Ht Hm. rewrite forallb_forall in Hm.
  destruct (extraction_structure db t) as (r6 & _ & _ & E).
  pose proof (quantites_ok db t _ Ht E) as Hok.
  set (gvs := dedoublonner _) in *. clearbody gvs.
  pose proof (sanitized_sobre t Ht) as Hs.
  assert (Hmarque : forall m, extraire_marque db self t = Some m ->
                    jeton_ok m = true).
  { intros m Hf. unfold extraire_marque in Hf. apply find_some in Hf.
    apply marque_jeton_ok, Hm. tauto. }
  exists gvs, (retirer_grammages db gvs
                 (retirer_marque db (extraire_marque db self t) t)).
  split; [exact E|]. split; [|split; [|reflexivity]].
  - intros tok Hin. unfold jetons_a_retirer in Hin.
    assert (Hj : jeton_ok tok = true).
    { apply in_app_or in Hin. destruct Hin as [Hin|Hin].
      - destruct (extraire_marque db self t) as [[|c m]|] eqn:Em;
          try contradiction.
        destruct Hin as [<-|[]]. apply Hmarque. reflexivity.
      - apply in_flat_map in Hin. destruct Hin as (gv & Hgv & [<-|[<-|[]]]).
        + apply Hok. exact Hgv.
        + apply jeton_ok_replace, Hok. exact Hgv. }
    unfold jeton_ok in Hj. apply andb_prop in Hj. tauto.
  - unfold jetons_a_retirer, retirer_marque.
    destruct (extraire_marque db self t) as [[|c m]|] eqn:Em; cbn [app].
    + apply retirer_grammages_chain; assumption.
    + destruct (jeton_ok_retire db (c :: m) t (Hmarque _ eq_refl) Hs) as [R1 S1].
      econstructor; [exact R1|]. apply retirer_grammages_chain; assumption.
    + apply retirer_grammages_chain; assumption.
Qed.

Lemma name_reduction_stepwise_witness :
  exists gvs s',
    extraire_grammage_volume latin_ucd chips_crf = Some gvs /\
    (forall tok,
        In tok (jetons_a_retirer (extraire_marque latin_ucd init chips_crf) gvs) ->
        bords_alnum tok = true) /\
    retire_tous (jetons_a_retirer (extraire_marque latin_ucd init chips_crf) gvs)
                chips_crf s' /\
    nom_du_produit latin_ucd chips_crf
                   (extraire_marque latin_ucd init chips_crf) gvs =
      normaliser_espaces latin_ucd s'.
Proof.
  apply (name_reduction_stepwise latin_ucd init chips_crf);
    vm_compute; reflexivity.
Defined.

(** C8, as the specification states it, fails on "6X30, G 6X30,CRF G".  The brand is
    CRF and the quantity list is ["6X30, G"]; in the sanitized text the
    quantity token occurs once, at the start, and the words "6X30," and "G"
    around the brand are no occurrence of a token.  Taking the occurrences
    of the tokens out of the sanitized text leaves "6X30, G"; the script
    leaves nothing, because the removal of the brand brings "6X30," and " G"
    together and the next step takes them out. *)
Lemma name_reduction_counterexample :
  sanitized chips_crf = true /\
  extraire_marque latin_ucd init chips_crf = Some (u "CRF") /\
  extraire_grammage_volume latin_ucd chips_crf = Some [u "6X30, G"] /\
  normaliser_espaces latin_ucd
    (retirer_occurrences (jetons_a_retirer (Some (u "CRF")) [u "6X30, G"])
       0 [] chips_crf) = u "6X30, G" /\
  nom_du_produit latin_ucd chips_crf (Some (u "CRF")) [u "6X30, G"] = [] /\
  nom_du_produit latin_ucd chips_crf (Some (u "CRF")) [u "6X30, G"] <>
  normaliser_espaces latin_ucd
    (retirer_occurrences (jetons_a_retirer (Some (u "CRF")) [u "6X30, G"])
       0 [] chips_crf).
Proof.
  repeat split; try (vm_compute; reflexivity).
  vm_compute. discriminate.
Qed.

(** * Further properties of the script *)

(** ** The sanitizer *)

Lemma take_while_all p s : forallb p (take_while p s) = true.
Proof.
  induction s as [|c s IH]; simpl; [reflexivity|].
  destruct (p c) eqn:E; simpl; [rewrite E; exact IH|reflexivity].
Qed.

Lemma filter_none {A} (p : A -> bool) l :
  forallb (fun x => negb (p x)) l = true -> filter p l = [].
Proof.
  induction l as [|x l IH]; simpl; [reflexivity|].
  intros H. apply andb_prop in H. destruct H as [Hx Hl].
  apply negb_true_iff in Hx. rewrite Hx. auto.
Qed.

Lemma filter_spaces w : forallb is_space w = true -> filter non_espace w = [].
Proof.
  intros H. apply filter_none. rewrite forallb_forall in *.
  intros c Hc. unfold non_espace. rewrite (H c Hc). reflexivity.
Qed.

Lemma lstrip_filter s : filter non_espace (lstrip s) = filter non_espace s.
Proof.
  induction s as [|c s IH]; [reflexivity|]. cbn [lstrip filter].
  unfold non_espace at 2. destruct (is_space c) eqn:E; [exact IH|].
  cbn [filter negb]. unfold non_espace at 1. rewrite E. reflexivity.
Qed.

Lemma filter_rev {A} (p : A -> bool) l : filter p (rev l) = rev (filter p l).
Proof.
  induction l as [|x l IH]; simpl; [reflexivity|].
  rewrite filter_app, IH. simpl. destruct (p x); simpl;
    [reflexivity|apply app_nil_r].
Qed.

Lemma strip_filter s : filter non_espace (strip s) = filter non_espace s.
Proof.
  unfold strip, rstrip.
  rewrite filter_rev, lstrip_filter, filter_rev, rev_involutive.
  apply lstrip_filter.
Qed.

Section SanitizerMore.
Variable db : UnicodeData.

Lemma collapse_filter a b :
  filter non_espace (flat_map (subst_piece (u " ")) (pieces db espaces 0 b a)) =
  filter non_espace a.
Proof.
  revert a b.
  apply (scan_ind db espaces
    (fun b a ps =>
       filter non_espace (flat_map (subst_piece (u " ")) ps) =
       filter non_espace a)).
  - intros b a h H. rewrite attempt_espaces in H.
    destruct (take_while is_space a); [discriminate|].
    inversion H; subst. simpl. congruence.
  - reflexivity.
  - intros b c t _ IH. cbn [flat_map subst_piece app filter]. rewrite IH.
    reflexivity.
  - intros b a h Ha _ IH. cbn [flat_map subst_piece].
    rewrite filter_app, IH.
    rewrite (attempt_prefix db _ _ _ _ _ Ha) at 2. rewrite filter_app.
    f_equal. rewrite attempt_espaces in Ha.
    assert (Hw : forallb is_space (hit_text h) = true).
    { pose proof (take_while_all is_space a) as Hall.
      destruct (take_while is_space a); [discriminate|].
      inversion Ha; subst. exact Hall. }
    rewrite (filter_spaces _ Hw). reflexivity.
Qed.

Lemma normaliser_espaces_filter s :
  filter non_espace (normaliser_espaces db s) = filter non_espace s.
Proof.
  unfold normaliser_espaces. rewrite strip_filter, re_sub_pieces.
  apply collapse_filter.
Qed.

Lemma permis_interdit x :
  non_espace x && negb (cls_test db caractere_interdit x) = permis x.
Proof.
  unfold non_espace. destruct (permis x) eqn:Hp.
  - rewrite (permis_not_space x Hp), (interdit_permis db x (or_introl Hp)).
    reflexivity.
  - destruct (is_space x) eqn:Hs; [reflexivity|].
    destruct (cls_test db caractere_interdit x) eqn:Hi; [reflexivity|].
    destruct (interdit_false db x Hi); congruence.
Qed.

End SanitizerMore.

(** X1. Whatever the input, the sanitizer returns a text made of letters,
    digits, and the signs , . / + - with single spaces between words and no
    space at either end. *)
Theorem sanitizer_output_is_sanitized (db : UnicodeData) (x : ustring) :
  sanitized (supprimer_accents_et_caracteres_speciaux db x) = true.
Proof. apply sanitize_sanitized. Qed.

(** X2. The texts the sanitizer leaves unchanged are exactly the sanitized
    texts. *)
Theorem sanitizer_fixed_points (db : UnicodeData) (y : ustring) :
  supprimer_accents_et_caracteres_speciaux db y = y <-> sanitized y = true.
Proof.
  split.
  - intros E. rewrite <- E. apply sanitize_sanitized.
  - apply sanitize_fixed.
Qed.

(** X3. The sanitizer neither loses, nor invents, nor reorders a permitted
    character: the characters of its result other than spaces are the
    permitted characters of the decomposed input, in their order.  For an
    ASCII input they are the permitted characters of the input itself. *)
Theorem sanitizer_keeps_permitted_characters (db : UnicodeData) (x : ustring) :
  filter non_espace (supprimer_accents_et_caracteres_speciaux db x) =
    filter permis (normalize_NFD db x) /\
  (forallb is_ascii x = true ->
   filter non_espace (supprimer_accents_et_caracteres_speciaux db x) =
     filter permis x).
Proof.
  assert (H : filter non_espace (supprimer_accents_et_caracteres_speciaux db x) =
              filter permis (normalize_NFD db x)).
  { unfold supprimer_accents_et_caracteres_speciaux.
    rewrite normaliser_espaces_filter, re_sub_sym.
    induction (normalize_NFD db x) as [|c s IH]; [reflexivity|].
    cbn [filter]. destruct (category_Mn db c) eqn:HM; cbn [negb].
    - rewrite IH. destruct (permis c) eqn:Hp; [|reflexivity].
      apply permis_ascii in Hp. unfold category_Mn in HM. rewrite Hp in HM.
      discriminate.
    - cbn [flat_map]. rewrite filter_app, IH. f_equal.
      rewrite <- (permis_interdit db c).
      destruct (cls_test db caractere_interdit c); cbn [negb].
      + rewrite andb_false_r. reflexivity.
      + rewrite andb_true_r. cbn [filter]. destruct (non_espace c); reflexivity. }
  split; [exact H|]. intros Ha. rewrite H. unfold normalize_NFD. rewrite Ha.
  reflexivity.
Qed.

Lemma sanitizer_keeps_permitted_characters_witness :
  filter non_espace
    (supprimer_accents_et_caracteres_speciaux latin_ucd desodorisant) =
    filter permis (normalize_NFD latin_ucd desodorisant) /\
  filter non_espace
    (supprimer_accents_et_caracteres_speciaux latin_ucd barquette) =
    filter permis barquette.
Proof.
  split.
  - apply (proj1 (sanitizer_keeps_permitted_characters latin_ucd desodorisant)).
  - apply (proj2 (sanitizer_keeps_permitted_characters latin_ucd barquette)).
    reflexivity.
Defined.

(** ** The decimal separator of rule 1 *)

Lemma no_point_unchanged (s s' : ustring) :
  Forall2 point_en_virgule s s' -> ~ In (ch ".") s -> s' = s.
Proof.
  intros HF Hn. apply Forall2_unchanged; [exact HF|].
  intros c Hc ->. contradiction.
Qed.

Section Rule1.
Variable db : UnicodeData.

Lemma digit_not_point s :
  forallb (is_digit db) s = true -> ~ In (ch ".") s.
Proof.
  intros H Hin. rewrite forallb_forall in H. apply H in Hin. discriminate.
Qed.

Lemma fin_no_point ws un :
  forallb is_space ws = true -> In un unites -> ~ In (ch ".") (ws ++ un).
Proof.
  intros Hws Hun Hin. apply in_app_or in Hin. destruct Hin as [Hin|Hin].
  - rewrite forallb_forall in Hws. apply Hws in Hin. discriminate.
  - apply (unite_word un Hun) in Hin. discriminate.
Qed.

(** The head of pattern 1: digits, a point or a comma, digits. *)
Lemma tete1_inv b a g num r g' :
  run db (seqs tete1) (MState b a g) (MState (rev num ++ b) r g') ->
  a = num ++ r ->
  exists ds1 sep ds2,
    num = ds1 ++ [sep] ++ ds2 /\ (sep = ch "." \/ sep = ch ",") /\
    ds1 <> [] /\ forallb (is_digit db) ds1 = true /\
    ds2 <> [] /\ forallb (is_digit db) ds2 = true.
Proof.
  unfold tete1, seqs. cbn [fold_right]. intros H Ea.
  apply run_seq_inv in H. destruct H as (m1 & H1 & H).
  apply run_seq_inv in H. destruct H as (m2 & H2 & H).
  apply run_seq_inv in H. destruct H as (m3 & H3 & H).
  apply run_seq_inv in H. destruct H as (m4 & H4 & H).
  apply run_eps_inv in H.
  apply run_bnd_inv in H1. destruct H1 as [-> _].
  apply run_rep_inv in H2. destruct H2 as (ds1 & t1 & E1 & L1 & D1 & ->).
  apply run_sym_inv in H3. destruct H3 as (sep & t2 & E2 & Hsep & ->).
  apply run_rep_inv in H4. destruct H4 as (ds2 & t3 & E3 & L2 & D2 & ->).
  cbn [ahead behind caps] in *. inversion H as [[Eb Er Eg]]. subst t1 t2 t3.
  exists ds1, sep, ds2.
  assert (En : num = ds1 ++ [sep] ++ ds2).
  { rewrite Ea in E1.
    change (ds1 ++ sep :: ds2 ++ r) with (ds1 ++ [sep] ++ ds2 ++ r) in E1.
    rewrite !app_assoc in E1. apply app_inv_tail in E1.
    rewrite <- !app_assoc in E1. exact E1. }
  split; [exact En|]. split.
  - unfold point_ou_virgule in Hsep. cbn [cls_test existsb item_test] in Hsep.
    rewrite orb_false_r in Hsep. apply orb_prop in Hsep.
    destruct Hsep as [Hs|Hs]; apply N.eqb_eq in Hs; auto.
  - repeat split; auto.
    + destruct ds1; [simpl in L1; lia|discriminate].
    + destruct ds2; [simpl in L2; lia|discriminate].
Qed.

Lemma decimale_hit must b a h :
  attempt db decimale_point must b a = Some h ->
  exists g1 g2,
    hit_text h = g1 ++ [ch "."] ++ g2 /\
    forallb (is_digit db) g1 = true /\
    expand decimale_virgule h = g1 ++ [ch ","] ++ g2.
Proof.
  intros H. apply attempt_sound in H.
  destruct H as (st' & Hr & Ea & _ & Hg & _).
  unfold decimale_point, seqs in Hr. cbn [fold_right] in Hr.
  apply run_seq_inv in Hr. destruct Hr as (m1 & H1 & Hr).
  apply run_seq_inv in Hr. destruct Hr as (m2 & H2 & Hr).
  apply run_seq_inv in Hr. destruct Hr as (m3 & H3 & Hr).
  apply run_eps_inv in Hr. subst m3.
  apply run_grp_inv in H1. destruct H1 as (n1 & H1 & ->).
  apply run_rep_inv in H1. destruct H1 as (s1 & t1 & E1 & _ & D1 & ->).
  apply run_sym_inv in H2. destruct H2 as (x & t2 & E2 & Hx & ->).
  apply run_grp_inv in H3. destruct H3 as (n3 & H3 & ->).
  apply run_rep_inv in H3. destruct H3 as (s2 & t3 & E3 & _ & _ & ->).
  cbn [ahead behind caps cls_test] in *. apply N.eqb_eq in Hx. subst x t1 t2.
  exists s1, s2. unfold expand, decimale_virgule, group. cbn [flat_map].
  rewrite Hg. cbn [find fst snd Nat.eqb].
  rewrite E1 in *. rewrite !consumed_app, app_nil_r.
  change (s1 ++ ch "." :: s2 ++ t3) with (s1 ++ [ch "."] ++ s2 ++ t3) in Ea.
  rewrite !app_assoc in Ea. apply app_inv_tail in Ea.
  rewrite <- !app_assoc in Ea. auto.
Qed.

(** The replacement, from any place of the scan. *)
Lemma remplacement_pointwise : forall a b,
  Forall2 point_en_virgule a
    (flat_map (fun p => match p with
                        | Found h => expand decimale_virgule h
                        | Keep c => [c]
                        end) (pieces db decimale_point 0 b a)).
Proof.
  apply (scan_ind db decimale_point
    (fun b a ps =>
       Forall2 point_en_virgule a
         (flat_map (fun p => match p with
                             | Found h => expand decimale_virgule h
                             | Keep c => [c]
                             end) ps))).
  - intros b a h H. apply decimale_hit in H. destruct H as (g1 & g2 & -> & _).
    intros E. apply app_eq_nil in E. destruct E as [_ E]. discriminate.
  - intros b _. constructor.
  - intros b c t _ IH. cbn [flat_map app]. constructor; [left; reflexivity|exact IH].
  - intros b a h Ha _ IH. cbn [flat_map].
    rewrite (attempt_prefix db _ _ _ _ _ Ha) at 1.
    apply Forall2_app; [|exact IH].
    apply decimale_hit in Ha. destruct Ha as (g1 & g2 & -> & _ & ->).
    apply Forall2_app; [apply Forall2_same|].
    constructor; [right; split; reflexivity|apply Forall2_same].
Qed.

(** What rule 1 makes of a match: the same text with a comma between its
    two runs of digits. *)
Lemma normaliser_decimal ds1 sep ds2 fin :
  (sep = ch "." \/ sep = ch ",") ->
  ds1 <> [] -> forallb (is_digit db) ds1 = true ->
  ds2 <> [] -> forallb (is_digit db) ds2 = true ->
  ~ In (ch ".") fin ->
  normaliser_decimale db (ds1 ++ [sep] ++ ds2 ++ fin) =
  ds1 ++ [ch ","] ++ ds2 ++ fin.
Proof.
  intros Hsep N1 D1 N2 D2 Hfin.
  assert (Htail : ~ In (ch ".") (ds2 ++ fin)).
  { intros Hin. apply in_app_or in Hin. destruct Hin as [Hin|Hin]; [|auto].
    exact (digit_not_point ds2 D2 Hin). }
  destruct Hsep as [->| ->].
  - set (m := ds1 ++ [ch "."] ++ ds2 ++ fin).
    destruct (attempt_complete db decimale_point [] m
                (MState (rev ds2 ++ ch "." :: rev ds1) fin
                        [(2, ds2); (1, ds1)])) as [h Hh].
    { unfold decimale_point, seqs, m. cbn [fold_right].
      apply run_seq with (st2 := MState (rev ds1) ([ch "."] ++ ds2 ++ fin) [(1, ds1)]).
      - pose proof (run_grp db 1 (Rep 1 Digit)
                      (MState [] (ds1 ++ [ch "."] ++ ds2 ++ fin) [])
                      (MState (rev ds1 ++ []) ([ch "."] ++ ds2 ++ fin) [])) as Hg.
        cbn [ahead behind caps] in Hg. rewrite consumed_app, app_nil_r in Hg.
        apply Hg. rewrite <- (app_nil_r (rev ds1)). apply run_rep; [|exact D1].
        destruct ds1; [congruence|simpl; lia].
      - apply run_seq with (st2 := MState (ch "." :: rev ds1) (ds2 ++ fin) [(1, ds1)]).
        + apply run_sym. reflexivity.
        + apply run_seq with
            (st2 := MState (rev ds2 ++ ch "." :: rev ds1) fin [(2, ds2); (1, ds1)]);
            [|constructor].
          pose proof (run_grp db 2 (Rep 1 Digit)
                        (MState (ch "." :: rev ds1) (ds2 ++ fin) [(1, ds1)])
                        (MState (rev ds2 ++ ch "." :: rev ds1) fin [(1, ds1)])) as Hg.
          cbn [ahead behind caps] in Hg. rewrite consumed_app in Hg.
          apply Hg. apply run_rep; [|exact D2].
          destruct ds2; [congruence|simpl; lia]. }
    pose proof (attempt_prefix db _ _ _ _ _ Hh) as Ep.
    destruct (decimale_hit _ _ _ _ Hh) as (g1 & g2 & Eh & G1 & Ex).
    assert (Hne : hit_text h <> []).
    { rewrite Eh. intros E. apply app_eq_nil in E. destruct E as [_ E].
      discriminate. }
    unfold normaliser_decimale, re_sub_template.
    rewrite (pieces_hit db decimale_point [] m h Hh Hne). cbn [flat_map].
    rewrite Ex. set (rest := skipn (hit_len h) m) in *.
    pose proof (remplacement_pointwise rest (rev (hit_text h) ++ [])) as HF.
    rewrite Eh in Ep.
    assert (E : ds1 ++ [ch "."] ++ ds2 ++ fin = g1 ++ [ch "."] ++ g2 ++ rest)
      by (fold m; rewrite Ep at 1; rewrite <- !app_assoc; reflexivity).
    destruct (run_unique (is_digit db) ds1 g1
                ([ch "."] ++ ds2 ++ fin) ([ch "."] ++ g2 ++ rest))
      as [E1 E2]; auto.
    inversion E2 as [E3]. subst g1.
    assert (Hrest : ~ In (ch ".") rest).
    { intros Hin. apply Htail. rewrite E3. apply in_or_app. auto. }
    rewrite (no_point_unchanged rest _ HF Hrest).
    rewrite <- !app_assoc. rewrite E3. reflexivity.
  - apply no_point_unchanged; [apply normaliser_pointwise|].
    intros Hin. apply in_app_or in Hin. destruct Hin as [Hin|Hin].
    + exact (digit_not_point ds1 D1 Hin).
    + destruct Hin as [Hin|Hin]; [discriminate|auto].
Qed.

End Rule1.

(** X4. Every token that rule 1 puts in the quantity list is written with a
    comma: a match of rule 1 is a run of digits, a point or a comma, a run
    of digits, whitespace and a unit, and the token is the same text with a
    comma between the two runs; it contains no point. *)
Theorem rule1_tokens_use_comma (db : UnicodeData) (texte : ustring) :
  forall m,
    In m (re_findall db pattern1 (str_upper db texte)) ->
    exists ds1 sep ds2 ws un,
      m = ds1 ++ [sep] ++ ds2 ++ ws ++ un /\
      (sep = ch "." \/ sep = ch ",") /\
      ds1 <> [] /\ forallb (is_digit db) ds1 = true /\
      ds2 <> [] /\ forallb (is_digit db) ds2 = true /\
      forallb is_space ws = true /\ In un unites /\
      normaliser_decimale db m = ds1 ++ [ch ","] ++ ds2 ++ ws ++ un /\
      ~ In (ch ".") (normaliser_decimale db m) /\
      exists gvs,
        extraire_grammage_volume db texte = Some gvs /\
        In (normaliser_decimale db m) gvs.
Proof.
  intros m Hm. assert (Hm' := Hm).
  unfold re_findall in Hm. apply in_map_iff in Hm.
  destruct Hm as (h & <- & Hh). apply hits_attempt in Hh.
  destruct Hh as (pre & rest & must & _ & Ha). apply quantity_shape in Ha.
  destruct Ha as (num & ws & un & post & g & Er & Eh & Hr & Hws & Hun & _).
  destruct (tete1_inv db _ _ _ _ _ _ Hr Er)
    as (ds1 & sep & ds2 & -> & Hsep & N1 & D1 & N2 & D2).
  pose proof (fin_no_point ws un Hws Hun) as Hfin.
  assert (En : normaliser_decimale db (hit_text h) =
               ds1 ++ [ch ","] ++ ds2 ++ ws ++ un).
  { rewrite Eh, <- !app_assoc.
    apply (normaliser_decimal db ds1 sep ds2 (ws ++ un)); auto. }
  exists ds1, sep, ds2, ws, un. rewrite Eh at 1. rewrite <- !app_assoc.
  repeat split; auto.
  - rewrite En, !in_app_iff. intros [H|[H|[H|H]]].
    + exact (digit_not_point db ds1 D1 H).
    + destruct H as [H|[]]. discriminate.
    + exact (digit_not_point db ds2 D2 H).
    + apply Hfin. apply in_app_iff. exact H.
  - destruct (extraction_structure db texte) as (r6 & _ & _ & E).
    eexists. split; [exact E|].
    apply (proj2 (proj1 (proj2 (dedoublonner_spec _)) _)).
    apply in_or_app. left. apply in_map. exact Hm'.
Qed.

Lemma rule1_tokens_use_comma_witness :
  exists ds1 sep ds2 ws un,
    u "2.5ML" = ds1 ++ [sep] ++ ds2 ++ ws ++ un /\
    (sep = ch "." \/ sep = ch ",") /\
    ds1 <> [] /\ forallb (is_digit latin_ucd) ds1 = true /\
    ds2 <> [] /\ forallb (is_digit latin_ucd) ds2 = true /\
    forallb is_space ws = true /\ In un unites /\
    normaliser_decimale latin_ucd (u "2.5ML") =
      ds1 ++ [ch ","] ++ ds2 ++ ws ++ un /\
    ~ In (ch ".") (normaliser_decimale latin_ucd (u "2.5ML")) /\
    exists gvs,
      extraire_grammage_volume latin_ucd desodorisant = Some gvs /\
      In (normaliser_decimale latin_ucd (u "2.5ML")) gvs.
Proof.
  apply (rule1_tokens_use_comma latin_ucd desodorisant (u "2.5ML")).
  vm_compute. left. reflexivity.
Defined.

(** ** The parts of the final label *)

Lemma upper_no_lower c : ascii_lower_letter (ascii_upper c) = false.
Proof.
  unfold ascii_upper. destruct (ascii_lower_letter c) eqn:E; [|exact E].
  revert E. chars.
Qed.

Lemma sans_minuscule_upper s : sans_minuscule (map ascii_upper s) = true.
Proof.
  unfold sans_minuscule. apply forallb_forall. intros c Hc.
  apply in_map_iff in Hc. destruct Hc as (x & <- & _).
  rewrite upper_no_lower. reflexivity.
Qed.

Lemma sans_minuscule_fixed s :
  sans_minuscule s = true -> map ascii_upper s = s.
Proof.
  unfold sans_minuscule. intros H. rewrite forallb_forall in H.
  rewrite <- (map_id s) at 2. apply map_ext_in. intros c Hc.
  apply H, negb_true_iff in Hc. unfold ascii_upper. rewrite Hc. reflexivity.
Qed.

Lemma sans_minuscule_app s1 s2 :
  sans_minuscule (s1 ++ s2) = sans_minuscule s1 && sans_minuscule s2.
Proof. apply forallb_app. Qed.

Lemma no_space_simple s :
  (forall c, In c s -> is_space c = false) -> espaces_simples s = true.
Proof.
  induction s as [|c s IH]; intros H; [reflexivity|]. simpl.
  rewrite (H c) by (left; reflexivity). apply IH.
  intros x Hx. apply H. right. exact Hx.
Qed.

Lemma alnum_not_space c : ascii_alnum c = true -> is_space c = false.
Proof. chars. Qed.

Lemma pev_head_space m tok :
  Forall2 point_en_virgule m tok ->
  head_is is_space tok = head_is is_space m.
Proof.
  destruct 1 as [|a c m tok [->|[-> ->]] _]; reflexivity.
Qed.

Lemma pev_espaces m tok :
  Forall2 point_en_virgule m tok ->
  espaces_simples m = true -> espaces_simples tok = true.
Proof.
  induction 1 as [|a c m tok Hp HF IH]; [auto|]. cbn [espaces_simples].
  intros H. apply andb_prop in H. destruct H as [H1 H2].
  rewrite (IH H2), andb_true_r, (pev_head_space m tok HF).
  destruct Hp as [->|[-> ->]]; [exact H1|reflexivity].
Qed.

Lemma pev_sans_minuscule m tok :
  Forall2 point_en_virgule m tok ->
  sans_minuscule m = true -> sans_minuscule tok = true.
Proof.
  unfold sans_minuscule. induction 1 as [|a c m tok Hp HF IH]; [auto|].
  cbn [forallb]. intros H. apply andb_prop in H. destruct H as [H1 H2].
  rewrite (IH H2), andb_true_r.
  destruct Hp as [->|[-> ->]]; [exact H1|reflexivity].
Qed.

Lemma espaces_simples_glue a b :
  espaces_simples a = true -> espaces_simples b = true ->
  head_is is_space (rev a) = false \/ head_is is_space b = false ->
  espaces_simples (a ++ b) = true.
Proof.
  induction a as [|c a IH]; intros Ha Hb Hab; [exact Hb|].
  cbn [app espaces_simples] in *. apply andb_prop in Ha. destruct Ha as [H1 H2].
  destruct a as [|c' a].
  - cbn [app]. rewrite Hb, andb_true_r. destruct (is_space c) eqn:Hc; [|reflexivity].
    apply andb_prop in H1. destruct H1 as [-> _]. simpl in Hab.
    rewrite Hc in Hab. destruct Hab as [Hx|Hx]; [discriminate|rewrite Hx; reflexivity].
  - rewrite IH; auto.
    + rewrite andb_true_r. exact H1.
    + destruct Hab as [Hab|Hab]; [left|right; exact Hab].
      change (rev (c :: c' :: a)) with (rev (c' :: a) ++ [c]) in Hab.
      destruct (rev (c' :: a)) eqn:E; [|exact Hab].
      apply (f_equal (@rev cp)) in E. rewrite rev_involutive in E. discriminate.
Qed.

Lemma head_is_app_ne (p : cp -> bool) (a b : ustring) :
  a <> [] -> head_is p (a ++ b) = head_is p a.
Proof. destruct a; [congruence|reflexivity]. Qed.

Lemma propre_parts s :
  propre s = true <->
  espaces_simples s = true /\ head_is is_space s = false /\
  head_is is_space (rev s) = false.
Proof.
  unfold propre. rewrite !andb_true_iff, !negb_true_iff. tauto.
Qed.

Lemma propre_app_space a b :
  propre a = true -> a <> [] -> propre b = true -> b <> [] ->
  propre (a ++ u " " ++ b) = true.
Proof.
  rewrite !propre_parts. intros (A1 & A2 & A3) Ha (B1 & B2 & B3) Hb.
  change (u " " ++ b) with (SPACE :: b). repeat split.
  - apply espaces_simples_glue; [exact A1| |left; exact A3].
    cbn [espaces_simples]. rewrite B1, B2. reflexivity.
  - rewrite head_is_app_ne by exact Ha. exact A2.
  - rewrite rev_app_distr. cbn [rev]. rewrite <- app_assoc.
    rewrite head_is_app_ne; [exact B3|].
    intros E. apply (f_equal (@rev cp)) in E. rewrite rev_involutive in E.
    contradiction.
Qed.

Lemma join_nonempty sep parts :
  parts <> [] -> (forall p, In p parts -> p <> []) -> join sep parts <> [].
Proof.
  destruct parts as [|x [|y l]]; [congruence| |]; intros _ H; simpl.
  - apply H. left. reflexivity.
  - intros E. apply app_eq_nil in E. destruct E as [E _].
    apply (H x); [left; reflexivity|exact E].
Qed.

Lemma propre_join parts :
  (forall p, In p parts -> propre p = true /\ p <> []) ->
  propre (join (u " ") parts) = true.
Proof.
  induction parts as [|x l IH]; intros H; [reflexivity|].
  destruct l as [|y l].
  - apply H. left. reflexivity.
  - change (join (u " ") (x :: y :: l)) with (x ++ u " " ++ join (u " ") (y :: l)).
    destruct (H x (or_introl eq_refl)) as [Px Nx].
    apply propre_app_space; auto.
    + apply IH. intros p Hp. apply H. right. exact Hp.
    + apply join_nonempty; [discriminate|].
      intros p Hp. apply H. right. exact Hp.
Qed.

Lemma map_join (f : cp -> cp) sep parts :
  map f (join sep parts) = join (map f sep) (map (map f) parts).
Proof.
  induction parts as [|x l IH]; [reflexivity|].
  destruct l as [|y l]; [reflexivity|].
  change (join sep (x :: y :: l)) with (x ++ sep ++ join sep (y :: l)).
  rewrite !map_app, IH. reflexivity.
Qed.

Lemma join_in sep parts c :
  In c (join sep parts) -> In c sep \/ exists p, In p parts /\ In c p.
Proof.
  induction parts as [|x l IH]; [intros []|].
  destruct l as [|y l].
  - intros H. right. exists x. split; [left; reflexivity|exact H].
  - change (join sep (x :: y :: l)) with (x ++ sep ++ join sep (y :: l)).
    rewrite !in_app_iff. intros [H|[H|H]].
    + right. exists x. split; [left; reflexivity|exact H].
    + left. exact H.
    + destruct (IH H) as [?|(p & Hp & Hc)]; [left; assumption|].
      right. exists p. split; [right; exact Hp|exact Hc].
Qed.

Lemma propre_upper s : propre (map ascii_upper s) = propre s.
Proof.
  unfold propre. rewrite espaces_simples_upper, <- map_rev, !head_is_map.
  rewrite (head_is_ext (fun c => is_space (ascii_upper c)) is_space s)
    by (intros; apply space_upper).
  rewrite (head_is_ext (fun c => is_space (ascii_upper c)) is_space (rev s))
    by (intros; apply space_upper).
  reflexivity.
Qed.

Lemma jeton_ok_propre tok :
  jeton_ok tok = true -> espaces_simples tok = true ->
  propre tok = true /\ tok <> [].
Proof.
  unfold jeton_ok, bords_alnum. intros H He.
  apply andb_prop in H. destruct H as [H _].
  apply andb_prop in H. destruct H as [H1 H2].
  split.
  - apply propre_parts. split; [exact He|].
    split.
    + destruct tok; [discriminate|]. simpl in *. apply alnum_not_space. exact H1.
    + destruct (rev tok); [discriminate|]. simpl in *.
      apply alnum_not_space. exact H2.
  - destruct tok; [discriminate|congruence].
Qed.

(** ** Taking characters out *)

Lemma ss_refl s : sous_suite s s.
Proof. induction s; constructor; assumption. Qed.

Lemma ss_nil_l t : sous_suite [] t.
Proof. induction t; constructor; assumption. Qed.

Lemma ss_app s1 t1 s2 t2 :
  sous_suite s1 t1 -> sous_suite s2 t2 -> sous_suite (s1 ++ s2) (t1 ++ t2).
Proof. induction 1; intros H2; simpl; [exact H2| |]; constructor; auto. Qed.

Lemma ss_trans s t : sous_suite s t -> forall w, sous_suite t w -> sous_suite s w.
Proof.
  intros Hst w Htw. revert s Hst.
  induction Htw as [|c t w Htw IH|c t w Htw IH]; intros s Hst.
  - exact Hst.
  - inversion Hst; subst; constructor; auto.
  - constructor. auto.
Qed.

Lemma ss_incl s t : sous_suite s t -> forall c, In c s -> In c t.
Proof.
  induction 1; intros x Hx; [exact Hx| |right; auto].
  destruct Hx as [->|Hx]; [left; reflexivity|right; auto].
Qed.

Lemma ss_length s t : sous_suite s t -> length s <= length t.
Proof. induction 1; simpl; lia. Qed.

Lemma ss_skipn s n t : sous_suite s (skipn n t) -> sous_suite s t.
Proof.
  intros H. rewrite <- (firstn_skipn n t).
  exact (ss_app [] (firstn n t) s (skipn n t) (ss_nil_l _) H).
Qed.

Lemma ss_infix w1 s w2 : sous_suite s (w1 ++ s ++ w2).
Proof.
  apply (ss_app [] w1 s (s ++ w2) (ss_nil_l _)).
  rewrite <- (app_nil_r s) at 1. apply ss_app; [apply ss_refl|apply ss_nil_l].
Qed.

Section Subsequence.
Variable db : UnicodeData.

(** [re.sub] with the empty replacement only takes characters out. *)
Lemma pieces_vide_ss r : forall a skip b,
  sous_suite (flat_map (subst_piece []) (pieces db r skip b a)) a.
Proof.
  induction a as [|x t IH]; intros skip b.
  - destruct skip as [|n]; cbn [pieces]; [|constructor].
    destruct (attempt db r false b []) as [h|]; [|constructor].
    destruct (hit_len h); [|constructor].
    destruct (attempt db r true b []); constructor.
  - destruct skip as [|n]; cbn [pieces]; [|apply ss_drop, IH].
    destruct (attempt db r false b (x :: t)) as [h|];
      [|cbn [flat_map subst_piece app]; apply ss_keep, IH].
    cbn [flat_map subst_piece app].
    destruct (hit_len h); [|apply ss_drop, IH].
    destruct (attempt db r true b (x :: t)) as [h'|];
      cbn [flat_map subst_piece app]; [apply ss_drop, IH|apply ss_keep, IH].
Qed.

Lemma retirer_ss tok s : sous_suite (retirer db tok s) s.
Proof. unfold retirer. rewrite re_sub_pieces. apply pieces_vide_ss. Qed.

Lemma retirer_marque_ss marque s : sous_suite (retirer_marque db marque s) s.
Proof.
  unfold retirer_marque. destruct marque as [[|c m]|];
    [apply ss_refl|apply retirer_ss|apply ss_refl].
Qed.

Lemma retirer_grammages_ss gvs : forall s,
  sous_suite (retirer_grammages db gvs s) s.
Proof.
  unfold retirer_grammages.
  induction gvs as [|gv gvs IH]; intros s; cbn [fold_left]; [apply ss_refl|].
  eapply ss_trans; [apply IH|].
  eapply ss_trans; apply retirer_ss.
Qed.

(** Where every whitespace character is a space, collapsing the runs only
    takes spaces out. *)
Lemma collapse_ss : forall a b,
  (forall c, In c a -> is_space c = true -> c = SPACE) ->
  sous_suite (flat_map (subst_piece (u " ")) (pieces db espaces 0 b a)) a.
Proof.
  apply (scan_ind db espaces
    (fun b a ps =>
       (forall c, In c a -> is_space c = true -> c = SPACE) ->
       sous_suite (flat_map (subst_piece (u " ")) ps) a)).
  - intros b a h H. rewrite attempt_espaces in H.
    destruct (take_while is_space a); [discriminate|].
    inversion H; subst. simpl. congruence.
  - intros b _ _. constructor.
  - intros b c t _ IH Hs. cbn [flat_map subst_piece app]. apply ss_keep, IH.
    intros y Hy. apply Hs. right. exact Hy.
  - intros b a h H _ IH Hs. pose proof (attempt_prefix _ _ _ _ _ _ H) as E.
    rewrite attempt_espaces in H.
    pose proof (take_while_all is_space a) as Hw.
    destruct (take_while is_space a) as [|c w]; [discriminate|].
    inversion H; subst h. clear H. cbn [hit_text] in *.
    cbn [forallb] in Hw. apply andb_prop in Hw. destruct Hw as [Hc _].
    assert (Ec : c = SPACE).
    { apply Hs; [|exact Hc]. rewrite E. left. reflexivity. }
    subst c. cbn [flat_map subst_piece].
    rewrite E at 2. change (u " ") with [SPACE]. cbn [app]. apply ss_keep.
    apply (ss_app [] w _ _ (ss_nil_l _)). apply IH.
    intros y Hy. apply Hs. rewrite E. right. apply in_or_app. right. exact Hy.
Qed.

Lemma strip_ss s : sous_suite (strip s) s.
Proof.
  destruct (strip_infix s) as (w1 & w2 & E). rewrite E at 2. apply ss_infix.
Qed.

Lemma normaliser_espaces_ss s :
  (forall c, In c s -> is_space c = true -> c = SPACE) ->
  sous_suite (normaliser_espaces db s) s.
Proof.
  intros H. unfold normaliser_espaces. rewrite re_sub_pieces.
  eapply ss_trans; [apply strip_ss|]. apply collapse_ss. exact H.
Qed.

(** The product name of a sanitized text, whatever is taken out of it. *)
Lemma nom_du_produit_ss t marque gvs :
  sanitized t = true ->
  sanitized (nom_du_produit db t marque gvs) = true /\
  sous_suite (nom_du_produit db t marque gvs) t.
Proof.
  intros Ht. unfold nom_du_produit.
  set (s := retirer_grammages db gvs (retirer_marque db marque t)).
  assert (Hs : sous_suite s t).
  { eapply ss_trans; [apply retirer_grammages_ss|apply retirer_marque_ss]. }
  assert (Hn : sous_suite (normaliser_espaces db s) t).
  { eapply ss_trans; [|exact Hs]. apply normaliser_espaces_ss.
    intros c Hc Hsp. apply (espaces_simples_in t); [|eapply ss_incl; eauto|exact Hsp].
    unfold sanitized in Ht. repeat (apply andb_prop in Ht; destruct Ht as [Ht ?]).
    assumption. }
  split; [|exact Hn].
  destruct (normaliser_espaces_spec db s) as (N1 & N2 & N3 & _).
  unfold sanitized. rewrite N1, N2, N3. cbn [negb]. rewrite !andb_true_r.
  apply forallb_forall. intros c Hc.
  pose proof (sanitized_sobre t Ht) as Hso. rewrite forallb_forall in Hso.
  apply (Hso c). eapply ss_incl; eauto.
Qed.

End Subsequence.

Section FinalLabel.
Variable db : UnicodeData.

Lemma infix_soigne pre s post :
  espaces_simples (pre ++ s ++ post) = true ->
  sans_minuscule (pre ++ s ++ post) = true ->
  espaces_simples s = true /\ sans_minuscule s = true.
Proof.
  intros H1 H2. split.
  - apply espaces_simples_app in H1. destruct H1 as [_ H1].
    apply espaces_simples_app in H1. tauto.
  - rewrite !sans_minuscule_app in H2. apply andb_prop in H2.
    destruct H2 as [_ H2]. apply andb_prop in H2. tauto.
Qed.

Lemma sanitized_parts s :
  sanitized s = true <-> forallb sobre s = true /\ propre s = true.
Proof.
  unfold sanitized, propre. fold sobre.
  change (forallb (fun c => permis c || (c =? SPACE)%N) s) with (forallb sobre s).
  rewrite !andb_true_iff. tauto.
Qed.

(** Every token of the quantity list of a sanitized text has single spaces
    and no lower-case letter. *)
Lemma quantites_soignees t gvs :
  sanitized t = true -> extraire_grammage_volume db t = Some gvs ->
  forall gv, In gv gvs -> espaces_simples gv = true /\ sans_minuscule gv = true.
Proof.
  intros Ht E gv Hgv.
  destruct (extraction_structure db t) as (r6 & Hi & _ & E').
  rewrite E in E'. inversion E'; subst gvs. clear E E'.
  apply (proj1 (proj1 (proj2 (dedoublonner_spec _)) gv)) in Hgv.
  destruct (sanitized_upper db t Ht) as [EU HS]. rewrite EU in *.
  set (T := map ascii_upper t) in *.
  assert (HT1 : espaces_simples T = true).
  { unfold T. rewrite espaces_simples_upper.
    apply sanitized_parts in Ht. destruct Ht as [_ Ht].
    apply propre_parts in Ht. tauto. }
  assert (HT2 : sans_minuscule T = true) by apply sans_minuscule_upper.
  assert (Hfind : forall r m, In m (re_findall db r T) ->
            espaces_simples m = true /\ sans_minuscule m = true).
  { intros r m Hm. unfold re_findall in Hm. apply in_map_iff in Hm.
    destruct Hm as (h & <- & Hh).
    destruct (hit_infix db _ _ _ Hh) as (p0 & q0 & ET).
    rewrite ET in HT1, HT2. eapply infix_soigne; eauto. }
  assert (Hnorm : forall r m, In m (re_findall db r T) ->
            espaces_simples (normaliser_decimale db m) = true /\
            sans_minuscule (normaliser_decimale db m) = true).
  { intros r m Hm. destruct (Hfind r m Hm) as [F1 F2].
    pose proof (normaliser_pointwise db m) as Hp.
    split; [eapply pev_espaces|eapply pev_sans_minuscule]; eauto. }
  repeat (apply in_app_or in Hgv; destruct Hgv as [Hgv|Hgv]).
  - apply in_map_iff in Hgv. destruct Hgv as (m & <- & Hm). eapply Hnorm; eauto.
  - apply in_map_iff in Hgv. destruct Hgv as (m & <- & Hm). eapply Hnorm; eauto.
  - eapply Hfind; eauto.
  - apply in_map_iff in Hgv. destruct Hgv as (h & <- & Hh).
    apply hits_attempt in Hh. destruct Hh as (pre & rest & must & _ & Ha).
    apply pattern4_shape in Ha.
    destruct Ha as (lead & d & ws & un & post & _ & _ & _ & Hd & _ & Hun & _ & G1 & G2).
    unfold jeton4. rewrite G1, G2.
    destruct (unite_word un Hun) as [_ Hl]. split.
    + apply no_space_simple. intros c [<-|Hc].
      * revert Hd. chars.
      * apply Hl in Hc. revert Hc. chars.
    + unfold sans_minuscule. apply forallb_forall. intros c [<-|Hc].
      * revert Hd. chars.
      * apply Hl in Hc. revert Hc. chars.
  - eapply Hfind; eauto.
  - eapply Hfind; eauto.
Qed.

Lemma assembler_parties marque nom gvs :
  assembler db marque nom gvs =
  normaliser_espaces db (str_upper db (join (u " ") (parties marque nom gvs))).
Proof.
  unfold assembler, parties.
  destruct marque as [[|c m]|]; destruct nom; cbn [app];
    rewrite <- ?app_assoc; reflexivity.
Qed.

(** The final label of [traiter_libelle]: its parts, and what each of them
    looks like. *)
Lemma assemblage self x :
  forallb marque_valide (marques self) = true ->
  exists gvs,
    extraire_grammage_volume db (supprimer_accents_et_caracteres_speciaux db x)
      = Some gvs /\
    let t := supprimer_accents_et_caracteres_speciaux db x in
    let marque := extraire_marque db self t in
    let nom := nom_du_produit db t marque gvs in
    traiter_libelle db self x =
      Some (join (u " ") (parties marque (map ascii_upper nom) gvs)) /\
    forall p, In p (parties marque (map ascii_upper nom) gvs) ->
      propre p = true /\ p <> [] /\ forallb sobre p = true /\
      sans_minuscule p = true.
Proof.
  intros Hm.
  pose proof (sanitize_sanitized db x) as Ht.
  set (t := supprimer_accents_et_caracteres_speciaux db x) in *.
  destruct (extraction_structure db t) as (r6 & _ & _ & E).
  set (gvs := dedoublonner _) in *. clearbody gvs.
  exists gvs. split; [exact E|]. cbv zeta.
  set (marque := extraire_marque db self t) in *.
  destruct (nom_du_produit_ss db t marque gvs Ht) as [Hn _].
  set (nom := nom_du_produit db t marque gvs) in *.
  assert (Hparts : forall p, In p (parties marque nom gvs) ->
            propre p = true /\ p <> [] /\ forallb sobre p = true /\
            (p = nom \/ sans_minuscule p = true)).
  { intros p Hp. unfold parties in Hp.
    apply in_app_or in Hp. destruct Hp as [Hp|Hp].
    - destruct marque as [[|c m]|] eqn:Em; try contradiction.
      destruct Hp as [<-|[]].
      assert (Hv : marque_valide (c :: m) = true).
      { unfold marque, extraire_marque in Em. apply find_some in Em.
        rewrite forallb_forall in Hm. apply Hm. tauto. }
      pose proof (marque_jeton_ok _ Hv) as Hj.
      destruct (marque_valide_chars _ Hv) as (_ & Hu & Hc).
      destruct (jeton_ok_propre (c :: m) Hj) as [P1 P2].
      { apply no_space_simple. intros y Hy. apply alnum_not_space, Hc, Hy. }
      split; [exact P1|]. split; [exact P2|]. split.
      + apply forallb_forall. intros y Hy. apply Hc, Hy.
      + right. rewrite <- Hu. apply sans_minuscule_upper.
    - apply in_app_or in Hp. destruct Hp as [Hp|Hp].
      + destruct nom as [|c n] eqn:En; [contradiction|].
        destruct Hp as [<-|[]]. apply sanitized_parts in Hn.
        destruct Hn as [Hn1 Hn2]. split; [exact Hn2|].
        split; [discriminate|]. split; [exact Hn1|]. left. reflexivity.
      + pose proof (quantites_ok db t _ Ht E p Hp) as Hj.
        destruct (quantites_soignees t gvs Ht E p Hp) as [Q1 Q2].
        destruct (jeton_ok_propre p Hj Q1) as [P1 P2].
        split; [exact P1|]. split; [exact P2|]. split; [|right; exact Q2].
        unfold jeton_ok in Hj. apply andb_prop in Hj. tauto. }
  assert (Emap : map (map ascii_upper) (parties marque nom gvs) =
                 parties marque (map ascii_upper nom) gvs).
  { unfold parties. rewrite !map_app. f_equal; [|f_equal].
    - destruct marque as [[|c m]|] eqn:Em; try reflexivity.
      assert (Hv : marque_valide (c :: m) = true).
      { unfold marque, extraire_marque in Em. apply find_some in Em.
        rewrite forallb_forall in Hm. apply Hm. tauto. }
      destruct (marque_valide_chars _ Hv) as (_ & Hu & _).
      cbn [map] in *. rewrite Hu. reflexivity.
    - destruct nom; reflexivity.
    - rewrite <- (map_id gvs) at 2. apply map_ext_in. intros p Hp.
      apply sans_minuscule_fixed.
      apply (quantites_soignees t gvs Ht E p Hp). }
  assert (Hparts' : forall p, In p (parties marque (map ascii_upper nom) gvs) ->
            propre p = true /\ p <> [] /\ forallb sobre p = true /\
            sans_minuscule p = true).
  { intros p Hp. rewrite <- Emap in Hp. apply in_map_iff in Hp.
    destruct Hp as (q & <- & Hq). destruct (Hparts q Hq) as (Q1 & Q2 & Q3 & Q4).
    rewrite propre_upper. split; [exact Q1|]. split.
    - destruct q; [congruence|discriminate].
    - split; [|apply sans_minuscule_upper].
      rewrite forallb_forall in *. intros c Hc. apply in_map_iff in Hc.
      destruct Hc as (y & <- & Hy). apply sobre_upper. auto. }
  split; [|exact Hparts'].
  unfold traiter_libelle. fold t. rewrite E. fold marque. fold nom.
  f_equal. rewrite assembler_parties.
  assert (Hsobre : forallb sobre (join (u " ") (parties marque nom gvs)) = true).
  { apply forallb_forall. intros c Hc. apply join_in in Hc.
    destruct Hc as [[<-|[]]|(p & Hp & Hc)]; [reflexivity|].
    destruct (Hparts p Hp) as (_ & _ & Q3 & _). rewrite forallb_forall in Q3. auto. }
  rewrite str_upper_ascii.
  2:{ rewrite forallb_forall in *. intros c Hc. apply sobre_ascii. auto. }
  rewrite map_join, Emap. change (map ascii_upper (u " ")) with (u " ").
  assert (Hp : propre (join (u " ") (parties marque (map ascii_upper nom) gvs)) = true).
  { apply propre_join. intros p Hp. destruct (Hparts' p Hp) as (Q1 & Q2 & _). auto. }
  apply propre_parts in Hp. destruct Hp as (P1 & P2 & P3).
  apply normaliser_espaces_id; assumption.
Qed.

End FinalLabel.

(** ** The quantity tokens, the product name and the final label *)

(** X5. Every token of the quantity list of a sanitized text is well formed:
    it is not empty, it begins and ends with a letter or a digit, it is
    itself a sanitized text (permitted characters, single spaces, none at the
    ends) and it has no lower-case letter. *)
Theorem quantity_tokens_well_formed (db : UnicodeData) (t : ustring)
    (gvs : list ustring) (gv : ustring) :
  sanitized t = true ->
  extraire_grammage_volume db t = Some gvs ->
  In gv gvs ->
  gv <> [] /\ bords_alnum gv = true /\ sanitized gv = true /\
  sans_minuscule gv = true.
Proof.
  intros Ht E Hgv.
  pose proof (quantites_ok db t gvs Ht E gv Hgv) as Hj.
  destruct (quantites_soignees db t gvs Ht E gv Hgv) as [Q1 Q2].
  destruct (jeton_ok_propre gv Hj Q1) as [P1 P2].
  unfold jeton_ok in Hj. apply andb_prop in Hj. destruct Hj as [Hb Hs].
  split; [exact P2|]. split; [exact Hb|]. split; [|exact Q2].
  apply sanitized_parts. auto.
Qed.

Lemma quantity_tokens_well_formed_witness :
  u "1,5L" <> [] /\ bords_alnum (u "1,5L") = true /\
  sanitized (u "1,5L") = true /\ sans_minuscule (u "1,5L") = true.
Proof.
  apply (quantity_tokens_well_formed latin_ucd barquette [u "1,5L"] (u "1,5L")).
  - vm_compute. reflexivity.
  - vm_compute. reflexivity.
  - simpl. left. reflexivity.
Defined.

(** X6. The reduction of the name only takes characters out.  Whatever the
    brand and the tokens taken out of a sanitized text, the product name is
    again a sanitized text, it is what remains of the text when some of its
    characters are deleted (the others stay, in their order), and it is never
    longer than the text. *)
Theorem product_name_subsequence (db : UnicodeData) (t : ustring)
    (marque : option ustring) (gvs : list ustring) :
  sanitized t = true ->
  sanitized (nom_du_produit db t marque gvs) = true /\
  sous_suite (nom_du_produit db t marque gvs) t /\
  length (nom_du_produit db t marque gvs) <= length t.
Proof.
  intros Ht. destruct (nom_du_produit_ss db t marque gvs Ht) as [H1 H2].
  split; [exact H1|]. split; [exact H2|]. apply ss_length. exact H2.
Qed.

Lemma product_name_subsequence_witness :
  sanitized (nom_du_produit latin_ucd barquette None [u "1,5L"]) = true /\
  sous_suite (nom_du_produit latin_ucd barquette None [u "1,5L"]) barquette /\
  length (nom_du_produit latin_ucd barquette None [u "1,5L"]) <= length barquette.
Proof.
  apply (product_name_subsequence latin_ucd barquette None [u "1,5L"]).
  vm_compute. reflexivity.
Defined.

(** X7. The shape of the final label.  When every configured brand is made
    of capital letters and digits, the label [traiter_libelle] returns is the
    brand (if one was found), the product name in capitals (if it is not
    empty) and the quantity tokens in the order of the list, separated by
    exactly one space: the last normalisation of whitespace changes nothing.
    Each of these parts is a non-empty sanitized text without lower-case
    letter. *)
Theorem final_label_structure (db : UnicodeData) (self : TraitementLibelles)
    (x : ustring) :
  forallb marque_valide (marques self) = true ->
  exists gvs,
    extraire_grammage_volume db (supprimer_accents_et_caracteres_speciaux db x)
      = Some gvs /\
    let t := supprimer_accents_et_caracteres_speciaux db x in
    let marque := extraire_marque db self t in
    let nom := nom_du_produit db t marque gvs in
    traiter_libelle db self x =
      Some (join (u " ") (parties marque (map ascii_upper nom) gvs)) /\
    forall p, In p (parties marque (map ascii_upper nom) gvs) ->
      p <> [] /\ sanitized p = true /\ sans_minuscule p = true.
Proof.
  intros Hm. destruct (assemblage db self x Hm) as (gvs & E & Hf & Hp).
  exists gvs. split; [exact E|]. cbv zeta. split; [exact Hf|].
  intros p Hin. destruct (Hp p Hin) as (P1 & P2 & P3 & P4).
  split; [exact P2|]. split; [|exact P4]. apply sanitized_parts. auto.
Qed.

Lemma final_label_structure_witness :
  exists gvs,
    extraire_grammage_volume latin_ucd
      (supprimer_accents_et_caracteres_speciaux latin_ucd desodorisant)
      = Some gvs /\
    let t := supprimer_accents_et_caracteres_speciaux latin_ucd desodorisant in
    let marque := extraire_marque latin_ucd init t in
    let nom := nom_du_produit latin_ucd t marque gvs in
    traiter_libelle latin_ucd init desodorisant =
      Some (join (u " ") (parties marque (map ascii_upper nom) gvs)) /\
    forall p, In p (parties marque (map ascii_upper nom) gvs) ->
      p <> [] /\ sanitized p = true /\ sans_minuscule p = true.
Proof.
  apply (final_label_structure latin_ucd init desodorisant).
  vm_compute. reflexivity.
Defined.

(** The label of [traiter_libelle], whatever the brands. *)
Lemma traiter_libelle_sanitized (db : UnicodeData)
    (self : TraitementLibelles) (x : ustring) :
  exists final,
    traiter_libelle db self x = Some final /\
    sanitized final = true /\ sans_minuscule final = true /\
    supprimer_accents_et_caracteres_speciaux db final = final.
Proof.
  pose proof (sanitize_sanitized db x) as Ht.
  unfold traiter_libelle.
  set (t := supprimer_accents_et_caracteres_speciaux db x) in *.
  destruct (extraction_structure db t) as (r6 & _ & _ & E).
  pose proof (quantites_ok db t _ Ht E) as Hok.
  set (gvs := dedoublonner _) in *. clearbody gvs. rewrite E.
  set (marque := extraire_marque db self t).
  destruct (nom_du_produit_ss db t marque gvs Ht) as [Hn _].
  set (nom := nom_du_produit db t marque gvs) in *.
  eexists. split; [reflexivity|]. rewrite assembler_parties.
  destruct (sanitized_upper db t Ht) as [EU HU].
  assert (Hsobre : forallb sobre (join (u " ") (parties marque nom gvs)) = true).
  { apply forallb_forall. intros c Hc. apply join_in in Hc.
    destruct Hc as [[<-|[]]|(p & Hp & Hc)]; [reflexivity|].
    unfold parties in Hp. apply in_app_or in Hp. destruct Hp as [Hp|Hp].
    - destruct marque as [[|c0 m]|] eqn:Em; try contradiction.
      destruct Hp as [<-|[]].
      unfold marque, extraire_marque in Em. apply find_some in Em.
      destruct Em as [_ Em]. apply contient_mot_spec in Em.
      destruct Em as (pre & post & ET & _). rewrite EU in ET.
      rewrite forallb_forall in HU. apply HU.
      rewrite ET, !in_app_iff. auto.
    - apply in_app_or in Hp. destruct Hp as [Hp|Hp].
      + destruct nom as [|c0 n] eqn:En; [contradiction|].
        destruct Hp as [<-|[]]. apply sanitized_sobre in Hn.
        rewrite forallb_forall in Hn. auto.
      + pose proof (Hok p Hp) as Hj. unfold jeton_ok in Hj.
        apply andb_prop in Hj. destruct Hj as [_ Hj].
        rewrite forallb_forall in Hj. auto. }
  rewrite str_upper_ascii.
  2:{ rewrite forallb_forall in *. intros c Hc. apply sobre_ascii. auto. }
  set (J := join (u " ") (parties marque nom gvs)) in *.
  destruct (normaliser_espaces_spec db (map ascii_upper J)) as (N1 & N2 & N3 & N4).
  set (final := normaliser_espaces db (map ascii_upper J)) in *.
  assert (Hs : sanitized final = true).
  { unfold sanitized. rewrite N1, N2, N3. cbn [negb]. rewrite !andb_true_r.
    apply forallb_forall. intros c Hc. destruct (N4 c Hc) as [Hin| ->];
      [|reflexivity].
    apply in_map_iff in Hin. destruct Hin as (y & <- & Hy).
    rewrite forallb_forall in Hsobre. apply sobre_upper. auto. }
  split; [exact Hs|]. split; [|apply sanitize_fixed; exact Hs].
  unfold sans_minuscule. apply forallb_forall. intros c Hc.
  destruct (N4 c Hc) as [Hin| ->]; [|reflexivity].
  apply in_map_iff in Hin. destruct Hin as (y & <- & Hy).
  rewrite upper_no_lower. reflexivity.
Qed.

(** X8. Whatever the input, the Unicode tables and the list of brands, the
    label [traiter_libelle] returns is a sanitized text (permitted
    characters, single spaces, none at the ends) without lower-case letter;
    so the sanitizer leaves it as it is. *)
Theorem final_label_sanitized_upper (db : UnicodeData)
    (self : TraitementLibelles) (x : ustring) :
  exists final,
    traiter_libelle db self x = Some final /\
    sanitized final = true /\ sans_minuscule final = true /\
    supprimer_accents_et_caracteres_speciaux db final = final.
Proof. exact (traiter_libelle_sanitized db self x). Qed.

(** X9. A label in which no brand and no quantity is found is only
    sanitized and put in capitals. *)
Theorem plain_label_only_capitals (db : UnicodeData)
    (self : TraitementLibelles) (x : ustring) :
  extraire_marque db self (supprimer_accents_et_caracteres_speciaux db x)
    = None ->
  extraire_grammage_volume db (supprimer_accents_et_caracteres_speciaux db x)
    = Some [] ->
  traiter_libelle db self x =
    Some (map ascii_upper (supprimer_accents_et_caracteres_speciaux db x)).
Proof.
  intros Em Eg. pose proof (sanitize_sanitized db x) as Ht.
  unfold traiter_libelle. rewrite Em, Eg.
  set (t := supprimer_accents_et_caracteres_speciaux db x) in *.
  pose proof Ht as Hp. apply sanitized_parts in Hp. destruct Hp as [Hso Hp].
  apply propre_parts in Hp. destruct Hp as (P1 & P2 & P3).
  assert (En : nom_du_produit db t None [] = t).
  { unfold nom_du_produit, retirer_marque, retirer_grammages. cbn [fold_left].
    apply normaliser_espaces_id; assumption. }
  rewrite En, assembler_parties. f_equal.
  assert (Ej : join (u " ") (parties None t []) = t).
  { unfold parties. destruct t; reflexivity. }
  rewrite Ej. destruct (sanitized_upper db t Ht) as [-> _].
  apply normaliser_espaces_id.
  - rewrite espaces_simples_upper. exact P1.
  - rewrite head_is_map.
    rewrite (head_is_ext _ is_space) by (intros; apply space_upper). exact P2.
  - rewrite <- map_rev, head_is_map.
    rewrite (head_is_ext _ is_space) by (intros; apply space_upper). exact P3.
Qed.

Lemma plain_label_only_capitals_witness :
  traiter_libelle latin_ucd init (u "stylo  bille bleu") =
    Some (map ascii_upper
            (supprimer_accents_et_caracteres_speciaux latin_ucd
               (u "stylo  bille bleu"))).
Proof.
  apply (plain_label_only_capitals latin_ucd init (u "stylo  bille bleu"));
    vm_compute; reflexivity.
Defined.

(** ** Reading the articles and writing the results *)

Lemma universal_newlines_sans_cr : forall s p,
  ~ In CR (universal_newlines p s).
Proof.
  induction s as [|c t IH]; intros p; cbn [universal_newlines]; [intros []|].
  destruct (c =? CR)%N eqn:Ec.
  - intros [H|H]; [discriminate|]. exact (IH true H).
  - destruct ((c =? LF)%N && p).
    + apply IH.
    + intros [H|H]; [|exact (IH false H)]. apply N.eqb_neq in Ec. congruence.
Qed.

Lemma universal_newlines_filter : forall s p,
  filter non_espace (universal_newlines p s) = filter non_espace s.
Proof.
  induction s as [|c t IH]; intros p; cbn [universal_newlines]; [reflexivity|].
  destruct (c =? CR)%N eqn:Ec.
  - apply N.eqb_eq in Ec. subst c. cbn [filter].
    change (non_espace LF) with false. change (non_espace CR) with false.
    apply IH.
  - destruct (c =? LF)%N eqn:El; destruct p; cbn [andb filter];
      rewrite ?IH; try reflexivity.
    apply N.eqb_eq in El. subst c. reflexivity.
Qed.

Lemma concat_lignes s : concat (lignes s) = s.
Proof.
  induction s as [|c t IH]; cbn [lignes]; [reflexivity|].
  destruct (c =? LF)%N.
  - cbn [concat app]. rewrite IH. reflexivity.
  - destruct (lignes t) as [|l ls]; cbn [concat app] in *; rewrite <- IH;
      reflexivity.
Qed.

Lemma lignes_forme s : forall l, In l (lignes s) -> ~ In LF (removelast l).
Proof.
  induction s as [|c t IH]; cbn [lignes]; [intros l []|].
  destruct (c =? LF)%N eqn:Ec.
  - intros l [<-|Hl]; [intros []|apply IH; exact Hl].
  - apply N.eqb_neq in Ec. destruct (lignes t) as [|l0 ls].
    + intros l [<-|[]]. intros [].
    + intros l [<-|Hl]; [|apply IH; right; exact Hl].
      assert (H0 : ~ In LF (removelast l0)) by (apply IH; left; reflexivity).
      destruct l0 as [|x l0]; [intros []|].
      change (removelast (c :: x :: l0)) with (c :: removelast (x :: l0)).
      intros [H|H]; [congruence|contradiction].
Qed.

Lemma strip_sans_lf l : ~ In LF (removelast l) -> ~ In LF (strip l).
Proof.
  intros H Hin. destruct (strip_infix l) as (w1 & w2 & E).
  apply in_split in Hin. destruct Hin as (a & b & Es).
  destruct (strip_ends l) as [_ He].
  destruct (b ++ w2) as [|y q] eqn:Eb.
  - apply app_eq_nil in Eb. destruct Eb as [-> _].
    rewrite Es, rev_app_distr in He. discriminate He.
  - apply H. rewrite E, Es.
    replace (w1 ++ (a ++ LF :: b) ++ w2) with ((w1 ++ a) ++ LF :: (b ++ w2))
      by (rewrite <- !app_assoc; reflexivity).
    rewrite Eb, removelast_app by discriminate.
    apply in_or_app. right. left. reflexivity.
Qed.

Lemma strip_strip s : strip (strip s) = strip s.
Proof. destruct (strip_ends s). apply strip_id; assumption. Qed.

Lemma articles_propres ouvrir chemin :
  Forall (fun a => a <> [] /\ strip a = a /\ ~ In LF a /\ ~ In CR a)
         (lire_articles_depuis_fichier ouvrir chemin).
Proof.
  unfold lire_articles_depuis_fichier.
  destruct (ouvrir chemin) as [contenu|]; [|constructor].
  apply Forall_forall. intros a Ha. apply in_map_iff in Ha.
  destruct Ha as (l & <- & Hl). apply filter_In in Hl. destruct Hl as [Hl Hv].
  split; [destruct (strip l); [discriminate|congruence]|].
  split; [apply strip_strip|]. split.
  - apply strip_sans_lf. eapply lignes_forme. exact Hl.
  - intros Hc. apply strip_incl in Hc.
    apply (universal_newlines_sans_cr contenu false).
    rewrite <- (concat_lignes (universal_newlines false contenu)).
    apply in_concat. exists l. auto.
Qed.

Lemma articles_filter L :
  filter non_espace
    (concat (map strip (filter (fun l => non_vide (strip l)) L))) =
  filter non_espace (concat L).
Proof.
  induction L as [|l L IH]; [reflexivity|]. cbn [filter concat].
  rewrite (filter_app _ l), <- IH, <- (strip_filter l).
  destruct (non_vide (strip l)) eqn:E; cbn [map concat].
  - rewrite filter_app. reflexivity.
  - destruct (strip l); [reflexivity|discriminate].
Qed.

Lemma filter_propres articles :
  Forall (fun a => a <> [] /\ strip a = a) articles ->
  filter non_vide (map strip articles) = articles.
Proof.
  induction 1 as [|a l [Hne Hs] _ IH]; [reflexivity|].
  cbn [map filter]. rewrite Hs, IH. destruct a; [congruence|reflexivity].
Qed.

(** The loop of [traiter_articles]. *)
Lemma resultats_spec db articles :
  exists rs,
    resultats db articles = Some rs /\
    map fst rs = filter non_vide (map strip articles) /\
    Forall (fun r => traiter_libelle db init (fst r) = Some (snd r) /\
                     sanitized (snd r) = true /\ sans_minuscule (snd r) = true)
           rs.
Proof.
  unfold resultats. cbv zeta.
  enough (H : forall acc, exists rs,
            foldM
              (fun resultats article =>
                 if non_vide (strip article) then
                   article_traite <- traiter_libelle db init (strip article) ;;
                   Some (resultats ++ [(strip article, article_traite)])
                 else Some resultats) articles acc = Some (acc ++ rs) /\
            map fst rs = filter non_vide (map strip articles) /\
            Forall (fun r => traiter_libelle db init (fst r) = Some (snd r) /\
                     sanitized (snd r) = true /\ sans_minuscule (snd r) = true)
                   rs).
  { destruct (H []) as (rs & E & H1 & H2). exists rs. auto. }
  induction articles as [|a l IH]; intros acc; cbn [foldM map filter].
  - exists []. rewrite app_nil_r. repeat split. constructor.
  - destruct (non_vide (strip a)) eqn:Ev.
    + destruct (traiter_libelle_sanitized db init (strip a))
        as (final & Ef & Hs & Hu & _).
      rewrite Ef. destruct (IH (acc ++ [(strip a, final)])) as (rs & E & H1 & H2).
      exists ((strip a, final) :: rs). rewrite E, <- app_assoc.
      split; [reflexivity|]. cbn [map fst]. rewrite H1.
      split; [reflexivity|]. constructor; auto.
    + destruct (IH acc) as (rs & E & H1 & H2). exists rs. auto.
Qed.

Lemma sanitized_sans_citation s :
  sanitized s = true -> existsb a_citer s = false.
Proof.
  intros H. apply sanitized_sobre in H. rewrite forallb_forall in H.
  destruct (existsb a_citer s) eqn:E; [|reflexivity].
  apply existsb_exists in E. destruct E as (c & Hc & Ha).
  apply H in Hc. exfalso. revert Hc Ha.
  unfold sobre, a_citer, TAB, GUILLEMET, CR, LF. chars.
Qed.

(** X10. Every article read from a file is one trimmed line: it is not
    empty, it has no whitespace at its ends (stripping it changes nothing)
    and it holds no end of line.  A file that cannot be read gives no
    article. *)
Theorem articles_read_are_trimmed_lines
    (ouvrir : ustring -> option ustring) (chemin : ustring) :
  Forall (fun a => a <> [] /\ strip a = a /\ ~ In LF a /\ ~ In CR a)
         (lire_articles_depuis_fichier ouvrir chemin) /\
  (ouvrir chemin = None -> lire_articles_depuis_fichier ouvrir chemin = []).
Proof.
  split; [apply articles_propres|].
  unfold lire_articles_depuis_fichier. intros ->. reflexivity.
Qed.

Lemma articles_read_are_trimmed_lines_witness :
  lire_articles_depuis_fichier (fun _ => None) (u "absent.txt") = [].
Proof.
  apply (proj2 (articles_read_are_trimmed_lines (fun _ => None) (u "absent.txt"))).
  reflexivity.
Defined.

(** X11. Reading loses nothing but whitespace: the characters of the
    articles that are not whitespace, one article after the other, are the
    characters of the file that are not whitespace, in the order of the
    file. *)
Theorem reading_keeps_the_text
    (ouvrir : ustring -> option ustring) (chemin contenu : ustring) :
  ouvrir chemin = Some contenu ->
  filter non_espace (concat (lire_articles_depuis_fichier ouvrir chemin)) =
  filter non_espace contenu.
Proof.
  intros E. unfold lire_articles_depuis_fichier. rewrite E. cbv zeta.
  rewrite articles_filter, concat_lignes. apply universal_newlines_filter.
Qed.

Lemma reading_keeps_the_text_witness :
  filter non_espace
    (concat (lire_articles_depuis_fichier
               (fun _ => Some (u " 6x30g chips " ++ [CR; LF; LF] ++ u "1L jus"))
               (u "articles.txt"))) =
  filter non_espace (u " 6x30g chips " ++ [CR; LF; LF] ++ u "1L jus").
Proof.
  apply (reading_keeps_the_text
           (fun _ => Some (u " 6x30g chips " ++ [CR; LF; LF] ++ u "1L jus"))
           (u "articles.txt")).
  reflexivity.
Defined.

(** X12. The batch loop gives one result for every article that is not
    blank, in the order of the list: the trimmed article and its label,
    which [traiter_libelle] always returns and which is a sanitized text
    without lower-case letter. *)
Theorem batch_results (db : UnicodeData) (articles : list ustring) :
  exists rs,
    resultats db articles = Some rs /\
    map fst rs = filter non_vide (map strip articles) /\
    Forall (fun r => traiter_libelle db init (fst r) = Some (snd r) /\
                     sanitized (snd r) = true /\ sans_minuscule (snd r) = true)
           rs.
Proof. exact (resultats_spec db articles). Qed.

(** X13. Reading a file and processing what was read fit together: every
    article the reader returns gets its result, none is dropped or changed
    by the second trimming, and the first column of the results is the list
    of the articles. *)
Theorem batch_of_a_file (db : UnicodeData)
    (ouvrir : ustring -> option ustring) (chemin : ustring) :
  exists rs,
    resultats db (lire_articles_depuis_fichier ouvrir chemin) = Some rs /\
    map fst rs = lire_articles_depuis_fichier ouvrir chemin /\
    length rs = length (lire_articles_depuis_fichier ouvrir chemin).
Proof.
  destruct (resultats_spec db (lire_articles_depuis_fichier ouvrir chemin))
    as (rs & E & H1 & _).
  exists rs. split; [exact E|].
  rewrite filter_propres in H1.
  2:{ eapply Forall_impl; [|apply articles_propres]. cbv beta. tauto. }
  split; [exact H1|]. rewrite <- H1, length_map. reflexivity.
Qed.

(** X14. In the TSV file the corrected label is never quoted: after the
    header, every result is one row made of the original article as a field
    (quoted only when it holds a tab, a quote or an end of line), a tab, the
    label as it is, and the end of the row. *)
Theorem tsv_rows (db : UnicodeData) (articles : list ustring)
    (rs : list (ustring * ustring)) :
  resultats db articles = Some rs ->
  contenu_tsv rs =
    (u "Libell" ++ [233%N] ++ u " Original" ++ [TAB] ++
     u "Libell" ++ [233%N] ++ u " Corrig" ++ [233%N] ++ [CR; LF]) ++
    flat_map (fun r => champ (fst r) ++ [TAB] ++ snd r ++ [CR; LF]) rs.
Proof.
  intros E. destruct (resultats_spec db articles) as (rs' & E' & _ & H).
  rewrite E in E'. inversion E'; subst rs'. clear E E'.
  unfold contenu_tsv. f_equal.
  induction H as [|[a f] rs (_ & Hs & _) _ IH]; [reflexivity|].
  cbn [flat_map fst snd] in *. rewrite IH. f_equal.
  assert (Ec : champ f = f).
  { unfold champ. rewrite (sanitized_sans_citation _ Hs). reflexivity. }
  unfold writerow. destruct a as [|c a]; cbn [map join]; rewrite Ec;
    rewrite <- !app_assoc; reflexivity.
Qed.

Lemma tsv_rows_witness :
  contenu_tsv [(barquette, u "5 BQ ALU PROFONDE 1,5L")] =
    (u "Libell" ++ [233%N] ++ u " Original" ++ [TAB] ++
     u "Libell" ++ [233%N] ++ u " Corrig" ++ [233%N] ++ [CR; LF]) ++
    flat_map (fun r => champ (fst r) ++ [TAB] ++ snd r ++ [CR; LF])
             [(barquette, u "5 BQ ALU PROFONDE 1,5L")].
Proof.
  apply (tsv_rows latin_ucd [barquette]). vm_compute. reflexivity.
Defined.

(** ** Letter case *)

(** The matcher on a text whose characters are sent through a map that the
    classes of the pattern and [\b] do not see. *)
Section EngineMap.
Variable db : UnicodeData.
Variable f : cp -> cp.
Hypothesis f_word : forall x, is_ascii x = true -> is_word db (f x) = is_word db x.

Lemma at_boundary_map st :
  etat_ascii st = true -> at_boundary db (map_state f st) = at_boundary db st.
Proof.
  unfold etat_ascii, at_boundary. intros H. apply andb_prop in H.
  destruct H as [Hb Ha]. rewrite forallb_forall in Hb, Ha.
  cbn [map_state behind ahead]. rewrite !head_is_map.
  rewrite (head_is_ext (fun c => is_word db (f c)) (is_word db) (behind st))
    by (intros c Hc; apply f_word, Hb, Hc).
  rewrite (head_is_ext (fun c => is_word db (f c)) (is_word db) (ahead st))
    by (intros c Hc; apply f_word, Ha, Hc).
  reflexivity.
Qed.

Lemma etat_ascii_intro b a g :
  forallb is_ascii b = true -> forallb is_ascii a = true ->
  etat_ascii (MState b a g) = true.
Proof. intros Hb Ha. unfold etat_ascii. cbn. rewrite Hb, Ha. reflexivity. Qed.

Lemma rep_cls_map p k k' :
  (forall x, is_ascii x = true -> p (f x) = p x) ->
  (forall st, etat_ascii st = true ->
              k' (map_state f st) = option_map (map_state f) (k st)) ->
  forall a lo b g,
    forallb is_ascii a = true -> forallb is_ascii b = true ->
    rep_cls p k' lo (map f b) (map f a) (map_caps f g) =
    option_map (map_state f) (rep_cls p k lo b a g).
Proof.
  intros Hp Hk. induction a as [|c t IH]; intros lo b g Ha Hb.
  - cbn [map rep_cls]. destruct lo; [|reflexivity].
    apply (Hk (MState b [] g)). apply etat_ascii_intro; auto.
  - cbn [map rep_cls]. pose proof Ha as Hct. cbn [forallb] in Hct.
    apply andb_prop in Hct. destruct Hct as [Hc Ht]. rewrite (Hp c Hc).
    assert (Hstop :
      match lo with
      | O => k' (MState (map f b) (f c :: map f t) (map_caps f g))
      | S _ => None
      end =
      option_map (map_state f)
        match lo with
        | O => k (MState b (c :: t) g)
        | S _ => None
        end).
    { destruct lo; [|reflexivity].
      apply (Hk (MState b (c :: t) g)). apply etat_ascii_intro; auto. }
    destruct (p c); [|exact Hstop].
    change (f c :: map f b) with (map f (c :: b)).
    rewrite IH by (auto; cbn [forallb]; rewrite Hc, Hb; reflexivity).
    destruct (rep_cls p k (pred lo) (c :: b) t g); [reflexivity|exact Hstop].
Qed.

Lemma sym_map c k k' :
  cls_stable db f c ->
  (forall st, etat_ascii st = true ->
              k' (map_state f st) = option_map (map_state f) (k st)) ->
  forall st, etat_ascii st = true ->
    sym db c k' (map_state f st) = option_map (map_state f) (sym db c k st).
Proof.
  intros Hc Hk [b a g] Hst. unfold sym. cbn [map_state ahead behind caps].
  unfold etat_ascii in Hst. cbn [behind ahead] in Hst.
  apply andb_prop in Hst. destruct Hst as [Hb Ha].
  destruct a as [|x t]; [reflexivity|]. cbn [map].
  cbn [forallb] in Ha. apply andb_prop in Ha. destruct Ha as [Hx Ht].
  rewrite (Hc x Hx). destruct (cls_test db c x); [|reflexivity].
  apply (Hk (MState (x :: b) t g)). apply etat_ascii_intro; auto.
  cbn [forallb]. rewrite Hx, Hb. reflexivity.
Qed.

Lemma rmatch_map r :
  regex_stable db f r ->
  forall k k',
    (forall st, etat_ascii st = true ->
                k' (map_state f st) = option_map (map_state f) (k st)) ->
    forall st, etat_ascii st = true ->
      rmatch db r k' (map_state f st) =
      option_map (map_state f) (rmatch db r k st).
Proof.
  induction r as [|c|r1 IH1 r2 IH2|r1 IH1 r2 IH2|c|lo c| | |n r1 IH1];
    intros Hr k k' Hk st Hst; cbn [rmatch regex_stable] in *.
  - apply Hk. exact Hst.
  - apply sym_map; assumption.
  - destruct Hr as [Hr1 Hr2]. apply IH1; [exact Hr1| |exact Hst].
    intros st2 H2. apply IH2; assumption.
  - destruct Hr as [Hr1 Hr2]. rewrite (IH1 Hr1 k k' Hk st Hst).
    destruct (rmatch db r1 k st); [reflexivity|]. apply IH2; assumption.
  - rewrite (sym_map c k k' Hr Hk st Hst).
    destruct (sym db c k st); [reflexivity|]. apply Hk. exact Hst.
  - destruct st as [b a g]. unfold etat_ascii in Hst. cbn [behind ahead] in Hst.
    apply andb_prop in Hst. destruct Hst as [Hb Ha].
    cbn [map_state behind ahead caps]. apply rep_cls_map; auto.
  - rewrite (at_boundary_map st Hst).
    destruct (at_boundary db st); [apply Hk; exact Hst|reflexivity].
  - destruct st as [b a g]. cbn [map_state behind ahead caps].
    destruct b as [|y b]; cbn [map]; [|reflexivity].
    apply (Hk (MState [] a g)). exact Hst.
  - apply IH1; [exact Hr| |exact Hst]. intros st' Hst'.
    assert (E : MState (behind (map_state f st')) (ahead (map_state f st'))
                  ((n, consumed (map_state f st) (map_state f st')) ::
                   caps (map_state f st')) =
                map_state f (MState (behind st') (ahead st')
                               ((n, consumed st st') :: caps st'))).
    { unfold map_state, consumed. cbn [behind ahead caps map_caps map fst snd].
      rewrite !length_map, firstn_map. reflexivity. }
    rewrite E. apply Hk. exact Hst'.
Qed.

Lemma attempt_map r must b a :
  regex_stable db f r ->
  forallb is_ascii b = true -> forallb is_ascii a = true ->
  attempt db r must (map f b) (map f a) =
  option_map (map_hit f) (attempt db r must b a).
Proof.
  intros Hr Hb Ha. unfold attempt.
  change (MState (map f b) (map f a) []) with (map_state f (MState b a [])).
  rewrite (rmatch_map r Hr (accept must (length a))
             (accept must (length (map f a)))).
  - destruct (rmatch db r (accept must (length a)) (MState b a [])) as [st'|];
      cbn [option_map]; [|reflexivity].
    unfold map_hit. cbn [hit_text hit_groups map_state ahead caps].
    rewrite !length_map, firstn_map. reflexivity.
  - intros st _. unfold accept. cbn [map_state ahead]. rewrite !length_map.
    destruct (must && (length (ahead st) =? length a)); reflexivity.
  - apply etat_ascii_intro; assumption.
Qed.

Lemma hit_len_map h : hit_len (map_hit f h) = hit_len h.
Proof. unfold hit_len, map_hit. cbn [hit_text]. apply length_map. Qed.

Lemma pieces_map r :
  regex_stable db f r ->
  forall a skip b,
    forallb is_ascii a = true -> forallb is_ascii b = true ->
    pieces db r skip (map f b) (map f a) =
    map (map_piece f) (pieces db r skip b a).
Proof.
  intros Hr. induction a as [|x t IH]; intros skip b Ha Hb.
  - destruct skip as [|n]; cbn [map pieces]; [|reflexivity].
    change (@nil cp) with (map f []) at 1 2.
    rewrite !(attempt_map r _ b [] Hr Hb Ha).
    destruct (attempt db r false b []) as [h|]; cbn [option_map map map_piece];
      [|reflexivity].
    rewrite hit_len_map. destruct (hit_len h); [|reflexivity].
    destruct (attempt db r true b []); reflexivity.
  - pose proof Ha as Hxt. cbn [forallb] in Hxt. apply andb_prop in Hxt.
    destruct Hxt as [Hx Ht].
    assert (Hxb : forallb is_ascii (x :: b) = true)
      by (cbn [forallb]; rewrite Hx, Hb; reflexivity).
    assert (Hnext : forall n, pieces db r n (f x :: map f b) (map f t) =
                              map (map_piece f) (pieces db r n (x :: b) t)).
    { intros n. change (f x :: map f b) with (map f (x :: b)). apply IH; auto. }
    destruct skip as [|n]; cbn [map pieces]; [|apply Hnext].
    change (f x :: map f t) with (map f (x :: t)).
    rewrite !(attempt_map r _ b (x :: t) Hr Hb Ha).
    destruct (attempt db r false b (x :: t)) as [h|];
      cbn [option_map map map_piece]; [|rewrite Hnext; reflexivity].
    rewrite hit_len_map. destruct (hit_len h); [|rewrite Hnext; reflexivity].
    destruct (attempt db r true b (x :: t)) as [h'|];
      cbn [option_map map map_piece]; rewrite ?hit_len_map, Hnext; reflexivity.
Qed.

Lemma re_sub_map r repl s :
  regex_stable db f r -> map f repl = repl -> forallb is_ascii s = true ->
  re_sub db r repl (map f s) = map f (re_sub db r repl s).
Proof.
  intros Hr Hrepl Hs. unfold re_sub.
  change (pieces db r 0 [] (map f s)) with (pieces db r 0 (map f []) (map f s)).
  rewrite (pieces_map r Hr s 0 [] Hs eq_refl).
  induction (pieces db r 0 [] s) as [|p ps IH]; [reflexivity|].
  cbn [map flat_map]. rewrite map_app, IH. f_equal.
  destruct p; cbn [map_piece]; [reflexivity|symmetry; exact Hrepl].
Qed.

End EngineMap.

Lemma upper_ascii x : is_ascii x = true -> is_ascii (ascii_upper x) = true.
Proof.
  unfold ascii_upper. destruct (ascii_lower_letter x) eqn:E; [|auto].
  intros _. revert E. chars.
Qed.

Lemma upper_upper x : ascii_upper (ascii_upper x) = ascii_upper x.
Proof. unfold ascii_upper at 1. rewrite upper_no_lower. reflexivity. Qed.

Lemma map_upper_upper s :
  map ascii_upper (map ascii_upper s) = map ascii_upper s.
Proof. rewrite map_map. apply map_ext. intros. apply upper_upper. Qed.

Lemma map_upper_ascii s :
  forallb is_ascii s = true -> forallb is_ascii (map ascii_upper s) = true.
Proof.
  rewrite !forallb_forall. intros H c Hc. apply in_map_iff in Hc.
  destruct Hc as (x & <- & Hx). apply upper_ascii. auto.
Qed.

Lemma lower_upper x : ascii_lower (ascii_upper x) = ascii_lower x.
Proof.
  unfold ascii_lower, ascii_upper. destruct (ascii_lower_letter x) eqn:E;
    [|reflexivity].
  assert (H1 : ascii_upper_letter (x - 32) = true) by (revert E; chars).
  assert (H2 : ascii_upper_letter x = false) by (revert E; chars).
  rewrite H1, H2. revert E. chars.
Qed.

Lemma lstrip_upper s : lstrip (map ascii_upper s) = map ascii_upper (lstrip s).
Proof.
  induction s as [|c s IH]; [reflexivity|]. cbn [map lstrip].
  rewrite space_upper. destruct (is_space c); [exact IH|reflexivity].
Qed.

Lemma strip_upper s : strip (map ascii_upper s) = map ascii_upper (strip s).
Proof.
  unfold strip, rstrip.
  rewrite lstrip_upper, <- map_rev, lstrip_upper, map_rev. reflexivity.
Qed.

Lemma ss_ascii s t :
  sous_suite s t -> forallb is_ascii t = true -> forallb is_ascii s = true.
Proof.
  intros H Ht. rewrite forallb_forall in *. intros c Hc. apply Ht.
  eapply ss_incl; eauto.
Qed.

Lemma join_ascii parts :
  (forall p, In p parts -> forallb is_ascii p = true) ->
  forallb is_ascii (join (u " ") parts) = true.
Proof.
  intros H. apply forallb_forall. intros c Hc. apply join_in in Hc.
  destruct Hc as [[<-|[]]|(p & Hp & Hc)]; [reflexivity|].
  apply H in Hp. rewrite forallb_forall in Hp. auto.
Qed.

Section LetterCase.
Variable db : UnicodeData.

Lemma upper_is_word x :
  is_ascii x = true -> is_word db (ascii_upper x) = is_word db x.
Proof.
  intros H. unfold is_word. rewrite (upper_ascii x H), H, alnum_upper.
  f_equal. unfold ascii_upper.
  destruct (ascii_lower_letter x) eqn:E; [|reflexivity].
  assert (H1 : (x - 32 =? 95)%N = false) by (revert E; chars).
  assert (H2 : (x =? 95)%N = false) by (revert E; chars).
  rewrite H1, H2. reflexivity.
Qed.

Lemma caseless_upper c x :
  is_ascii c = true -> is_ascii x = true ->
  caseless db c (ascii_upper x) = caseless db c x.
Proof.
  intros Hc Hx. unfold caseless.
  rewrite Hc, Hx, (upper_ascii x Hx), lower_upper. reflexivity.
Qed.

Lemma word_pattern_stable tok :
  forallb is_ascii tok = true ->
  regex_stable db ascii_upper (word_pattern true tok).
Proof.
  intros Ht. unfold word_pattern, seqs. cbn [fold_right regex_stable].
  split; [exact I|]. split; [|split; exact I].
  unfold escape, seqs. induction tok as [|c tok IH]; cbn [map fold_right regex_stable];
    [exact I|].
  cbn [forallb] in Ht. apply andb_prop in Ht. destruct Ht as [Hc Ht].
  split; [|apply IH; exact Ht].
  intros x Hx. cbn [cls_test]. apply caseless_upper; assumption.
Qed.

Lemma espaces_stable : regex_stable db ascii_upper espaces.
Proof. intros x _. cbn [cls_test]. apply space_upper. Qed.

Lemma normaliser_espaces_upper s :
  forallb is_ascii s = true ->
  normaliser_espaces db (map ascii_upper s) =
  map ascii_upper (normaliser_espaces db s).
Proof.
  intros Hs. unfold normaliser_espaces.
  rewrite (re_sub_map db ascii_upper upper_is_word espaces (u " ") s
             espaces_stable eq_refl Hs).
  apply strip_upper.
Qed.

Lemma retirer_upper tok s :
  forallb is_ascii tok = true -> forallb is_ascii s = true ->
  retirer db tok (map ascii_upper s) = map ascii_upper (retirer db tok s).
Proof.
  intros Ht Hs. unfold retirer.
  apply (re_sub_map db ascii_upper upper_is_word); auto.
  apply word_pattern_stable. exact Ht.
Qed.

Lemma retirer_grammages_upper gvs : forall s,
  (forall gv, In gv gvs -> forallb is_ascii gv = true) ->
  forallb is_ascii s = true ->
  retirer_grammages db gvs (map ascii_upper s) =
  map ascii_upper (retirer_grammages db gvs s).
Proof.
  unfold retirer_grammages.
  induction gvs as [|gv gvs IH]; intros s Hg Hs; cbn [fold_left]; [reflexivity|].
  assert (Hgv : forallb is_ascii gv = true) by (apply Hg; left; reflexivity).
  assert (Hgp : forallb is_ascii (replace_char (ch ",") (ch ".") gv) = true).
  { unfold replace_char. rewrite forallb_forall in *. intros c Hc.
    apply in_map_iff in Hc. destruct Hc as (y & <- & Hy).
    destruct (y =? ch ",")%N; [reflexivity|auto]. }
  assert (H1 : forallb is_ascii (retirer db gv s) = true)
    by (eapply ss_ascii; [apply retirer_ss|exact Hs]).
  assert (H2 : forallb is_ascii
                 (retirer db (replace_char (ch ",") (ch ".") gv)
                    (retirer db gv s)) = true)
    by (eapply ss_ascii; [apply retirer_ss|exact H1]).
  rewrite (retirer_upper gv s Hgv Hs), (retirer_upper _ _ Hgp H1).
  apply IH; [|exact H2]. intros x Hx. apply Hg. right. exact Hx.
Qed.

Lemma interdit_upper x :
  cls_test db caractere_interdit (ascii_upper x) =
  cls_test db caractere_interdit x.
Proof.
  unfold caractere_interdit. cbn [cls_test existsb item_test].
  rewrite space_upper. unfold ascii_upper.
  destruct (ascii_lower_letter x) eqn:E; [|reflexivity].
  assert (H1 : in_range (ch "A") (ch "Z") (x - 32) = true) by (revert E; chars).
  assert (H2 : in_range (ch "a") (ch "z") x = true) by (revert E; chars).
  rewrite H1, H2. cbn [orb]. rewrite ?orb_true_r. reflexivity.
Qed.

Lemma sanitizer_upper x :
  forallb is_ascii x = true ->
  supprimer_accents_et_caracteres_speciaux db (map ascii_upper x) =
  map ascii_upper (supprimer_accents_et_caracteres_speciaux db x).
Proof.
  intros Hx. pose proof (map_upper_ascii x Hx) as Hux.
  unfold supprimer_accents_et_caracteres_speciaux, normalize_NFD.
  rewrite Hx, Hux.
  assert (Hmn : forall y, forallb is_ascii y = true ->
            filter (fun char => negb (category_Mn db char)) y = y).
  { intros y Hy. apply filter_all. intros c Hc. rewrite forallb_forall in Hy.
    unfold category_Mn. rewrite (Hy c Hc). reflexivity. }
  rewrite (Hmn x Hx), (Hmn _ Hux), !re_sub_sym.
  match goal with
  | |- context [flat_map ?h (map ascii_upper x)] => set (g := h)
  end.
  assert (Eg : flat_map g (map ascii_upper x) = map ascii_upper (flat_map g x)).
  { clear. induction x as [|c x IH]; [reflexivity|].
    cbn [map flat_map]. rewrite map_app, IH. f_equal. unfold g.
    rewrite interdit_upper.
    destruct (cls_test db caractere_interdit c); reflexivity. }
  rewrite Eg. apply normaliser_espaces_upper.
  apply forallb_forall. intros c Hc. apply in_flat_map in Hc.
  destruct Hc as (y & Hy & Hc). unfold g in Hc. rewrite forallb_forall in Hx.
  destruct (cls_test db caractere_interdit y).
  - destruct Hc as [<-|[]]. reflexivity.
  - destruct Hc as [<-|[]]. auto.
Qed.

Lemma str_upper_upper t :
  forallb is_ascii t = true ->
  str_upper db (map ascii_upper t) = str_upper db t.
Proof.
  intros Ht. rewrite !str_upper_ascii by (auto using map_upper_ascii).
  apply map_upper_upper.
Qed.

(** The pipeline on an ASCII label put in capitals. *)
Lemma traiter_libelle_upper self x :
  forallb is_ascii x = true ->
  traiter_libelle db self (map ascii_upper x) = traiter_libelle db self x.
Proof.
  intros Hx. unfold traiter_libelle. rewrite (sanitizer_upper x Hx).
  pose proof (sanitize_sanitized db x) as Ht.
  set (t := supprimer_accents_et_caracteres_speciaux db x) in *.
  pose proof (sanitized_ascii t Ht) as Ha.
  assert (Em : extraire_marque db self (map ascii_upper t) =
               extraire_marque db self t).
  { unfold extraire_marque. rewrite str_upper_upper by exact Ha. reflexivity. }
  assert (Eg : extraire_grammage_volume db (map ascii_upper t) =
               extraire_grammage_volume db t).
  { unfold extraire_grammage_volume, grammages_volumes_bruts.
    rewrite str_upper_upper by exact Ha. reflexivity. }
  rewrite Em, Eg.
  destruct (extraire_grammage_volume db t) as [gvs|] eqn:E; [|reflexivity].
  f_equal.
  assert (Hgvs : forall gv, In gv gvs -> forallb is_ascii gv = true).
  { intros gv Hgv. pose proof (quantites_ok db t gvs Ht E gv Hgv) as Hj.
    unfold jeton_ok in Hj. apply andb_prop in Hj. destruct Hj as [_ Hj].
    rewrite forallb_forall in *. intros c Hc. apply sobre_ascii. auto. }
  destruct (sanitized_upper db t Ht) as [EU HU].
  assert (Hmarque : forall m, extraire_marque db self t = Some m ->
                    forallb is_ascii m = true).
  { intros m Hf. unfold extraire_marque in Hf. apply find_some in Hf.
    destruct Hf as [_ Hf]. apply contient_mot_spec in Hf.
    destruct Hf as (pre & post & ET & _). rewrite EU in ET.
    rewrite forallb_forall in *. intros c Hc. apply sobre_ascii, HU.
    rewrite ET, !in_app_iff. auto. }
  set (marque := extraire_marque db self t) in *.
  assert (E1 : retirer_marque db marque (map ascii_upper t) =
               map ascii_upper (retirer_marque db marque t)).
  { unfold retirer_marque. destruct marque as [[|c m]|]; try reflexivity.
    apply retirer_upper; [apply Hmarque; reflexivity|exact Ha]. }
  assert (A1 : forallb is_ascii (retirer_marque db marque t) = true)
    by (eapply ss_ascii; [apply retirer_marque_ss|exact Ha]).
  assert (A2 : forallb is_ascii
                 (retirer_grammages db gvs (retirer_marque db marque t)) = true)
    by (eapply ss_ascii; [apply retirer_grammages_ss|exact A1]).
  assert (En : nom_du_produit db (map ascii_upper t) marque gvs =
               map ascii_upper (nom_du_produit db t marque gvs)).
  { unfold nom_du_produit.
    rewrite E1, (retirer_grammages_upper gvs _ Hgvs A1).
    apply normaliser_espaces_upper. exact A2. }
  rewrite En. set (nom := nom_du_produit db t marque gvs).
  assert (An : forallb is_ascii nom = true).
  { apply sanitized_ascii. apply (nom_du_produit_ss db t marque gvs Ht). }
  rewrite !assembler_parties. f_equal.
  assert (Hp : forall n, forallb is_ascii n = true ->
            forall p, In p (parties marque n gvs) -> forallb is_ascii p = true).
  { intros n Hn p Hin. unfold parties in Hin.
    apply in_app_or in Hin. destruct Hin as [Hin|Hin].
    - destruct marque as [[|c m]|]; try contradiction.
      destruct Hin as [<-|[]]. apply Hmarque. reflexivity.
    - apply in_app_or in Hin. destruct Hin as [Hin|Hin]; [|auto].
      destruct n; [contradiction|]. destruct Hin as [<-|[]]. exact Hn. }
  rewrite !str_upper_ascii
    by (apply join_ascii; apply Hp; auto using map_upper_ascii).
  rewrite !map_join. f_equal.
  unfold parties. rewrite !map_app. f_equal. f_equal.
  destruct nom; cbn [map]; [reflexivity|].
  rewrite upper_upper, map_upper_upper. reflexivity.
Qed.

End LetterCase.

(** X15. The letter case of an ASCII label does not count: two ASCII labels
    that differ only in the case of their letters get the same result. *)
Theorem label_ignores_case (db : UnicodeData) (self : TraitementLibelles)
    (x y : ustring) :
  forallb is_ascii x = true -> forallb is_ascii y = true ->
  map ascii_upper x = map ascii_upper y ->
  traiter_libelle db self x = traiter_libelle db self y.
Proof.
  intros Hx Hy E.
  rewrite <- (traiter_libelle_upper db self x Hx),
          <- (traiter_libelle_upper db self y Hy), E.
  reflexivity.
Qed.

Lemma label_ignores_case_witness :
  traiter_libelle latin_ucd init (u "crf chips 30g") =
  traiter_libelle latin_ucd init (u "CRF Chips 30G").
Proof.
  apply (label_ignores_case latin_ucd init (u "crf chips 30g")
           (u "CRF Chips 30G")); reflexivity.
Defined.
